(** * The search indexer of Review Board: thread reconstruction and flattening

    A shallow embedding of [reviewboard/reviews/management/commands/index.py]:
    [flatten_comment], [get_all_review_comments], the document assembly of
    [Command.index_review_request] and the batch loop of
    [Command.handle_noargs].

    Python objects that the code mutates after sharing them (reviews, comments,
    entries) live in stores and are referred to by address; an address is the
    position of the object in the list the query returned.  Exceptions are
    values of [exn], threaded through the [result] monad. *)

From Stdlib Require Import Ascii.
From stdpp Require Import gmap strings list fin_maps relations pretty sorting.

(** ** Exceptions and results *)

Inductive exn : Type :=
  | KeyError (key : option Z) (* [d[key]] on a missing key *)
  | AssertionError            (* a failed [assert] *)
  | RecursionDepthExceeded    (* RuntimeError: maximum recursion depth exceeded *)
  | ZeroDivisionError
  | BadRef                    (* an address outside its store: no Python run reaches it *)
  | BackendError (msg : string). (* raised by the lucene writer *)

Inductive result (A : Type) : Type :=
  | Ok (a : A)
  | Raise (e : exn).
Arguments Ok {A} a.
Arguments Raise {A} e.

Global Instance result_bind : MBind result := λ A B k m,
  match m with
  | Ok a => k a
  | Raise e => Raise e
  end.

Global Instance result_ret : MRet result := λ A a, Ok a.

(** The body of a [for] loop run over a list, stopping at the first
    exception. *)
Fixpoint for_each {A S} (body : S → A → result S) (l : list A) (s : S)
  : result S :=
  match l with
  | [] => Ok s
  | x :: l' => s' ← body s x ; for_each body l' s'
  end.

Definition assert (b : bool) : result unit :=
  if b then Ok tt else Raise AssertionError.

(** ** Strings *)

Definition nl : string := String "010"%char "".

(** [sep.join(l)] *)
Fixpoint join (sep : string) (l : list string) : string :=
  match l with
  | [] => ""
  | x :: l' =>
      match l' with
      | [] => x
      | _ :: _ => x +:+ sep +:+ join sep l'
      end
  end.

(** [s.split(sep)] for a one-character separator. *)
Fixpoint split (sep : ascii) (s : string) : list string :=
  match s with
  | EmptyString => [""]
  | String c s' =>
      if decide (c = sep) then "" :: split sep s'
      else match split sep s' with
           | w :: ws => String c w :: ws
           | [] => [String c ""]
           end
  end.

(** ** Comments and their store *)

Abbreviation addr := nat.

Module Comment.
(** The columns of a comment the indexer reads. *)
Record row : Type := Row {
  pk : Z;
  text : string;
  reply_to_id : option Z
}.

(** A comment object: its columns and the attributes the reconstruction
    sets on it. *)
Record t : Type := Obj {
  columns : row;
  _replies : list addr;
  _review : option addr
}.

(** Modelled from the spec: [Comment.is_reply] lives in the models module,
    which is not part of the sources; a comment is a reply when its
    [reply_to] reference is set. *)
Definition is_reply (c : row) : bool := bool_decide (is_Some (reply_to_id c)).
End Comment.

Abbreviation comment_store := (list Comment.t).

(** [flatten_comment(comment)]; [depth] is the number of nested calls the
    interpreter still allows. *)
Fixpoint flatten_comment (depth : nat) (h : comment_store) (a : addr)
  : result string :=
  match depth with
  | O => Raise RecursionDepthExceeded
  | S d =>
      match h !! a with
      | None => Raise BadRef
      | Some c =>
          for_each
            (λ text reply, r ← flatten_comment d h reply ; Ok (text +:+ nl +:+ r))
            (Comment._replies c)
            (Comment.text (Comment.columns c))
      end
  end.

(** One reply edge of the store, and what it is for a reply chain to contain
    a cycle. *)
Definition reply_edge (h : comment_store) (a b : addr) : Prop :=
  ∃ c, h !! a = Some c ∧ b ∈ Comment._replies c.

Definition has_cycle (h : comment_store) (a : addr) : Prop :=
  ∃ b, rtc (reply_edge h) a b ∧ tc (reply_edge h) b b.

(** Every address a reply list holds is the address of a comment. *)
Definition closed (h : comment_store) : Prop :=
  ∀ a c b, h !! a = Some c → b ∈ Comment._replies c → is_Some (h !! b).

(** The call ends within some recursion depth, with a text or with an error
    of its own. *)
Definition finishes (h : comment_store) (a : addr) : Prop :=
  ∃ depth, flatten_comment depth h a ≠ Raise RecursionDepthExceeded.

(** Comment 0 and comment 1 are each in the other's reply list. *)
Definition two_cycle : comment_store :=
  [ Comment.Obj (Comment.Row 10 "A" (Some 11%Z)) [1] None;
    Comment.Obj (Comment.Row 11 "B" (Some 10%Z)) [0] None ].

(** ** Reviews *)

Module Review.
Record row : Type := Row {
  pk : Z;
  public : bool;
  base_reply_to_id : option Z;
  body_top_reply_to_id : option Z;
  body_bottom_reply_to_id : option Z;
  timestamp : Z;
  body_top : string;
  body_bottom : string
}.

(** A review object: its columns and the two attributes the reconstruction
    sets on it. *)
Record t : Type := Obj {
  columns : row;
  _body_top_replies : list addr;
  _body_bottom_replies : list addr
}.

(** Modelled from the spec: [Review.is_reply] lives in the models module,
    which is not part of the sources; a review is a reply when its
    [base_reply_to] reference is set. *)
Definition is_reply (r : row) : bool :=
  bool_decide (is_Some (base_reply_to_id r)).

Definition set_body_top_replies (l : list addr) (o : t) : t :=
  Obj (columns o) l (_body_bottom_replies o).
Definition set_body_bottom_replies (l : list addr) (o : t) : t :=
  Obj (columns o) (_body_top_replies o) l.
End Review.

Global Instance review_row_eq_dec : EqDecision Review.row.
Proof. solve_decision. Defined.

(** A row of the table between reviews and comments, with the comment that
    [select_related] loads along with it. *)
Record join_row : Type := JoinRow {
  review_id : Z;
  comment : Comment.row
}.

(** A reference to a review: where the object lives and the columns read
    through the reference. *)
Abbreviation review_ref := (addr * Review.row)%type.

Definition enumerate {A} (l : list A) : list (addr * A) := imap pair l.

(** [k in d], for a key that may be [None]: no dictionary here has the key
    [None]. *)
Definition has_key {V} (d : gmap Z V) (k : option Z) : bool :=
  match k with
  | Some k => bool_decide (is_Some (d !! k))
  | None => false
  end.

(** [d[k]] *)
Definition getitem {V} (d : gmap Z V) (k : option Z) : result V :=
  match k ≫= (d !!.) with
  | Some v => Ok v
  | None => Raise (KeyError k)
  end.

(** [if k not in d: d[k] = [x] else: d[k].append(x)] *)
Definition add_reply (k : Z) (x : addr) (d : gmap Z (list addr))
  : gmap Z (list addr) :=
  match d !! k with
  | None => <[k := [x]]> d
  | Some l => <[k := l ++ [x]]> d
  end.

Definition add_body_reply (k : option Z) (x : addr) (d : gmap Z (list addr))
  : gmap Z (list addr) :=
  match k with
  | Some k => add_reply k x d
  | None => d
  end.

(** The locals of [get_all_review_comments] the first loop fills. *)
Record review_scan : Type := ReviewScan {
  public_reviews : list review_ref;
  replies : gmap Z (list addr);
  reply_timestamps : gmap Z Z;
  body_top_replies : gmap Z (list addr);
  body_bottom_replies : gmap Z (list addr);
  reviews_id_map : gmap Z review_ref
}.

Definition empty_scan : review_scan := ReviewScan [] ∅ ∅ ∅ ∅ ∅.

(** The replies map and the timestamps map, lines 73-87. *)
Definition note_reply (parent_id : Z) (a : addr) (ts : Z)
    (st : gmap Z (list addr) * gmap Z Z)
  : result (gmap Z (list addr) * gmap Z Z) :=
  match st.1 !! parent_id with
  | None => Ok (<[parent_id := [a]]> st.1, <[parent_id := ts]> st.2)
  | Some l =>
      old ← getitem st.2 (Some parent_id);
      Ok (<[parent_id := l ++ [a]]> st.1, <[parent_id := Z.max old ts]> st.2)
  end.

(** One turn of the loop over [all_reviews], lines 63-101. *)
Definition scan_review (st : review_scan) (r : review_ref)
  : result review_scan :=
  let '(a, review) := r in
  if Review.public review then
    rt ← match Review.base_reply_to_id review with
         | Some parent_id =>
             note_reply parent_id a (Review.timestamp review)
               (replies st, reply_timestamps st)
         | None => Ok (replies st, reply_timestamps st)
         end;
    Ok {| public_reviews := public_reviews st ++ [r];
          replies := rt.1;
          reply_timestamps := rt.2;
          body_top_replies :=
            add_body_reply (Review.body_top_reply_to_id review) a
              (body_top_replies st);
          body_bottom_replies :=
            add_body_reply (Review.body_bottom_reply_to_id review) a
              (body_bottom_replies st);
          reviews_id_map := <[Review.pk review := r]> (reviews_id_map st) |}
  else Ok st.

Definition scan_reviews (all_reviews : list Review.row) : result review_scan :=
  for_each scan_review (enumerate all_reviews) empty_scan.

(** Every review gets two empty reply lists, lines 64-65. *)
Definition fresh_reviews (all_reviews : list Review.row) : list Review.t :=
  (λ r, Review.Obj r [] []) <$> all_reviews.

(** ** Entries *)

Record entry : Type := Entry {
  review : addr;
  diff_comments : list addr;
  timestamp : Z
}.

Definition add_comment (a : addr) (e : entry) : entry :=
  Entry (review e) (diff_comments e ++ [a]) (timestamp e).

(** Lines 109-119.  [reviews_entry_map] refers to an entry by its position in
    [entries]. *)
Definition add_entry (st : list entry * gmap Z nat) (r : review_ref)
  : list entry * gmap Z nat :=
  let '(a, review) := r in
  if Review.is_reply review then st
  else (st.1 ++ [Entry a [] (Review.timestamp review)],
        <[Review.pk review := length st.1]> st.2).

Definition build_entries (public_reviews : list review_ref)
  : list entry * gmap Z nat :=
  foldl add_entry ([], ∅) public_reviews.

(** Lines 122-125, for one of the two keys.  The dictionary is walked in the
    order of [map_to_list]; every turn writes to another review and can only
    fail with [KeyError], so the order does not show in the outcome. *)
Definition link_replies (setter : list addr → Review.t → Review.t)
    (ids : gmap Z review_ref) (reply_list : gmap Z (list addr))
    (store : list Review.t) : result (list Review.t) :=
  for_each
    (λ store kv, target ← getitem ids (Some kv.1);
                 Ok (alter (setter kv.2) target.1 store))
    (map_to_list reply_list) store.

(** ** Comments of the fetched join rows *)

(** [through.objects.filter(review__in=review_ids)]; the table is given in the
    order of the query's [order_by]. *)
Definition fetch_join_rows (ids : gmap Z review_ref) (through : list join_row)
  : list join_row :=
  filter (λ obj, is_Some (ids !! review_id obj)) through.

(** First pass, lines 153-156: every fetched row has a comment object of its
    own, at the position of the row. *)
Definition fresh_comments (objs : list join_row) : comment_store :=
  (λ obj, Comment.Obj (comment obj) [] None) <$> objs.

Definition map_comments (objs : list join_row) : gmap Z addr :=
  foldl (λ m o, <[Comment.pk (comment o.2) := o.1]> m) ∅ (enumerate objs).

Definition set_review (ra : addr) (c : Comment.t) : Comment.t :=
  Comment.Obj (Comment.columns c) (Comment._replies c) (Some ra).

Definition append_reply (a : addr) (c : Comment.t) : Comment.t :=
  Comment.Obj (Comment.columns c) (Comment._replies c ++ [a]) (Comment._review c).

(** One turn of the second pass, lines 158-183.  The back-reference
    [_review_request] is the same request on every comment and is read by
    nothing here; it is left out. *)
Definition attach_comment (ids : gmap Z review_ref)
    (reviews_entry_map : gmap Z nat) (comment_map : gmap Z addr)
    (st : list entry * comment_store) (o : addr * join_row)
  : result (list entry * comment_store) :=
  let '(a, obj) := o in
  _ ← assert (has_key ids (Some (review_id obj)));
  parent ← getitem ids (Some (review_id obj));
  let '(ra, parent_review) := parent in
  let h := alter (set_review ra) a st.2 in
  if Review.is_reply parent_review then
    _ ← assert (negb (has_key reviews_entry_map (Some (review_id obj))));
    _ ← assert (has_key reviews_entry_map (Review.base_reply_to_id parent_review));
    if Comment.is_reply (comment obj) then
      replied_comment ← getitem comment_map (Comment.reply_to_id (comment obj));
      Ok (st.1, alter (append_reply a) replied_comment h)
    else Ok (st.1, h)
  else if Review.public parent_review then
    _ ← assert (has_key reviews_entry_map (Some (review_id obj)));
    e ← getitem reviews_entry_map (Some (review_id obj));
    Ok (alter (add_comment a) e st.1, h)
  else Ok (st.1, h).

(** What [get_all_review_comments] hands back: the list of entries, and the
    review and comment objects the entries refer to. *)
Record reconstruction : Type := Reconstruction {
  entries : list entry;
  reviews : list Review.t;
  comments : comment_store
}.

(** [get_all_review_comments(review_request)], for the reviews of the request
    and the table between reviews and comments. *)
Definition get_all_review_comments (all_reviews : list Review.row)
    (through : list join_row) : result reconstruction :=
  scan ← scan_reviews all_reviews;
  let '(entries, reviews_entry_map) := build_entries (public_reviews scan) in
  store ← link_replies Review.set_body_top_replies (reviews_id_map scan)
            (body_top_replies scan) (fresh_reviews all_reviews);
  store ← link_replies Review.set_body_bottom_replies (reviews_id_map scan)
            (body_bottom_replies scan) store;
  let objs := fetch_join_rows (reviews_id_map scan) through in
  let comment_map := map_comments objs in
  st ← for_each (attach_comment (reviews_id_map scan) reviews_entry_map comment_map)
         (enumerate objs) (entries, fresh_comments objs);
  Ok (Reconstruction st.1 store st.2).

(** ** Review requests and documents *)

Module FileDiff.
Record t : Type := Mk { source_file : string; dest_file : string }.
End FileDiff.

Record diffset : Type := DiffSet { files : list FileDiff.t }.

(** The submitter; [full_name] is what [get_full_name()] returns. *)
Record user : Type := User { username : string; full_name : string }.

Module ReviewRequest.
(** A review request with what the indexer reads through it: its columns,
    its reviews in the order they are fetched, the table between reviews and
    comments, and the diff sets of its history. *)
Record t : Type := Mk {
  id : Z;
  summary : string;
  description : string;
  testing_done : string;
  changenum : option Z;
  bugs_closed : string;
  submitter : user;
  diffset_history : option (list diffset);
  reviews : list Review.row;
  review_comments : list join_row
}.
End ReviewRequest.

Inductive index_mode : Type := NO | TOKENIZED | UN_TOKENIZED.

Record field : Type := Field {
  name : string;
  value : string;
  stored : bool;
  index : index_mode
}.

Definition document : Type := list field.

(** The values of the fields of a document that have a given name. *)
Definition field_values (n : string) (doc : document) : list string :=
  value <$> filter (λ f, name f = n) doc.

(** [unicode(n)] and the truth value of [n], for a number that may be
    [None]. *)
Definition unicode (n : option Z) : string :=
  match n with
  | Some n => pretty n
  | None => "None"
  end.

Definition truthy (n : option Z) : bool :=
  match n with
  | Some n => bool_decide (n ≠ 0%Z)
  | None => false
  end.

(** Lines 353-356. *)
Definition filediff_paths (fd : FileDiff.t) : list string :=
  (if decide (FileDiff.source_file fd = "") then [] else [FileDiff.source_file fd])
  ++ (if decide (FileDiff.dest_file fd = "") then [] else [FileDiff.dest_file fd]).

(** Lines 349-356. *)
Definition collect_files (history : option (list diffset)) : list string :=
  match history with
  | Some diffsets => diffsets ≫= (λ ds, files ds ≫= filediff_paths)
  | None => []
  end.

(** ['\n'.join(set(files))]: the set is walked in the order of [elements]. *)
Definition aggregate_files (files : list string) : string :=
  join nl (elements (list_to_set files : gset string)).

(** Line 320. *)
Definition bugs_field (bugs_closed : string) : string :=
  join " " (split ","%char bugs_closed).

(** The spec's words for the bug field: every comma replaced by a space. *)
Fixpoint replace_commas (s : string) : string :=
  match s with
  | EmptyString => ""
  | String c s' =>
      String (if decide (c = ","%char) then " "%char else c) (replace_commas s')
  end.

(** [map(lambda x: "\n".join([x.body_top, x.body_bottom]), l)], joined. *)
Definition review_replies_text (store : list Review.t) (l : list addr)
  : result string :=
  texts ← mapM (λ x, match store !! x with
                     | Some o => Ok (join nl [Review.body_top (Review.columns o);
                                              Review.body_bottom (Review.columns o)])
                     | None => Raise BadRef
                     end) l;
  Ok (join nl texts).

(** One turn of the loop over the entries, lines 337-342. *)
Definition flatten_entry (depth : nat) (rc : reconstruction)
    (comment_text : string) (e : entry) : result string :=
  match reviews rc !! review e with
  | None => Raise BadRef
  | Some review =>
      let comment_text :=
        join nl [comment_text; Review.body_top (Review.columns review);
                 Review.body_bottom (Review.columns review)] in
      review_top_replies ←
        review_replies_text (reviews rc) (Review._body_top_replies review);
      review_bot_replies ←
        review_replies_text (reviews rc) (Review._body_bottom_replies review);
      let comment_text :=
        join nl [comment_text; review_top_replies; review_bot_replies] in
      flat ← mapM (flatten_comment depth (comments rc)) (diff_comments e);
      Ok (comment_text +:+ join nl flat)
  end.

(** The document [index_review_request] builds, lines 307-376. *)
Definition build_document (depth : nat) (request : ReviewRequest.t)
  : result document :=
  let doc := [Field "id" (pretty (ReviewRequest.id request)) true NO;
              Field "summary" (ReviewRequest.summary request) false TOKENIZED] in
  let doc :=
    if truthy (ReviewRequest.changenum request)
    then doc ++ [Field "changenum" (unicode (ReviewRequest.changenum request))
                   false TOKENIZED]
    else doc in
  let bugs := bugs_field (ReviewRequest.bugs_closed request) in
  let doc := doc ++ [Field "bug" bugs false TOKENIZED] in
  let name := join " " [username (ReviewRequest.submitter request);
                        full_name (ReviewRequest.submitter request)] in
  let doc := doc ++ [Field "author" name false TOKENIZED] in
  let doc := doc ++ [Field "username" (username (ReviewRequest.submitter request))
                       false UN_TOKENIZED] in
  comment_entries ← get_all_review_comments (ReviewRequest.reviews request)
                      (ReviewRequest.review_comments request);
  comment_text ← for_each (flatten_entry depth comment_entries)
                   (entries comment_entries) "";
  let doc := doc ++ [Field "comment" comment_text false TOKENIZED] in
  let files := collect_files (ReviewRequest.diffset_history request) in
  let doc := doc ++ [Field "file" (aggregate_files files) false TOKENIZED] in
  let text := join nl [ReviewRequest.summary request;
                       ReviewRequest.description request;
                       unicode (ReviewRequest.changenum request);
                       ReviewRequest.testing_done request;
                       bugs; name; comment_text; aggregate_files files] in
  Ok (doc ++ [Field "text" text false TOKENIZED]).

(** ** The batch loop of handle_noargs *)

(** [str(e)] *)
Definition exn_message (e : exn) : string :=
  match e with
  | KeyError k => unicode k
  | AssertionError => ""
  | RecursionDepthExceeded => "maximum recursion depth exceeded"
  | ZeroDivisionError => "integer division or modulo by zero"
  | BadRef => ""
  | BackendError msg => msg
  end.

Definition error_line (request : ReviewRequest.t) (e : exn) : string :=
  "Error indexing ReviewRequest #" +:+ pretty (ReviewRequest.id request)
  +:+ ": " +:+ exn_message e +:+ nl.

Section Backend.
(** The index writer is an outside collaborator: adding a document changes
    the writer and may raise. *)
Variable writer : Type.
Variable addDocument : writer → document → writer * option exn.
(** The recursion depth left to [flatten_comment] inside the loop. *)
Variable depth : nat.

Record run : Type := Run {
  index_writer : writer;
  i : Z;
  prev_pct : Z;
  stdout : list string;
  stderr : list string
}.

Definition with_writer (w : writer) (st : run) : run :=
  Run w (i st) (prev_pct st) (stdout st) (stderr st).

Definition log_error (request : ReviewRequest.t) (e : exn) (st : run) : run :=
  Run (index_writer st) (i st) (prev_pct st) (stdout st)
    (stderr st ++ [error_line request e]).

(** [index_review_request(writer, request)] *)
Definition index_review_request (w : writer) (request : ReviewRequest.t)
  : writer * option exn :=
  match build_document depth request with
  | Ok doc => addDocument w doc
  | Raise e => (w, Some e)
  end.

End Backend.

(** * The command *)

(** The exceptions that leave the command, besides those of [exn]. *)
Inductive failure : Type :=
  | SystemExit (code : Z)
  | ValueError
  | IndexError
  | Propagated (e : exn).

(** The two ways the index writer is constructed, lines 234-244. *)
Inductive lucene_api : Type := Lucene2 | Lucene3.

(** What the command finds outside its own code: the index writer of lucene,
    the terminal, and the conversions of the standard library. *)
Class Host : Type := {
  writer : Type;
  datetime : Type;
  (** [lucene.IndexWriter(store, ..., create)] on the store directory *)
  IndexWriter : lucene_api → string → bool → result writer;
  deleteDocuments : writer → string → string → writer * option exn;
  addDocument : writer → document → writer * option exn;
  optimize : writer → writer * option exn;
  close : writer → writer * option exn;
  isatty : bool;
  (** the recursion depth left to [flatten_comment] inside the loop *)
  depth : nat;
  (** [int(s)]; [None] stands for ValueError *)
  int : string → option Z;
  (** the datetime of lines 221-225, aware or naive by the settings; [None]
      stands for ValueError *)
  utcfromtimestamp : Z → option datetime;
  (** the query [last_updated__gt=timestamp] on one row *)
  last_updated__gt : datetime → datetime → bool
}.

(** The store directory: missing, or there with the content of its timestamp
    file if it has one. *)
Inductive store_dir : Type :=
  | Missing
  | Present (timestamp_file : option string).

(** A row of the review request table: the request with the two columns the
    query of lines 248-255 filters on. *)
Record stored_request `{Host} : Type := StoredRequest {
  request : ReviewRequest.t;
  status : string;
  last_updated : datetime
}.

(** The module globals lines 16-28 leave, the site configuration, the clock
    and the database. *)
Record environment `{Host} : Type := Environment {
  search_enable : bool;
  search_index_file : string;
  have_lucene : bool;
  lucene_is_2x : bool;
  lucene_is_3x : bool;
  (** [time.time()], cut to whole seconds as ['%d'] writes it *)
  time : Z;
  (** the table behind [ReviewRequest.objects], in the order of the query *)
  objects : list stored_request
}.

(** What a run leaves: the store directory, what was written to the two
    streams, the index writer if one was made, and the exception that ended
    the run, if any. *)
Record outcome `{Host} : Type := Outcome {
  store : store_dir;
  printed : list string;
  logged : list string;
  index_left : option writer;
  raised : option failure
}.

(** Lines 21-23, on the list [lv]. *)
Definition version_item (lv : list Z) (n : nat) : failure + Z :=
  match lv !! n with
  | Some x => inr x
  | None => inl IndexError
  end.

Definition is_2x (lv : list Z) : failure + bool :=
  match version_item lv 0 with
  | inl e => inl e
  | inr major =>
      if decide (major = 2%Z) then
        match version_item lv 1 with
        | inl e => inl e
        | inr minor => inr (bool_decide (minor < 9)%Z)
        end
      else inr false
  end.

Definition is_3x (lv : list Z) : failure + bool :=
  match version_item lv 0 with
  | inl e => inl e
  | inr major =>
      if decide (major = 3%Z) then inr true
      else if decide (major = 2%Z) then
        match version_item lv 1 with
        | inl e => inl e
        | inr minor => inr (bool_decide (minor = 9%Z))
        end
      else inr false
  end.

(** Line 21. *)
Definition lv `{Host} (VERSION : string) : failure + list Z :=
  match mapM int (split "."%char VERSION) with
  | Some l => inr l
  | None => inl ValueError
  end.

(** Lines 16-28: [have_lucene], [lucene_is_2x] and [lucene_is_3x] for the
    version of the lucene module, if there is one to import. *)
Definition import_lucene `{Host} (VERSION : option string)
  : failure + (bool * bool * bool) :=
  match VERSION with
  | None => inr (false, false, false)
  | Some v =>
      match lv v with
      | inl e => inl e
      | inr l =>
          match is_2x l, is_3x l with
          | inr a, inr b => inr (true, a, b)
          | inl e, _ | _, inl e => inl e
          end
      end
  end.

Definition search_disabled : string :=
  "Search is currently disabled. It must be enabled in the Review Board administration settings to run this command."
  +:+ nl.

Definition lucene_required : string :=
  "PyLucene is required to build the search index." +:+ nl.

(** Lines 217-228: the timestamp an incremental run starts from; [None] when
    the run is a full one, by the option or because the timestamp file cannot
    be opened. *)
Definition read_timestamp `{Host} (incremental : bool) (dir : store_dir)
  : failure + option datetime :=
  if incremental then
    match dir with
    | Present (Some content) =>
        match int content ≫= utcfromtimestamp with
        | Some timestamp => inr (Some timestamp)
        | None => inl ValueError
        end
    | _ => inr None
    end
  else inr None.

(** Lines 248-255. *)
Definition selected `{Host} (timestamp : option datetime) (row : stored_request)
  : bool :=
  bool_decide (status row = "P" ∨ status row = "S")
  && match timestamp with
     | Some t => last_updated__gt (last_updated row) t
     | None => true
     end.

Definition query `{Host} (timestamp : option datetime)
    (table : list stored_request) : list ReviewRequest.t :=
  request <$> filter (λ row, selected timestamp row) table.

(** Lines 271-277; the percentage is [(i * 100) / totalobjs], as Python
    reads [i * 100 / totalobjs]. *)
Definition write_progress `{Host} (totalobjs : Z) (st : run writer)
  : run writer * option exn :=
  if isatty then
    let i' := (i writer st + 1)%Z in
    let st := Run writer (index_writer writer st) i' (prev_pct writer st)
                (stdout writer st) (stderr writer st) in
    if decide (totalobjs = 0%Z) then (st, Some ZeroDivisionError)
    else
      let pct := ((i' * 100) `div` totalobjs)%Z in
      if decide (pct ≠ prev_pct writer st)
      then (Run writer (index_writer writer st) i' pct
              (stdout writer st
               ++ ["  [" +:+ pretty pct +:+ "%]" +:+ String "013"%char ""])
              (stderr writer st), None)
      else (st, None)
  else (st, None).

(** The body of the [try], lines 265-277: the state it leaves and the
    exception it raised, if any. *)
Definition try_request `{Host} (incremental : bool) (totalobjs : Z)
    (st : run writer) (request : ReviewRequest.t) : run writer * option exn :=
  let '(w, e) :=
    if incremental
    then deleteDocuments (index_writer writer st) "id"
           (pretty (ReviewRequest.id request))
    else (index_writer writer st, None) in
  match e with
  | Some e => (with_writer writer w st, Some e)
  | None =>
      let '(w, e) := index_review_request writer addDocument depth w request in
      match e with
      | Some e => (with_writer writer w st, Some e)
      | None => write_progress totalobjs (with_writer writer w st)
      end
  end.

(** One turn of the loop, lines 263-281. *)
Definition index_request `{Host} (incremental : bool) (totalobjs : Z)
    (st : run writer) (request : ReviewRequest.t) : run writer :=
  let '(w, e) :=
    if incremental
    then deleteDocuments (index_writer writer st) "id"
           (pretty (ReviewRequest.id request))
    else (index_writer writer st, None) in
  match e with
  | Some e => log_error writer request e (with_writer writer w st)
  | None =>
      let '(w, e) := index_review_request writer addDocument depth w request in
      match e with
      | Some e => log_error writer request e (with_writer writer w st)
      | None =>
          match write_progress totalobjs (with_writer writer w st) with
          | (st', None) => st'
          | (st', Some e) => log_error writer request e st'
          end
      end
  end.

Definition index_requests `{Host} (incremental : bool) (totalobjs : Z)
    (requests : list ReviewRequest.t) (st : run writer) : run writer :=
  foldl (index_request incremental totalobjs) st requests.

(** [print s] when the output is a terminal. *)
Definition announce `{Host} (lines : list string) : list string :=
  if isatty then (λ s, s +:+ nl) <$> lines else [].

(** Lines 234-291: the index is opened, the selected requests are indexed,
    the index is optimized and closed. *)
Definition build_index `{Host} (env : environment) (dir : store_dir)
    (timestamp : option datetime) : outcome :=
  let incremental := bool_decide (is_Some timestamp) in
  match (if lucene_is_2x env
         then IndexWriter Lucene2 (search_index_file env) (negb incremental)
         else if lucene_is_3x env
         then IndexWriter Lucene3 (search_index_file env) (negb incremental)
         else Raise AssertionError) with
  | Raise e => Outcome _ dir [] [] None (Some (Propagated e))
  | Ok w =>
      let requests := query timestamp (objects env) in
      let totalobjs := Z.of_nat (length requests) in
      let st := index_requests incremental totalobjs requests
                  (Run writer w 0 (-1)
                     (announce ["Creating Review Request Index"]) []) in
      let out := stdout writer st ++ announce ["Optimizing Index"] in
      match optimize (index_writer writer st) with
      | (w, Some e) =>
          Outcome _ dir out (stderr writer st) (Some w) (Some (Propagated e))
      | (w, None) =>
          let out :=
            out ++ announce ["Indexed " +:+ pretty totalobjs +:+ " documents";
                             "Done"] in
          match close w with
          | (w, Some e) =>
              Outcome _ dir out (stderr writer st) (Some w)
                (Some (Propagated e))
          | (w, None) => Outcome _ dir out (stderr writer st) (Some w) None
          end
      end
  end.

(** [handle_noargs] of the command; [options] holds the value of
    ['incremental'] if the key is there. *)
Definition handle_noargs `{Host} (options : option bool) (env : environment)
    (dir : store_dir) : outcome :=
  if negb (search_enable env)
  then Outcome _ dir [] [search_disabled] None (Some (SystemExit 1))
  else if negb (have_lucene env)
  then Outcome _ dir [] [lucene_required] None (Some (SystemExit 1))
  else
    let incremental := default true options in
    let dir := match dir with
               | Missing => Present None
               | Present _ => dir
               end in
    match read_timestamp incremental dir with
    | inl e => Outcome _ dir [] [] None (Some e)
    | inr timestamp =>
        build_index env (Present (Some (pretty (time env)))) timestamp
    end.

(** * The diff parser of scmtools/git.py *)

(** [l[n]], for an index that may be negative. *)
Definition item {A} (l : list A) (n : Z) : failure + A :=
  let n' := if decide (n < 0)%Z then (n + Z.of_nat (length l))%Z else n in
  if decide (n' < 0)%Z then inl IndexError
  else match l !! Z.to_nat n' with
       | Some x => inr x
       | None => inl IndexError
       end.

(** [s.startswith(prefix)] *)
Definition startswith (s prefix : string) : bool := String.prefix prefix s.

(** [_is_moved_file(self, linenum)], on the lines of the parser. *)
Definition _is_moved_file (lines : list string) (linenum : Z) : failure + bool :=
  match item lines linenum with
  | inl e => inl e
  | inr line =>
      if negb (startswith line "similarity index") then inr false
      else
        match item lines (linenum + 1) with
        | inl e => inl e
        | inr line =>
            if negb (startswith line "rename from") then inr false
            else
              match item lines (linenum + 2) with
              | inl e => inl e
              | inr line => inr (startswith line "rename to")
              end
        end
  end.

(** The two attributes of [file_info] the branch of the moved file sets. *)
Record file_info : Type := FileInfo {
  data : string;
  moved : bool
}.

(** [file_info.data += self.lines[n] + "\n"]: the file information it
    leaves, and the exception it raised, if any. *)
Definition add_line (lines : list string) (n : Z) (info : file_info)
  : file_info * option failure :=
  match item lines n with
  | inl e => (info, Some e)
  | inr line => (FileInfo (data info +:+ (line +:+ nl)) (moved info), None)
  end.

(** The body of the branch taken when [_is_moved_file(linenum)] holds, lines
    9-13: the file information and the line number it leaves, and the
    exception it raised, if any. *)
Definition take_moved_file (lines : list string) (info : file_info)
    (linenum : Z) : file_info * Z * option failure :=
  match add_line lines linenum info with
  | (info, Some e) => (info, linenum, Some e)
  | (info, None) =>
      match add_line lines (linenum + 1) info with
      | (info, Some e) => (info, linenum, Some e)
      | (info, None) =>
          match add_line lines (linenum + 2) info with
          | (info, Some e) => (info, linenum, Some e)
          | (info, None) => (FileInfo (data info) true, (linenum + 3)%Z, None)
          end
      end
  end.

(** * Vocabulary of the properties, and sample data *)

(** A comment with two replies, neither of which has replies. *)
Definition thread : comment_store :=
  [ Comment.Obj (Comment.Row 1 "why?" None) [1; 2] (Some 0);
    Comment.Obj (Comment.Row 2 "because" (Some 1%Z)) [] (Some 1);
    Comment.Obj (Comment.Row 3 "thanks" (Some 1%Z)) [] (Some 2) ].

(** The fields of the document of a request, given the text of its
    comments. *)
Definition document_of (request : ReviewRequest.t) (comment_text : string)
  : document :=
  let bugs := bugs_field (ReviewRequest.bugs_closed request) in
  let name := join " " [username (ReviewRequest.submitter request);
                        full_name (ReviewRequest.submitter request)] in
  let files :=
    aggregate_files (collect_files (ReviewRequest.diffset_history request)) in
  [Field "id" (pretty (ReviewRequest.id request)) true NO;
   Field "summary" (ReviewRequest.summary request) false TOKENIZED]
  ++ (if truthy (ReviewRequest.changenum request)
      then [Field "changenum" (unicode (ReviewRequest.changenum request))
              false TOKENIZED]
      else [])
  ++ [Field "bug" bugs false TOKENIZED;
      Field "author" name false TOKENIZED;
      Field "username" (username (ReviewRequest.submitter request))
        false UN_TOKENIZED;
      Field "comment" comment_text false TOKENIZED;
      Field "file" files false TOKENIZED;
      Field "text"
        (join nl [ReviewRequest.summary request;
                  ReviewRequest.description request;
                  unicode (ReviewRequest.changenum request);
                  ReviewRequest.testing_done request;
                  bugs; name; comment_text; files])
        false TOKENIZED].

(** A request with two reviews, a thread of comments, two bugs and two diff
    sets that both touch [main.cc]. *)
Definition sample_reviews : list Review.row :=
  [ Review.Row 1 true None None None 100 "looks good" "ship it";
    Review.Row 2 true (Some 1%Z) (Some 1%Z) None 101 "thanks" "";
    Review.Row 3 false None None None 102 "draft" "" ].

Definition sample_through : list join_row :=
  [ JoinRow 1 (Comment.Row 10 "why?" None);
    JoinRow 2 (Comment.Row 11 "because" (Some 10%Z));
    JoinRow 2 (Comment.Row 12 "stray" None);
    JoinRow 3 (Comment.Row 13 "hidden" None) ].

Definition sample_request : ReviewRequest.t :=
  ReviewRequest.Mk 42 "Fix crash" "Null check" "ran the tests" (Some 0%Z)
    "123,456" (User "alice" "Alice A")
    (Some [ DiffSet [FileDiff.Mk "main.cc" "main.cc"];
            DiffSet [FileDiff.Mk "main.cc" "main.cc"; FileDiff.Mk "" "util.h"] ])
    sample_reviews sample_through.

(** The request touches the path [p]: [p] is the source or the destination of
    a file diff of a diff set of its history. *)
Definition touches (request : ReviewRequest.t) (p : string) : Prop :=
  ∃ diffsets ds fd,
    ReviewRequest.diffset_history request = Some diffsets
    ∧ ds ∈ diffsets ∧ fd ∈ files ds
    ∧ (FileDiff.source_file fd = p ∨ FileDiff.dest_file fd = p).

(** A writer that keeps the documents in a list and never raises. *)
Definition list_delete (w : list document) (f v : string)
  : list document * option exn :=
  (filter (λ doc, v ∉ field_values f doc) w, None).

Definition list_add (w : list document) (doc : document)
  : list document * option exn :=
  (w ++ [doc], None).

(** A request whose only review replies to the body of a review, 9, that is not
    among its public reviews: the reconstruction raises [KeyError]. *)
Definition bad_request : ReviewRequest.t :=
  ReviewRequest.Mk 7 "Broken" "" "" None "" (User "bob" "Bob B") None
    [Review.Row 1 true None (Some 9%Z) None 100 "re" ""] [].

(** The state the loop starts in: an empty index, [i = 0], [prev_pct = -1]. *)
Definition start : run (list document) := Run (list document) [] 0 (-1) [] [].

(** What a multimap holds under a key: nothing for no element, the list of
    the elements otherwise. *)
Definition nonempty {A} (l : list A) : option (list A) :=
  match l with
  | [] => None
  | _ :: _ => Some l
  end.

(** The public reviews of [l] whose reference [sel] is [k], by address and in
    the order of [l]. *)
Definition repliers (sel : Review.row → option Z) (k : Z) (l : list review_ref)
  : list addr :=
  (filter (λ r : review_ref, Review.public r.2 ∧ sel r.2 = Some k) l).*1.

(** What the locals hold once the loop has been through the reviews [l]. *)
Record scan_spec (l : list review_ref) (scan : review_scan) : Prop := ScanSpec {
  spec_public :
    public_reviews scan = filter (λ r : review_ref, Review.public r.2) l;
  spec_replies :
    ∀ k, replies scan !! k = nonempty (repliers Review.base_reply_to_id k l);
  spec_timestamps :
    ∀ k, is_Some (reply_timestamps scan !! k) ↔ is_Some (replies scan !! k);
  spec_top :
    ∀ k, body_top_replies scan !! k
         = nonempty (repliers Review.body_top_reply_to_id k l);
  spec_bottom :
    ∀ k, body_bottom_replies scan !! k
         = nonempty (repliers Review.body_bottom_reply_to_id k l);
  spec_ids :
    ∀ k, reviews_id_map scan !! k
         = last (filter (λ r : review_ref,
                           Review.public r.2 ∧ Review.pk r.2 = k) l)
}.

(** The review is not a reply, and the entry built for such a review. *)
Definition top_level (r : review_ref) : Prop := ¬ Review.is_reply r.2.

Definition new_entry (r : review_ref) : entry :=
  Entry r.1 [] (Review.timestamp r.2).

Section attach_vocabulary.
Context (ids : gmap Z review_ref) (emap : gmap Z nat) (cmap : gmap Z addr).

(** The entry a fetched row adds its comment to, and the comment it adds its
    comment to as a reply, if any. *)
Definition owner_entry (obj : join_row) : option nat :=
  match ids !! review_id obj with
  | Some (_, r) =>
      if Review.is_reply r then None
      else if Review.public r then emap !! review_id obj else None
  | None => None
  end.

Definition reply_target (obj : join_row) : option addr :=
  match ids !! review_id obj with
  | Some (_, r) =>
      if Review.is_reply r then
        if Comment.is_reply (comment obj)
        then Comment.reply_to_id (comment obj) ≫= (cmap !!.)
        else None
      else None
  | None => None
  end.

(** The row passes the assertions and the lookups of its turn. *)
Definition row_ok (obj : join_row) : Prop :=
  ∃ ra r, ids !! review_id obj = Some (ra, r)
    ∧ if Review.is_reply r then
        emap !! review_id obj = None
        ∧ has_key emap (Review.base_reply_to_id r)
        ∧ (Comment.is_reply (comment obj) →
           is_Some (Comment.reply_to_id (comment obj) ≫= (cmap !!.)))
      else Review.public r → is_Some (emap !! review_id obj).

End attach_vocabulary.

Section attach_loop_vocabulary.
Context (ids : gmap Z review_ref) (emap : gmap Z nat) (cmap : gmap Z addr).
Context (objs : list join_row) (es0 : list entry).

(** The comments the rows [l] add to entry [i], and those they add to the
    comment at [t] as replies, in the order of [l]. *)
Definition attached_to (i : nat) (l : list (addr * join_row)) : list addr :=
  (filter (λ o : addr * join_row, owner_entry ids emap o.2 = Some i) l).*1.

Definition replies_of (t : addr) (l : list (addr * join_row)) : list addr :=
  (filter (λ o : addr * join_row, reply_target ids cmap o.2 = Some t) l).*1.

(** The entries and the comments once the second pass has been through the
    rows [l]. *)
Record attach_spec (l : list (addr * join_row))
    (st : list entry * comment_store) : Prop := AttachSpec {
  att_entries_length : length st.1 = length es0;
  att_entries :
    ∀ i e0, es0 !! i = Some e0 →
      ∃ e, st.1 !! i = Some e ∧ review e = review e0
           ∧ timestamp e = timestamp e0
           ∧ diff_comments e = diff_comments e0 ++ attached_to i l;
  att_comments_length : length st.2 = length objs;
  att_comments :
    ∀ t obj, objs !! t = Some obj →
      ∃ c, st.2 !! t = Some c ∧ Comment.columns c = comment obj
           ∧ Comment._replies c = replies_of t l
}.

End attach_loop_vocabulary.

(** What a reconstruction that returned is made of: the locals of the first
    loop, the entries as they were built, and what the two links and the
    second pass have made of the reviews, the entries and the comments. *)
Definition reconstruction_of (all_reviews : list Review.row)
    (through : list join_row) (scan : review_scan) (es : list entry)
    (emap : gmap Z nat) (rc : reconstruction) : Prop :=
  let ids := reviews_id_map scan in
  let objs := fetch_join_rows ids through in
  scan_reviews all_reviews = Ok scan
  ∧ scan_spec (enumerate all_reviews) scan
  ∧ build_entries (public_reviews scan) = (es, emap)
  ∧ (∀ k, is_Some (body_top_replies scan !! k)
          ∨ is_Some (body_bottom_replies scan !! k) → is_Some (ids !! k))
  ∧ (∀ a r, all_reviews !! a = Some r →
       ∃ o, reviews rc !! a = Some o ∧ Review.columns o = r
         ∧ (∀ l, ids !! Review.pk r = Some (a, r) →
                 body_top_replies scan !! Review.pk r = Some l →
                 Review._body_top_replies o = l)
         ∧ (ids !! Review.pk r ≠ Some (a, r)
            ∨ body_top_replies scan !! Review.pk r = None →
            Review._body_top_replies o = [])
         ∧ (∀ l, ids !! Review.pk r = Some (a, r) →
                 body_bottom_replies scan !! Review.pk r = Some l →
                 Review._body_bottom_replies o = l)
         ∧ (ids !! Review.pk r ≠ Some (a, r)
            ∨ body_bottom_replies scan !! Review.pk r = None →
            Review._body_bottom_replies o = []))
  ∧ length (reviews rc) = length all_reviews
  ∧ attach_spec ids emap (map_comments objs) objs es (enumerate objs)
      (entries rc, comments rc)
  ∧ (∀ obj, obj ∈ objs → row_ok ids emap (map_comments objs) obj).

(** The keys of the public reviews, and of those of them that are not
    replies. *)
Definition public_pks (all_reviews : list Review.row) : list Z :=
  Review.pk <$> filter (λ r, Review.public r) all_reviews.

Definition entry_pks (all_reviews : list Review.row) : list Z :=
  Review.pk
    <$> filter (λ r, Review.public r ∧ ¬ Review.is_reply r) all_reviews.

(** The rows the query returns: those of the public reviews. *)
Definition fetched (all_reviews : list Review.row) (through : list join_row)
  : list join_row :=
  filter (λ obj, review_id obj ∈ public_pks all_reviews) through.

(** The input the reconstruction returns on: the keys of the reviews are
    distinct; a public review replies to the body of public reviews only; a
    fetched row of a reply review has the base review of that review among
    the entries and, if its comment is a reply, the replied comment among the
    fetched comments. *)
Definition well_linked (all_reviews : list Review.row)
    (through : list join_row) : Prop :=
  NoDup (Review.pk <$> all_reviews)
  ∧ (∀ r k, r ∈ all_reviews → Review.public r →
       Review.body_top_reply_to_id r = Some k
       ∨ Review.body_bottom_reply_to_id r = Some k →
       k ∈ public_pks all_reviews)
  ∧ (∀ obj r, obj ∈ fetched all_reviews through → r ∈ all_reviews →
       Review.public r → Review.pk r = review_id obj → Review.is_reply r →
       (∃ p, Review.base_reply_to_id r = Some p ∧ p ∈ entry_pks all_reviews)
       ∧ (Comment.is_reply (comment obj) →
          ∃ t obj', Comment.reply_to_id (comment obj) = Some t
                    ∧ obj' ∈ fetched all_reviews through
                    ∧ Comment.pk (comment obj') = t)).

(** The review at address [a] is public. *)
Definition is_public_review (all_reviews : list Review.row) (a : addr) : Prop :=
  ∃ r, all_reviews !! a = Some r ∧ Review.public r.

(** The comment at address [a] is in the comment list of an entry or in the
    reply list of a comment. *)
Definition attached (rc : reconstruction) (a : addr) : Prop :=
  (∃ e, e ∈ entries rc ∧ a ∈ diff_comments e)
  ∨ (∃ c, c ∈ comments rc ∧ a ∈ Comment._replies c).

(** A reply to a comment, 99, that is not among the fetched comments; and a
    reply on a review whose base review, 5, is not among the entries. *)
Definition missing_target_reviews : list Review.row :=
  [ Review.Row 1 true None None None 100 "top" "";
    Review.Row 2 true (Some 1%Z) None None 101 "" "" ].

Definition missing_target_through : list join_row :=
  [ JoinRow 1 (Comment.Row 10 "why?" None);
    JoinRow 2 (Comment.Row 11 "lost" (Some 99%Z)) ].

Definition stray_base_reviews : list Review.row :=
  [ Review.Row 1 true None None None 100 "top" "";
    Review.Row 2 true (Some 5%Z) None None 101 "" "" ].

Definition stray_base_through : list join_row :=
  [ JoinRow 1 (Comment.Row 10 "why?" None);
    JoinRow 2 (Comment.Row 11 "because" (Some 10%Z)) ].

(** A public top-level review with one public reply that answers its bottom
    text only. *)
Definition lone_reply_reviews : list Review.row :=
  [ Review.Row 1 true None None None 100 "nice" "one nit";
    Review.Row 2 true (Some 1%Z) None (Some 1%Z) 101 "" "fixed" ].

(** The text of one body reply: its top text and its bottom text. *)
Definition reply_text (o : Review.t) : string :=
  Review.body_top (Review.columns o) +:+ nl
  +:+ Review.body_bottom (Review.columns o).

(** The comments [flatten_comment] goes through, in the order it reaches
    them: the comment, then what each of its replies gives, in turn. *)
Fixpoint preorder (depth : nat) (h : comment_store) (a : addr) : list addr :=
  match depth with
  | O => []
  | S d =>
      a :: match h !! a with
           | Some c => Comment._replies c ≫= preorder d h
           | None => []
           end
  end.

(** The text of the comment at an address. *)
Definition text_at (h : comment_store) (a : addr) : string :=
  match h !! a with
  | Some c => Comment.text (Comment.columns c)
  | None => ""
  end.

(** What [reply_timestamps] holds once the loop has been through the reviews
    [l]: under a key, the latest time stamp of the public replies to that
    review. *)
Definition latest_reply (l : list review_ref) (ts : gmap Z Z) : Prop :=
  ∀ k t, ts !! k = Some t →
    (∀ r : review_ref, r ∈ l → Review.public r.2 →
       Review.base_reply_to_id r.2 = Some k → (Review.timestamp r.2 ≤ t)%Z)
    ∧ ∃ r : review_ref, r ∈ l ∧ Review.public r.2
        ∧ Review.base_reply_to_id r.2 = Some k ∧ Review.timestamp r.2 = t.

(** [s] occurs in [t]. *)
Definition occurs_in (s t : string) : Prop := ∃ pre post, t = pre +:+ s +:+ post.

(** The keys of the public reviews that are replies. *)
Definition reply_pks (all_reviews : list Review.row) : list Z :=
  Review.pk
    <$> filter (λ r, Review.public r ∧ Review.is_reply r) all_reviews.

(** A host for the examples: the index is the list of its documents, the
    datetimes are numbers of seconds, and [int] reads decimal digits. *)
Fixpoint digits_value (acc : Z) (s : string) : option Z :=
  match s with
  | EmptyString => Some acc
  | String c s' =>
      d ← Ascii.is_nat c; digits_value (10 * acc + Z.of_nat d) s'
  end.

Definition list_host : Host := {|
  writer := list document;
  datetime := Z;
  IndexWriter := λ _ _ _, Ok [];
  deleteDocuments := list_delete;
  addDocument := list_add;
  optimize := λ w, (w, None);
  close := λ w, (w, None);
  isatty := true;
  depth := 100;
  int := λ s, if decide (s = "") then None else digits_value 0 s;
  utcfromtimestamp := Some;
  last_updated__gt := λ a b, bool_decide (b < a)%Z
|}.

(** A site with search enabled and lucene 3.x, at second 1000, with the
    sample request pending and the request that fails submitted. *)
Definition sample_environment : @environment list_host :=
  @Environment list_host true "/var/index" true false true 1000
    [ @StoredRequest list_host sample_request "P" 900%Z;
      @StoredRequest list_host bad_request "S" 600%Z;
      @StoredRequest list_host sample_request "D" 950%Z ].

(** * Properties of flatten_comment *)

Lemma for_each_app {A S} (body : S → A → result S) l1 l2 s :
  for_each body (l1 ++ l2) s = (s' ← for_each body l1 s ; for_each body l2 s').
Proof.
  revert s. induction l1 as [|x l1 IH]; intros s; simpl; [done|].
  destruct (body s x); simpl; auto.
Qed.

Lemma for_each_raise {A S} (body : S → A → result S) l x e s :
  x ∈ l →
  (∀ s', body s' x = Raise e) →
  (∀ s' y, y ∈ l → body s' y = Raise e ∨ ∃ s'', body s' y = Ok s'') →
  for_each body l s = Raise e.
Proof.
  intros Hx Hbad. revert s. induction l as [|y l IH]; intros s Hall.
  - by apply elem_of_nil in Hx.
  - simpl. destruct (Hall s y) as [Hy|[s'' Hy]]; [left|by rewrite Hy|].
    rewrite Hy. simpl. apply elem_of_cons in Hx as [->|Hx].
    + rewrite Hbad in Hy. discriminate.
    + apply IH; [done|]. intros s' z Hz. apply Hall. by right.
Qed.

Lemma flatten_comment_closed h a depth :
  closed h → is_Some (h !! a) →
  flatten_comment depth h a = Raise RecursionDepthExceeded
  ∨ ∃ s, flatten_comment depth h a = Ok s.
Proof.
  intros Hcl. revert a. induction depth as [|d IH]; intros a [c Hc]; [by left|].
  simpl. rewrite Hc.
  assert (∀ b, b ∈ Comment._replies c → is_Some (h !! b)) as Hsub
    by (intros b Hb; eapply Hcl; eauto).
  generalize (Comment.text (Comment.columns c)).
  induction (Comment._replies c) as [|r rs IHrs]; intros s; simpl; [eauto|].
  destruct (IH r) as [->|[t ->]]; [apply Hsub; left|by left|]. simpl.
  apply IHrs. intros b Hb. apply Hsub. by right.
Qed.

(** Where the replies have a rank that goes down along every reply edge,
    which is what it is for the store to have no cycle, the call returns a
    text once the depth exceeds the rank of the comment. *)
Lemma flatten_comment_ranked h (rank : addr → nat) :
  closed h →
  (∀ a c b, h !! a = Some c → b ∈ Comment._replies c → rank b < rank a) →
  ∀ depth a, is_Some (h !! a) → rank a < depth →
             ∃ s, flatten_comment depth h a = Ok s.
Proof.
  intros Hcl Hrank depth. induction depth as [|d IH]; intros a [c Hc] Hlt; [lia|].
  simpl. rewrite Hc.
  assert (∀ b, b ∈ Comment._replies c → ∃ s, flatten_comment d h b = Ok s)
    as Hreplies.
  { intros b Hb. apply IH; [by eapply Hcl|].
    pose proof (Hrank a c b Hc Hb). lia. }
  generalize (Comment.text (Comment.columns c)).
  induction (Comment._replies c) as [|b bs IHbs]; intros s; simpl; [by eexists|].
  destruct (Hreplies b) as [t ->]; [by left|]. simpl.
  apply IHbs. intros b' Hb'. apply Hreplies. by right.
Qed.

(** The recursion limit is no cycle check: it stops the traversal of a
    thread without a cycle just as well, when the thread is deeper than the
    depth that is left. *)
Example depth_limit_without_cycle :
  flatten_comment 1 thread 0 = Raise RecursionDepthExceeded
  ∧ flatten_comment 2 thread 0
    = Ok ("why?" +:+ nl +:+ "because" +:+ nl +:+ "thanks").
Proof. split; reflexivity. Qed.

Lemma has_cycle_step h a :
  has_cycle h a → ∃ b, reply_edge h a b ∧ has_cycle h b.
Proof.
  intros (b & Hab & Hbb). destruct Hab as [a|a a' b Hstep Hrest].
  - pose proof Hbb as Hloop. inversion Hbb as [? ? Hstep|? a' ? Hstep Hback]; subst.
    + exists a. split; [done|]. by exists a.
    + exists a'. split; [done|]. exists a. split; [by apply tc_rtc|done].
  - exists a'. split; [done|]. by exists b.
Qed.

Lemma two_cycle_closed : closed two_cycle.
Proof.
  intros a c b Ha Hb. unfold two_cycle in *.
  destruct a as [|[|a]]; simplify_eq/=;
    apply list_elem_of_singleton in Hb as ->; by eexists.
Qed.

Lemma two_cycle_has_cycle : has_cycle two_cycle 0.
Proof.
  exists 0. split; [done|].
  apply tc_l with 1; [|apply tc_once].
  - eexists. split; [done|]. by left.
  - eexists. split; [done|]. by left.
Qed.

Lemma two_cycle_exhausts depth :
  flatten_comment depth two_cycle 0 = Raise RecursionDepthExceeded
  ∧ flatten_comment depth two_cycle 1 = Raise RecursionDepthExceeded.
Proof.
  induction depth as [|d [IH0 IH1]]; [done|].
  split; simpl; [by rewrite IH1|by rewrite IH0].
Qed.

(** C1 (as stated, refuted): on the two-comment cycle no recursion depth is
    enough for [flatten_comment] to end by itself, be it with a text or with
    an error raised on the revisit. *)
Lemma flatten_comment_two_cycle_never_finishes : ¬ finishes two_cycle 0.
Proof. intros [depth Hd]. apply Hd. apply two_cycle_exhausts. Qed.

(** C1 (amended): [flatten_comment] keeps no record of the comments it has
    visited.  On a comment whose reply chain contains a cycle the recursion is
    still descending when the allowed depth runs out, whatever that depth is:
    the call never yields a text and never raises an error of its own, only the
    interpreter's recursion limit ends it. *)
Theorem flatten_comment_cycle_exhausts_depth (h : comment_store) (a : addr) :
  closed h → has_cycle h a →
  ∀ depth, flatten_comment depth h a = Raise RecursionDepthExceeded.
Proof.
  intros Hcl Hcyc depth. revert a Hcyc.
  induction depth as [|d IH]; intros a Hcyc; [done|].
  destruct (has_cycle_step h a Hcyc) as (b & (c & Hc & Hb) & Hcycb).
  simpl. rewrite Hc. apply for_each_raise with (x := b); [done|..].
  - intros s. by rewrite (IH b Hcycb).
  - intros s y Hy.
    destruct (flatten_comment_closed h y d Hcl) as [->|[t ->]];
      [by eapply Hcl|by left|right; by eexists].
Qed.

Lemma flatten_comment_cycle_exhausts_depth_witness :
  closed two_cycle ∧ has_cycle two_cycle 0
  ∧ flatten_comment 1000 two_cycle 0 = Raise RecursionDepthExceeded.
Proof.
  split; [apply two_cycle_closed|]. split; [apply two_cycle_has_cycle|].
  apply (flatten_comment_cycle_exhausts_depth two_cycle 0);
    [apply two_cycle_closed|apply two_cycle_has_cycle].
Defined.

Lemma string_app_assoc (s1 s2 s3 : string) :
  (s1 +:+ s2) +:+ s3 = s1 +:+ s2 +:+ s3.
Proof.
  induction s1 as [|c s1 IH]; [done|].
  change (String c ((s1 +:+ s2) +:+ s3) = String c (s1 +:+ s2 +:+ s3)).
  by rewrite IH.
Qed.

Lemma flatten_comment_leaf h a c depth :
  h !! a = Some c → Comment._replies c = [] →
  flatten_comment (S depth) h a = Ok (Comment.text (Comment.columns c)).
Proof. intros Ha Hc. simpl. by rewrite Ha, Hc. Qed.

(** C6: a comment with exactly the two direct replies R1 and R2, in that
    order, neither of which has replies, flattens to its text, a newline, the
    text of R1, a newline, the text of R2. *)
Theorem flatten_comment_two_replies
    (h : comment_store) (a r1 r2 : addr) (c c1 c2 : Comment.t) (depth : nat) :
  h !! a = Some c → Comment._replies c = [r1; r2] →
  h !! r1 = Some c1 → Comment._replies c1 = [] →
  h !! r2 = Some c2 → Comment._replies c2 = [] →
  flatten_comment (S (S depth)) h a
  = Ok (Comment.text (Comment.columns c) +:+ nl
        +:+ Comment.text (Comment.columns c1) +:+ nl
        +:+ Comment.text (Comment.columns c2)).
Proof.
  intros Ha Hc H1 Hc1 H2 Hc2.
  change (flatten_comment (S (S depth)) h a) with
    (match h !! a with
     | None => Raise BadRef
     | Some c =>
         for_each
           (λ text reply,
              r ← flatten_comment (S depth) h reply; Ok (text +:+ nl +:+ r))
           (Comment._replies c) (Comment.text (Comment.columns c))
     end).
  rewrite Ha, Hc. cbn [for_each].
  rewrite (flatten_comment_leaf h r1 c1 depth H1 Hc1).
  rewrite (flatten_comment_leaf h r2 c2 depth H2 Hc2).
  cbn [mbind result_bind]. by rewrite string_app_assoc.
Qed.

Lemma flatten_comment_two_replies_witness :
  flatten_comment 2 thread 0 = Ok ("why?" +:+ nl +:+ "because" +:+ nl +:+ "thanks").
Proof.
  apply (flatten_comment_two_replies thread 0 1 2 _ _ _ 0
           eq_refl eq_refl eq_refl eq_refl eq_refl eq_refl).
Defined.

(** ** The bug field *)

Lemma split_nonempty sep s : split sep s ≠ [].
Proof.
  destruct s as [|c s]; simpl; [done|].
  case_decide; [done|]. by destruct (split sep s).
Qed.

Lemma join_cons sep x y l : join sep (x :: y :: l) = x +:+ sep +:+ join sep (y :: l).
Proof. done. Qed.

Lemma bugs_field_replace_commas s : bugs_field s = replace_commas s.
Proof.
  unfold bugs_field. induction s as [|c s IH]; [done|].
  cbn [split replace_commas]. case_decide as Hc.
  - pose proof (split_nonempty ","%char s) as Hne.
    destruct (split ","%char s) as [|w ws] eqn:Hs; [done|].
    rewrite join_cons, IH. done.
  - pose proof (split_nonempty ","%char s) as Hne.
    destruct (split ","%char s) as [|w ws] eqn:Hs; [done|].
    rewrite <-IH. destruct ws as [|w' ws]; [done|].
    by rewrite !join_cons.
Qed.

(** ** The document of a review request *)

Lemma build_document_inv depth request doc :
  build_document depth request = Ok doc →
  ∃ comment_text, doc = document_of request comment_text.
Proof.
  unfold build_document, document_of.
  destruct (get_all_review_comments _ _) as [rc|e]; [|done]. cbn [mbind result_bind].
  destruct (for_each _ _ _) as [ct|e]; [|done]. cbn [mbind result_bind].
  intros [= <-]. exists ct.
  destruct (truthy _); by rewrite <-?app_assoc.
Qed.

Lemma field_values_document_of request ct :
  field_values "bug" (document_of request ct)
    = [bugs_field (ReviewRequest.bugs_closed request)]
  ∧ field_values "file" (document_of request ct)
    = [aggregate_files (collect_files (ReviewRequest.diffset_history request))]
  ∧ field_values "changenum" (document_of request ct)
    = (if truthy (ReviewRequest.changenum request)
       then [unicode (ReviewRequest.changenum request)] else [])
  ∧ field_values "text" (document_of request ct)
    = [join nl [ReviewRequest.summary request;
                ReviewRequest.description request;
                unicode (ReviewRequest.changenum request);
                ReviewRequest.testing_done request;
                bugs_field (ReviewRequest.bugs_closed request);
                join " " [username (ReviewRequest.submitter request);
                          full_name (ReviewRequest.submitter request)];
                ct;
                aggregate_files
                  (collect_files (ReviewRequest.diffset_history request))]].
Proof.
  unfold document_of, field_values. destruct (truthy _); repeat split; reflexivity.
Qed.

Lemma sample_request_builds :
  ∃ doc, build_document 100 sample_request = Ok doc.
Proof. eexists. vm_compute. reflexivity. Qed.

(** C7: the bug field of the document is the bug list of the request with
    every comma replaced by a space; the bug list 123,456 gives 123 456. *)
Theorem bug_field_replaces_commas
    (depth : nat) (request : ReviewRequest.t) (doc : document) :
  build_document depth request = Ok doc →
  field_values "bug" doc = [replace_commas (ReviewRequest.bugs_closed request)]
  ∧ (ReviewRequest.bugs_closed request = "123,456" →
     field_values "bug" doc = ["123 456"]).
Proof.
  intros Hdoc. apply build_document_inv in Hdoc as [ct ->].
  destruct (field_values_document_of request ct) as (-> & _).
  rewrite bugs_field_replace_commas. split; [done|]. by intros ->.
Qed.

Lemma bug_field_replaces_commas_witness :
  ∃ doc, build_document 100 sample_request = Ok doc
         ∧ field_values "bug" doc = ["123 456"].
Proof.
  destruct sample_request_builds as [doc Hdoc]. exists doc. split; [done|].
  apply (bug_field_replaces_commas 100 sample_request doc Hdoc). reflexivity.
Defined.

Lemma elem_of_filediff_paths fd p :
  p ∈ filediff_paths fd
  ↔ p ≠ "" ∧ (FileDiff.source_file fd = p ∨ FileDiff.dest_file fd = p).
Proof.
  unfold filediff_paths. rewrite elem_of_app.
  repeat case_decide; rewrite ?elem_of_nil, ?list_elem_of_singleton;
    naive_solver.
Qed.

Lemma elem_of_collect_files request p :
  p ∈ collect_files (ReviewRequest.diffset_history request)
  ↔ p ≠ "" ∧ touches request p.
Proof.
  unfold collect_files, touches.
  destruct (ReviewRequest.diffset_history request) as [dss|].
  - rewrite list_elem_of_bind. setoid_rewrite list_elem_of_bind.
    setoid_rewrite elem_of_filediff_paths. naive_solver.
  - rewrite elem_of_nil. naive_solver.
Qed.

(** C8: the file field is the newline-joined list of the paths the request
    touches, source and destination, over all diff sets of its history (an
    empty path stands for no path); no path is listed twice, in how many
    diff sets it may occur. *)
Theorem file_field_deduplicated
    (depth : nat) (request : ReviewRequest.t) (doc : document) :
  build_document depth request = Ok doc →
  ∃ paths, field_values "file" doc = [join nl paths]
           ∧ NoDup paths
           ∧ ∀ p, p ∈ paths ↔ p ≠ "" ∧ touches request p.
Proof.
  intros Hdoc. apply build_document_inv in Hdoc as [ct ->].
  destruct (field_values_document_of request ct) as (_ & -> & _).
  eexists. split; [done|]. split; [apply NoDup_elements|].
  intros p. by rewrite elem_of_elements, elem_of_list_to_set,
    elem_of_collect_files.
Qed.

Lemma file_field_deduplicated_witness :
  ∃ doc paths, build_document 100 sample_request = Ok doc
               ∧ field_values "file" doc = [join nl paths]
               ∧ NoDup paths
               ∧ ∀ p, p ∈ paths ↔ p ≠ "" ∧ touches sample_request p.
Proof.
  destruct sample_request_builds as [doc Hdoc]. exists doc.
  destruct (file_field_deduplicated 100 sample_request doc Hdoc)
    as (paths & ? & ? & ?).
  by exists paths.
Defined.

(** C10: the text field holds the string form of the change number, between
    the description and the testing notes, whatever the change number is
    ("None" for a null one, "0" for zero); the changenum field is in the
    document exactly when the change number is neither null nor zero. *)
Theorem text_field_has_changenum
    (depth : nat) (request : ReviewRequest.t) (doc : document) :
  build_document depth request = Ok doc →
  (∃ rest,
     field_values "text" doc
     = [ReviewRequest.summary request +:+ nl
        +:+ ReviewRequest.description request +:+ nl
        +:+ unicode (ReviewRequest.changenum request) +:+ nl
        +:+ ReviewRequest.testing_done request +:+ nl +:+ rest])
  ∧ unicode None = "None" ∧ unicode (Some 0%Z) = "0"
  ∧ (field_values "changenum" doc = []
     ↔ ReviewRequest.changenum request = None
       ∨ ReviewRequest.changenum request = Some 0%Z)
  ∧ (field_values "changenum" doc ≠ [] →
     field_values "changenum" doc = [unicode (ReviewRequest.changenum request)]).
Proof.
  intros Hdoc. apply build_document_inv in Hdoc as [ct ->].
  destruct (field_values_document_of request ct) as (_ & _ & -> & ->).
  split; [by eexists|]. split; [done|]. split; [done|].
  destruct (ReviewRequest.changenum request) as [n|]; simpl.
  - case_bool_decide as Hn; split.
    + split; [done|]. intros [?|[= ?]]; done.
    + done.
    + subst n. split; auto.
    + done.
  - split; [|done]. split; auto.
Qed.

Lemma text_field_has_changenum_witness :
  ∃ doc, build_document 100 sample_request = Ok doc
         ∧ field_values "changenum" doc = []
         ∧ ∃ rest, field_values "text" doc
                   = ["Fix crash" +:+ nl +:+ "Null check" +:+ nl +:+ "0" +:+ nl
                      +:+ "ran the tests" +:+ nl +:+ rest].
Proof.
  destruct sample_request_builds as [doc Hdoc]. exists doc. split; [done|].
  destruct (text_field_has_changenum 100 sample_request doc Hdoc)
    as ([rest Htext] & _ & _ & Hnone & _).
  split; [apply Hnone; by right|]. by exists rest.
Defined.

(** ** The batch loop *)

Section BackendProperties.
Context `{Host}.

Lemma write_progress_stderr totalobjs (st : run writer) :
  stderr writer (write_progress totalobjs st).1 = stderr writer st.
Proof.
  unfold write_progress. destruct isatty; [|done].
  repeat case_decide; done.
Qed.

Lemma try_request_stderr incremental totalobjs (st : run writer) request :
  stderr writer (try_request incremental totalobjs st request).1
  = stderr writer st.
Proof.
  unfold try_request.
  destruct (if incremental then _ else _) as [w [e|]]; [done|].
  destruct (index_review_request _ _ _ _ _) as [w' [e|]]; [done|].
  by rewrite write_progress_stderr.
Qed.

(** One turn of the loop is the body of the [try], and the [except] clause
    for what it raises. *)
Lemma index_request_try incremental totalobjs (st : run writer) request :
  index_request incremental totalobjs st request
  = match try_request incremental totalobjs st request with
    | (st', None) => st'
    | (st', Some e) => log_error writer request e st'
    end.
Proof.
  unfold index_request, try_request.
  destruct (if incremental then _ else _) as [w [e|]]; [done|].
  destruct (index_review_request _ _ _ _ _) as [w' [e|]]; [done|].
  by destruct (write_progress _ _) as [st' [e|]].
Qed.

Lemma index_request_stderr incremental totalobjs (st : run writer) request :
  stderr writer st `prefix_of`
    stderr writer (index_request incremental totalobjs st request).
Proof.
  rewrite index_request_try.
  pose proof (try_request_stderr incremental totalobjs st request) as Hst.
  destruct (try_request incremental totalobjs st request) as [st' [e|]];
    simpl in *; rewrite <-Hst; [by apply prefix_app_r|done].
Qed.

Lemma index_requests_stderr incremental totalobjs requests (st : run writer) :
  stderr writer st `prefix_of`
    stderr writer (index_requests incremental totalobjs requests st).
Proof.
  revert st. induction requests as [|r requests IH]; intros st; [done|].
  simpl. etrans; [apply index_request_stderr|apply IH].
Qed.

(** C9: when indexing one request of the batch raises an exception, the
    exception is caught, a line with the id of the request and the message
    of the exception is written to the error stream, and the loop goes on
    with the requests that follow. *)
Theorem failing_request_is_logged_and_skipped
    (incremental : bool) (totalobjs : Z)
    (before after : list ReviewRequest.t) (request : ReviewRequest.t)
    (st st' : run writer) (e : exn) :
  try_request incremental totalobjs
    (index_requests incremental totalobjs before st) request = (st', Some e) →
  index_requests incremental totalobjs (before ++ request :: after) st
  = index_requests incremental totalobjs after
      (log_error writer request e st')
  ∧ ("Error indexing ReviewRequest #" +:+ pretty (ReviewRequest.id request)
     +:+ ": " +:+ exn_message e +:+ nl)
    ∈ stderr writer
        (index_requests incremental totalobjs (before ++ request :: after) st).
Proof.
  intros Htry.
  assert (index_requests incremental totalobjs (before ++ request :: after) st
          = index_requests incremental totalobjs after
              (log_error writer request e st')) as Heq.
  { unfold index_requests. rewrite foldl_app. simpl.
    rewrite index_request_try.
    unfold index_requests in Htry. by rewrite Htry. }
  split; [done|]. rewrite Heq.
  eapply elem_of_prefix; [|apply index_requests_stderr].
  simpl. apply elem_of_app. right. by left.
Qed.
End BackendProperties.

Lemma failing_request_is_logged_and_skipped_witness :
  ∃ st',
    @try_request list_host true 2 start bad_request
    = (st', Some (KeyError (Some 9%Z)))
    ∧ @index_requests list_host true 2 [bad_request; sample_request] start
      = @index_requests list_host true 2 [sample_request]
          (log_error (list document) bad_request (KeyError (Some 9%Z)) st')
    ∧ ("Error indexing ReviewRequest #7: 9" +:+ nl)
      ∈ stderr (list document)
          (@index_requests list_host true 2 [bad_request; sample_request]
             start).
Proof.
  eexists. split; [vm_compute; reflexivity|].
  apply (@failing_request_is_logged_and_skipped list_host true 2 []
           [sample_request] bad_request start).
  vm_compute. reflexivity.
Defined.

(** * The reconstruction *)

(** ** Loops *)

Lemma for_each_snoc {A S} (body : S → A → result S) l x s :
  for_each body (l ++ [x]) s = (s' ← for_each body l s; body s' x).
Proof.
  rewrite for_each_app. destruct (for_each body l s) as [s'|e]; simpl; [|done].
  by destruct (body s' x).
Qed.

(** An invariant that follows the part of the list the loop has been
    through, for a loop that ends without an exception. *)
Lemma for_each_ind {A S} (P : list A → S → Prop) (body : S → A → result S) l s s' :
  P [] s →
  (∀ l1 x l2 s1 s2,
     l = l1 ++ x :: l2 → P l1 s1 → body s1 x = Ok s2 → P (l1 ++ [x]) s2) →
  for_each body l s = Ok s' → P l s'.
Proof.
  intros Hnil Hstep. revert s'.
  induction l as [|x l IH] using rev_ind; intros s'.
  - by intros [= <-].
  - rewrite for_each_snoc. destruct (for_each body l s) as [s1|e] eqn:Hl; [|done].
    simpl. intros Hx. eapply (Hstep l x []); [done| |done].
    apply IH; [|done]. intros l1 y l2 t1 t2 ->. apply (Hstep l1 y (l2 ++ [x])).
    by rewrite <-app_assoc.
Qed.

(** The same for a loop whose turns cannot raise while the invariant
    holds: the loop ends, and the invariant holds at the end. *)
Lemma for_each_total {A S} (P : list A → S → Prop) (body : S → A → result S) l s :
  P [] s →
  (∀ l1 x l2 s1,
     l = l1 ++ x :: l2 → P l1 s1 → ∃ s2, body s1 x = Ok s2 ∧ P (l1 ++ [x]) s2) →
  ∃ s', for_each body l s = Ok s' ∧ P l s'.
Proof.
  intros Hnil Hstep. induction l as [|x l IH] using rev_ind; [by exists s|].
  destruct IH as (s1 & Hl & HP).
  { intros l1 y l2 t1 ->. apply (Hstep l1 y (l2 ++ [x])). by rewrite <-app_assoc. }
  destruct (Hstep l x [] s1 eq_refl HP) as (s2 & Hx & HP2).
  exists s2. by rewrite for_each_snoc, Hl.
Qed.

(** Every turn of a loop that ends without an exception ended without
    one. *)
Lemma for_each_turn {A S} (body : S → A → result S) l1 x l2 s s' :
  for_each body (l1 ++ x :: l2) s = Ok s' →
  ∃ s1 s2, for_each body l1 s = Ok s1 ∧ body s1 x = Ok s2
           ∧ for_each body l2 s2 = Ok s'.
Proof.
  rewrite for_each_app. destruct (for_each body l1 s) as [s1|e]; [|done].
  simpl. destruct (body s1 x) as [s2|e] eqn:Hx; [|done]. simpl. eauto.
Qed.

Lemma enumerate_snoc {A} (l : list A) x :
  enumerate (l ++ [x]) = enumerate l ++ [(length l, x)].
Proof. unfold enumerate. rewrite imap_app. simpl. by rewrite Nat.add_0_r. Qed.

Lemma enumerate_lookup {A} (l : list A) i a x :
  enumerate l !! i = Some (a, x) ↔ a = i ∧ l !! i = Some x.
Proof.
  unfold enumerate. rewrite list_lookup_imap.
  destruct (l !! i); simpl; naive_solver.
Qed.

Lemma elem_of_enumerate {A} (l : list A) a x :
  (a, x) ∈ enumerate l ↔ l !! a = Some x.
Proof.
  rewrite list_elem_of_lookup. setoid_rewrite enumerate_lookup. naive_solver.
Qed.

Lemma enumerate_split {A} (l : list A) l1 a x l2 :
  enumerate l = l1 ++ (a, x) :: l2 →
  a = length l1 ∧ l !! a = Some x
  ∧ l1 = enumerate (take a l) ∧ length l1 ≤ length l.
Proof.
  intros Heq.
  assert (enumerate l !! length l1 = Some (a, x)) as Hl
    by (rewrite Heq; apply list_lookup_middle; done).
  apply enumerate_lookup in Hl as [-> Hx]. split; [done|]. split; [done|].
  split.
  - apply list_eq. intros i. unfold enumerate. rewrite list_lookup_imap.
    destruct (decide (i < length l1)) as [Hi|Hi].
    + rewrite lookup_take_lt by done.
      assert (enumerate l !! i = l1 !! i) as <-
        by (rewrite Heq; by apply lookup_app_l).
      unfold enumerate. by rewrite list_lookup_imap.
    + rewrite lookup_ge_None_2 by lia.
      rewrite lookup_take_ge by lia. done.
  - apply lookup_lt_Some in Hx. lia.
Qed.

(** ** The loop over the reviews *)

Lemma repliers_snoc sel k l a (r : Review.row) :
  repliers sel k (l ++ [(a, r)])
  = repliers sel k l
    ++ (if decide (Review.public r ∧ sel r = Some k) then [a] else []).
Proof.
  unfold repliers. rewrite filter_app, fmap_app. f_equal.
  rewrite filter_singleton; [|exact []]. simpl. by case_decide.
Qed.

Lemma nonempty_snoc {A} (l : list A) x :
  nonempty (l ++ [x]) = Some (l ++ [x]).
Proof. by destruct l. Qed.

Lemma add_reply_lookup k x d k' :
  add_reply k x d !! k'
  = if decide (k = k') then Some (default [] (d !! k) ++ [x]) else d !! k'.
Proof.
  unfold add_reply. case_decide as Hk.
  - subst k'. destruct (d !! k); by rewrite lookup_insert_eq.
  - destruct (d !! k); by rewrite lookup_insert_ne.
Qed.

Lemma nonempty_default {A} (l : list A) : default [] (nonempty l) = l.
Proof. by destruct l. Qed.

Lemma add_body_reply_spec sel l a (r : Review.row) d :
  Review.public r →
  (∀ k, d !! k = nonempty (repliers sel k l)) →
  ∀ k, add_body_reply (sel r) a d !! k = nonempty (repliers sel k (l ++ [(a, r)])).
Proof.
  intros Hpub Hd k. rewrite repliers_snoc. unfold add_body_reply.
  destruct (sel r) as [k0|] eqn:Hsel.
  - rewrite add_reply_lookup. destruct (decide (k0 = k)) as [->|Hne].
    + rewrite decide_True by done.
      by rewrite nonempty_snoc, Hd, nonempty_default.
    + rewrite decide_False by naive_solver. by rewrite app_nil_r.
  - rewrite decide_False by naive_solver. by rewrite app_nil_r.
Qed.

Lemma note_reply_spec l a (r : Review.row) p rs ts :
  Review.public r → Review.base_reply_to_id r = Some p →
  (∀ k, rs !! k = nonempty (repliers Review.base_reply_to_id k l)) →
  (∀ k, is_Some (ts !! k) ↔ is_Some (rs !! k)) →
  ∃ rs' ts',
    note_reply p a (Review.timestamp r) (rs, ts) = Ok (rs', ts')
    ∧ (∀ k, rs' !! k
            = nonempty (repliers Review.base_reply_to_id k (l ++ [(a, r)])))
    ∧ (∀ k, is_Some (ts' !! k) ↔ is_Some (rs' !! k)).
Proof.
  intros Hpub Hbase Hrs Hts. unfold note_reply. simpl.
  assert (∀ (new : list addr) (t : Z),
            new = default [] (rs !! p) ++ [a] →
            (∀ k, <[p:=new]> rs !! k
                  = nonempty (repliers Review.base_reply_to_id k (l ++ [(a, r)])))
            ∧ (∀ k, is_Some (<[p:=t]> ts !! k) ↔ is_Some (<[p:=new]> rs !! k)))
    as Hins.
  { intros new t ->. split; intros k.
    - rewrite repliers_snoc. destruct (decide (p = k)) as [->|Hne].
      + rewrite lookup_insert_eq, decide_True by done.
        by rewrite nonempty_snoc, Hrs, nonempty_default.
      + rewrite lookup_insert_ne by done.
        rewrite decide_False by naive_solver. by rewrite app_nil_r.
    - destruct (decide (p = k)) as [->|Hne].
      + rewrite !lookup_insert_eq. split; eauto.
      + by rewrite !lookup_insert_ne. }
  destruct (rs !! p) as [old|] eqn:Hp.
  - destruct (proj2 (Hts p)) as [t0 Ht0]; [by rewrite Hp|].
    unfold getitem. simpl. rewrite Ht0. simpl.
    do 2 eexists. split; [done|]. by apply Hins.
  - do 2 eexists. split; [done|]. by apply Hins.
Qed.

Lemma filter_snoc {A} (P : A → Prop) `{!∀ x, Decision (P x)} (l : list A) x :
  filter P (l ++ [x]) = filter P l ++ (if decide (P x) then [x] else []).
Proof. by rewrite filter_app. Qed.

Lemma scan_review_spec l (scan : review_scan) (r : review_ref) :
  scan_spec l scan →
  ∃ scan', scan_review scan r = Ok scan' ∧ scan_spec (l ++ [r]) scan'.
Proof.
  intros [Hpub Hrs Hts Htop Hbot Hids]. destruct r as [a r].
  unfold scan_review. destruct (Review.public r) eqn:Hp.
  - assert (Review.public r) as Hp' by (by rewrite Hp).
    assert (∃ rs' ts',
              match Review.base_reply_to_id r with
              | Some parent_id =>
                  note_reply parent_id a (Review.timestamp r)
                    (replies scan, reply_timestamps scan)
              | None => Ok (replies scan, reply_timestamps scan)
              end = Ok (rs', ts')
              ∧ (∀ k, rs' !! k
                      = nonempty (repliers Review.base_reply_to_id k (l ++ [(a, r)])))
              ∧ (∀ k, is_Some (ts' !! k) ↔ is_Some (rs' !! k)))
      as (rs' & ts' & -> & Hrs' & Hts').
    { destruct (Review.base_reply_to_id r) as [p|] eqn:Hbase.
      - by apply note_reply_spec.
      - do 2 eexists. split; [done|]. split; [|done].
        intros k. rewrite repliers_snoc, decide_False, app_nil_r; [done|].
        rewrite Hbase. naive_solver. }
    simpl. eexists. split; [done|]. split; simpl.
    + rewrite filter_snoc, Hpub. simpl. by rewrite decide_True.
    + done.
    + done.
    + by apply add_body_reply_spec.
    + by apply add_body_reply_spec.
    + intros k. rewrite filter_snoc. simpl.
      destruct (decide (Review.pk r = k)) as [<-|Hne].
      * rewrite decide_True by done. by rewrite last_snoc, lookup_insert_eq.
      * rewrite decide_False, app_nil_r by naive_solver.
        by rewrite lookup_insert_ne.
  - assert (¬ Review.public r) as Hp' by (rewrite Hp; intros []).
    exists scan. split; [done|].
    split; intros; rewrite ?repliers_snoc, ?filter_snoc; simpl;
      rewrite ?decide_False, ?app_nil_r by naive_solver; done.
Qed.

Lemma scan_reviews_spec (all_reviews : list Review.row) :
  ∃ scan, scan_reviews all_reviews = Ok scan
          ∧ scan_spec (enumerate all_reviews) scan.
Proof.
  unfold scan_reviews. apply for_each_total.
  - split; intros; simpl; rewrite ?lookup_empty; done.
  - intros l1 x l2 s1 _ Hs1. by apply scan_review_spec.
Qed.

Lemma scan_ids_lookup (all_reviews : list Review.row) scan k a r :
  scan_spec (enumerate all_reviews) scan →
  reviews_id_map scan !! k = Some (a, r) →
  all_reviews !! a = Some r ∧ Review.public r ∧ Review.pk r = k.
Proof.
  intros Hspec. rewrite (spec_ids _ _ Hspec). intros Hlast.
  apply last_Some_elem_of, list_elem_of_filter in Hlast as [[??] Hin].
  by apply elem_of_enumerate in Hin.
Qed.

Lemma scan_ids_is_Some (all_reviews : list Review.row) scan a r :
  scan_spec (enumerate all_reviews) scan →
  all_reviews !! a = Some r → Review.public r →
  is_Some (reviews_id_map scan !! Review.pk r).
Proof.
  intros Hspec Ha Hpub. rewrite (spec_ids _ _ Hspec).
  destruct (last _) as [x|] eqn:Hlast; [by eexists|].
  apply last_None in Hlast. exfalso.
  eapply (filter_nil_not_elem_of _ _ (a, r)); [exact Hlast|done|].
  by apply elem_of_enumerate.
Qed.

Lemma scan_ids_unique (all_reviews : list Review.row) scan a r :
  scan_spec (enumerate all_reviews) scan →
  NoDup (Review.pk <$> all_reviews) →
  all_reviews !! a = Some r → Review.public r →
  reviews_id_map scan !! Review.pk r = Some (a, r).
Proof.
  intros Hspec Hnd Ha Hpub.
  destruct (scan_ids_is_Some all_reviews scan a r Hspec Ha Hpub) as [[a' r'] Hk].
  destruct (scan_ids_lookup all_reviews scan _ a' r' Hspec Hk) as (Ha' & _ & Hpk).
  assert (a' = a) as ->.
  { apply (NoDup_lookup _ a' a (Review.pk r) Hnd); rewrite list_lookup_fmap.
    - rewrite Ha'. simpl. by rewrite Hpk.
    - by rewrite Ha. }
  by simplify_eq.
Qed.

Lemma elem_of_repliers sel k (all_reviews : list Review.row) a :
  a ∈ repliers sel k (enumerate all_reviews)
  ↔ ∃ r, all_reviews !! a = Some r ∧ Review.public r ∧ sel r = Some k.
Proof.
  unfold repliers. rewrite list_elem_of_fmap. split.
  - intros ([a' r] & -> & Hin). apply list_elem_of_filter in Hin as [[??] Hin].
    apply elem_of_enumerate in Hin. by exists r.
  - intros (r & Ha & Hpub & Hsel). exists (a, r). split; [done|].
    apply list_elem_of_filter. split; [done|]. by apply elem_of_enumerate.
Qed.

Lemma nonempty_Some {A} (l l' : list A) : nonempty l = Some l' → l' = l.
Proof. destruct l; naive_solver. Qed.

(** ** The entries *)

Lemma build_entries_spec (l : list review_ref) :
  (build_entries l).1 = new_entry <$> filter top_level l
  ∧ (∀ k i, (build_entries l).2 !! k = Some i →
            ∃ r, filter top_level l !! i = Some r ∧ Review.pk r.2 = k)
  ∧ (∀ r, r ∈ filter top_level l → is_Some ((build_entries l).2 !! Review.pk r.2)).
Proof.
  unfold build_entries. induction l as [|x l (IH1 & IH2 & IH3)] using rev_ind.
  - simpl. split; [done|]. split; [by intros ?? ?%lookup_empty_Some|].
    by intros ? ?%elem_of_nil.
  - rewrite foldl_app, filter_snoc. simpl.
    destruct (foldl add_entry ([], ∅) l) as [es em]. simpl in *.
    destruct x as [a r]. unfold add_entry. simpl.
    destruct (decide (top_level (a, r))) as [Htop|Htop];
      unfold top_level in Htop; simpl in Htop;
      destruct (Review.is_reply r); simpl in *;
      try (exfalso; apply Htop; first [exact I|by intros []]).
    + rewrite fmap_app. simpl. split; [by rewrite IH1|]. split.
      * intros k i. destruct (decide (Review.pk r = k)) as [<-|Hne].
        -- rewrite lookup_insert_eq. intros [= <-]. exists (a, r).
           split; [|done]. rewrite IH1, length_fmap.
           by apply list_lookup_middle.
        -- rewrite lookup_insert_ne by done. intros Hi.
           destruct (IH2 k i Hi) as (r' & Hr' & Hk). exists r'.
           split; [|done]. by apply lookup_app_l_Some.
      * intros r' [Hin| ->%list_elem_of_singleton]%elem_of_app.
        -- destruct (decide (Review.pk r = Review.pk r'.2)) as [->|Hne].
           ++ by rewrite lookup_insert_eq.
           ++ rewrite lookup_insert_ne by done. by apply IH3.
        -- simpl. by rewrite lookup_insert_eq.
    + by rewrite !app_nil_r.
Qed.

(** ** Linking the body replies *)

Lemma getitem_Some {V} (d : gmap Z V) k v :
  getitem d (Some k) = Ok v ↔ d !! k = Some v.
Proof. unfold getitem. simpl. destruct (d !! k); naive_solver. Qed.

Lemma getitem_Ok {V} (d : gmap Z V) k v :
  getitem d k = Ok v → ∃ k', k = Some k' ∧ d !! k' = Some v.
Proof.
  destruct k as [k|]; [|done]. intros ?%getitem_Some. by exists k.
Qed.

Section link.
Context (setter : list addr → Review.t → Review.t) (ids : gmap Z review_ref).
Hypothesis ids_inj :
  ∀ k k' a r r', ids !! k = Some (a, r) → ids !! k' = Some (a, r') → k = k'.

Local Abbreviation link_turn :=
  (λ (store : list Review.t) (kv : Z * list addr),
     target ← getitem ids (Some kv.1);
     Ok (alter (setter kv.2) target.1 store)).

Lemma link_loop_spec (kvs : list (Z * list addr)) store store' :
  NoDup kvs.*1 →
  for_each link_turn kvs store = Ok store' →
  length store' = length store
  ∧ (∀ k l a r o, (k, l) ∈ kvs → ids !! k = Some (a, r) →
                  store !! a = Some o → store' !! a = Some (setter l o))
  ∧ (∀ a o, store !! a = Some o →
            (∀ k l r, (k, l) ∈ kvs → ids !! k ≠ Some (a, r)) →
            store' !! a = Some o).
Proof.
  revert store. induction kvs as [|[k0 l0] kvs IH]; intros store Hnd.
  - intros [= <-]. split; [done|]. split; [|done].
    by intros ????? ?%elem_of_nil.
  - rewrite fmap_cons in Hnd. apply NoDup_cons in Hnd as [Hk0 Hnd].
    cbn [for_each fst snd] in *.
    destruct (getitem ids (Some k0)) as [[a0 r0]|e] eqn:Hget; [|done].
    apply getitem_Some in Hget. cbn [mbind result_bind fst snd]. intros Hrest.
    destruct (IH _ Hnd Hrest) as (Hlen & Hset & Hkeep).
    split; [by rewrite Hlen, length_alter|]. split.
    + intros k l a r o [[= -> ->]|Hin]%elem_of_cons Hk Ha.
      * assert (a0 = a) as -> by congruence. apply Hkeep.
        -- by rewrite list_lookup_alter_eq, Ha.
        -- intros k' l' r' Hin Hk'. apply Hk0.
           rewrite (ids_inj _ _ _ _ _ Hget Hk').
           apply list_elem_of_fmap. by exists (k', l').
      * apply (Hset k l a r); [done..|].
        rewrite list_lookup_alter_ne; [done|]. intros ->.
        apply Hk0. rewrite (ids_inj _ _ _ _ _ Hget Hk).
        apply list_elem_of_fmap. by exists (k, l).
    + intros a o Ha Hnone. apply Hkeep.
      * rewrite list_lookup_alter_ne; [done|]. intros ->.
        apply (Hnone k0 l0 r0); [by left|done].
      * intros k l r Hin. apply (Hnone k l r). by right.
Qed.

Lemma link_loop_total (kvs : list (Z * list addr)) store :
  (∀ k l, (k, l) ∈ kvs → is_Some (ids !! k)) →
  ∃ store', for_each link_turn kvs store = Ok store'.
Proof.
  revert store. induction kvs as [|[k0 l0] kvs IH]; intros store Hall.
  - by eexists.
  - simpl. destruct (Hall k0 l0) as [[a0 r0] Hk0]; [by left|].
    apply getitem_Some in Hk0. rewrite Hk0. simpl.
    apply IH. intros k l Hin. apply (Hall k l). by right.
Qed.

Lemma link_replies_spec (reply_list : gmap Z (list addr)) store store' :
  link_replies setter ids reply_list store = Ok store' →
  length store' = length store
  ∧ (∀ k l a r o, reply_list !! k = Some l → ids !! k = Some (a, r) →
                  store !! a = Some o → store' !! a = Some (setter l o))
  ∧ (∀ a o, store !! a = Some o →
            (∀ k l r, reply_list !! k = Some l → ids !! k ≠ Some (a, r)) →
            store' !! a = Some o).
Proof.
  intros Hlink. apply link_loop_spec in Hlink as (Hlen & Hset & Hkeep);
    [|apply NoDup_fst_map_to_list].
  split; [done|]. split.
  - intros k l a r o Hk. apply Hset. by apply elem_of_map_to_list.
  - intros a o Ha Hnone. apply Hkeep; [done|].
    intros k l r Hin%elem_of_map_to_list. by apply (Hnone k l r).
Qed.

Lemma link_replies_total (reply_list : gmap Z (list addr)) store :
  (∀ k, is_Some (reply_list !! k) → is_Some (ids !! k)) →
  ∃ store', link_replies setter ids reply_list store = Ok store'.
Proof.
  intros Hall. apply link_loop_total.
  intros k l Hin%elem_of_map_to_list. apply Hall. by eexists.
Qed.

Lemma link_replies_Ok_keys (reply_list : gmap Z (list addr)) store store' k :
  link_replies setter ids reply_list store = Ok store' →
  is_Some (reply_list !! k) → is_Some (ids !! k).
Proof.
  intros Hlink [l Hk]. apply elem_of_map_to_list in Hk.
  apply list_elem_of_split in Hk as (l1 & l2 & Heq).
  unfold link_replies in Hlink. rewrite Heq in Hlink.
  apply for_each_turn in Hlink as (s1 & s2 & _ & Hturn & _). simpl in Hturn.
  destruct (getitem ids (Some k)) as [v|] eqn:Hget; [|done].
  apply getitem_Some in Hget. by eexists.
Qed.
End link.

(** ** Attaching the comments *)

Section attach.
Context (ids : gmap Z review_ref) (emap : gmap Z nat) (cmap : gmap Z addr).

Lemma assert_Ok b : assert b = Ok tt ↔ b.
Proof. destruct b; naive_solver. Qed.

Lemma attach_comment_Ok st a obj st' :
  attach_comment ids emap cmap st (a, obj) = Ok st' →
  row_ok ids emap cmap obj
  ∧ ∃ ra r, ids !! review_id obj = Some (ra, r)
    ∧ st'.1 = match owner_entry ids emap obj with
              | Some i => alter (add_comment a) i st.1
              | None => st.1
              end
    ∧ st'.2 = match reply_target ids cmap obj with
              | Some t => alter (append_reply a) t (alter (set_review ra) a st.2)
              | None => alter (set_review ra) a st.2
              end.
Proof.
  unfold attach_comment, row_ok, owner_entry, reply_target, has_key, getitem.
  simpl. destruct (ids !! review_id obj) as [[ra r]|] eqn:Hid; simpl; [|intros [=]].
  destruct (Review.is_reply r) eqn:Hr.
  - destruct (emap !! review_id obj) as [i|] eqn:He; simpl; [intros [=]|].
    destruct (match Review.base_reply_to_id r with
              | Some k => bool_decide (is_Some (emap !! k))
              | None => false
              end) eqn:Hbase; [|intros [=]]. simpl.
    destruct (Comment.is_reply (comment obj)) eqn:Hc.
    + destruct (Comment.reply_to_id (comment obj) ≫= (cmap !!.)) as [t|] eqn:Ht;
        [|intros [=]].
      simpl. intros [= <-]. split; exists ra, r; [|done].
      rewrite Hr, Hbase. eauto 6.
    + intros [= <-]. split; exists ra, r; [|done].
      rewrite Hr, Hbase. repeat split; intros [].
  - destruct (Review.public r) eqn:Hp.
    + destruct (emap !! review_id obj) as [i|] eqn:He; simpl; [|intros [=]].
      intros [= <-]. split; exists ra, r; [|done]. rewrite Hr. eauto.
    + intros [= <-]. split; exists ra, r; [|done].
      rewrite Hr, Hp. split; [done|]. intros [].
Qed.

Lemma attach_comment_total st a obj :
  row_ok ids emap cmap obj → ∃ st', attach_comment ids emap cmap st (a, obj) = Ok st'.
Proof.
  intros (ra & r & Hid & Hok). unfold attach_comment, has_key, getitem in *.
  simpl. rewrite Hid. simpl.
  destruct (Review.is_reply r).
  - destruct Hok as (He & Hbase & Hc). rewrite He. simpl.
    destruct (match Review.base_reply_to_id r with
              | Some k => bool_decide (is_Some (emap !! k))
              | None => false
              end); [|done]. simpl.
    destruct (Comment.is_reply (comment obj)); [|by eexists].
    destruct Hc as [t Ht]; [done|]. rewrite Ht. by eexists.
  - destruct (Review.public r); [|by eexists].
    destruct Hok as [i He]; [done|]. rewrite He. by eexists.
Qed.
End attach.

Section attach_loop.
Context (ids : gmap Z review_ref) (emap : gmap Z nat) (cmap : gmap Z addr).
Context (objs : list join_row) (es0 : list entry).

Lemma attached_to_snoc i l a obj :
  attached_to ids emap i (l ++ [(a, obj)])
  = attached_to ids emap i l
    ++ (if decide (owner_entry ids emap obj = Some i) then [a] else []).
Proof.
  unfold attached_to. rewrite filter_snoc, fmap_app. simpl. by case_decide.
Qed.

Lemma replies_of_snoc t l a obj :
  replies_of ids cmap t (l ++ [(a, obj)])
  = replies_of ids cmap t l
    ++ (if decide (reply_target ids cmap obj = Some t) then [a] else []).
Proof.
  unfold replies_of. rewrite filter_snoc, fmap_app. simpl. by case_decide.
Qed.

Lemma attach_spec_start : attach_spec ids emap cmap objs es0 [] (es0, fresh_comments objs).
Proof.
  split; simpl.
  - done.
  - intros i e0 He0. exists e0. by rewrite app_nil_r.
  - unfold fresh_comments. by rewrite length_fmap.
  - intros t obj Ht. eexists. unfold fresh_comments.
    rewrite list_lookup_fmap, Ht. done.
Qed.

Lemma attach_spec_step l st a obj st' :
  attach_spec ids emap cmap objs es0 l st →
  attach_comment ids emap cmap st (a, obj) = Ok st' →
  attach_spec ids emap cmap objs es0 (l ++ [(a, obj)]) st'.
Proof.
  intros [Hlen Hes Hclen Hcs] (_ & ra & r & Hid & Hst1 & Hst2)%attach_comment_Ok.
  split.
  - rewrite Hst1. destruct (owner_entry _ _ _); by rewrite ?length_alter.
  - intros i e0 He0. destruct (Hes i e0 He0) as (e & He & Hrev & Hts & Hdc).
    rewrite Hst1, attached_to_snoc.
    destruct (owner_entry ids emap obj) as [j|] eqn:Hown.
    + rewrite list_lookup_alter. destruct (decide (j = i)) as [->|Hne].
      * rewrite decide_True by done. rewrite He. simpl. eexists. split; [done|].
        simpl. by rewrite Hdc, app_assoc.
      * rewrite decide_False by congruence. exists e. by rewrite app_nil_r.
    + rewrite decide_False by done. exists e. by rewrite app_nil_r.
  - rewrite Hst2. destruct (reply_target _ _ _); by rewrite ?length_alter.
  - intros t obj' Ht. destruct (Hcs t obj' Ht) as (c & Hc & Hcol & Hrep).
    assert (∃ c1, alter (set_review ra) a st.2 !! t = Some c1
                  ∧ Comment.columns c1 = comment obj'
                  ∧ Comment._replies c1 = replies_of ids cmap t l)
      as (c1 & Hc1 & Hcol1 & Hrep1).
    { rewrite list_lookup_alter. case_decide; subst; rewrite Hc; eauto. }
    rewrite Hst2, replies_of_snoc.
    destruct (reply_target ids cmap obj) as [t'|] eqn:Htgt.
    + rewrite list_lookup_alter. destruct (decide (t' = t)) as [->|Hne].
      * rewrite decide_True by done. rewrite Hc1. simpl. eexists.
        split; [done|]. simpl. by rewrite Hrep1.
      * rewrite decide_False by congruence. exists c1. by rewrite app_nil_r.
    + rewrite decide_False by done. exists c1. by rewrite app_nil_r.
Qed.

Lemma attach_loop_spec st :
  for_each (attach_comment ids emap cmap) (enumerate objs)
    (es0, fresh_comments objs) = Ok st →
  attach_spec ids emap cmap objs es0 (enumerate objs) st ∧ ∀ obj, obj ∈ objs → row_ok ids emap cmap obj.
Proof.
  intros Hloop. split.
  - revert Hloop. apply for_each_ind; [apply attach_spec_start|].
    intros l1 [a obj] l2 s1 s2 _. apply attach_spec_step.
  - intros obj [a Ha%elem_of_enumerate]%list_elem_of_lookup.
    apply list_elem_of_split in Ha as (l1 & l2 & Heq). rewrite Heq in Hloop.
    apply for_each_turn in Hloop as (s1 & s2 & _ & Hturn & _).
    by apply attach_comment_Ok in Hturn as [? _].
Qed.

Lemma attach_loop_total :
  (∀ obj, obj ∈ objs → row_ok ids emap cmap obj) →
  ∃ st, for_each (attach_comment ids emap cmap) (enumerate objs)
          (es0, fresh_comments objs) = Ok st.
Proof.
  intros Hok.
  destruct (for_each_total (λ _ _, True) (attach_comment ids emap cmap)
              (enumerate objs) (es0, fresh_comments objs)) as (st & Hst & _);
    [done| |by exists st].
  intros l1 [a obj] l2 s1 Heq _.
  destruct (attach_comment_total ids emap cmap s1 a obj) as [s2 Hs2]; [|by eauto].
  apply Hok. apply enumerate_split in Heq as (_ & Hobj & _).
  by eapply list_elem_of_lookup_2.
Qed.
End attach_loop.

(** ** The whole reconstruction *)

Lemma scan_ids_inj (all_reviews : list Review.row) scan k k' a r r' :
  scan_spec (enumerate all_reviews) scan →
  reviews_id_map scan !! k = Some (a, r) →
  reviews_id_map scan !! k' = Some (a, r') → k = k'.
Proof.
  intros Hspec Hk Hk'.
  destruct (scan_ids_lookup _ _ _ _ _ Hspec Hk) as (Ha & _ & <-).
  destruct (scan_ids_lookup _ _ _ _ _ Hspec Hk') as (Ha' & _ & <-).
  congruence.
Qed.

(** A link either sets the attribute of the review at [a] to the list stored
    under its key, or leaves the review as it was. *)
Lemma link_replies_at (all_reviews : list Review.row) scan setter
    (reply_list : gmap Z (list addr)) store store' a r o :
  scan_spec (enumerate all_reviews) scan →
  link_replies setter (reviews_id_map scan) reply_list store = Ok store' →
  all_reviews !! a = Some r → store !! a = Some o →
  (∀ l, reviews_id_map scan !! Review.pk r = Some (a, r) →
        reply_list !! Review.pk r = Some l → store' !! a = Some (setter l o))
  ∧ (reviews_id_map scan !! Review.pk r ≠ Some (a, r)
     ∨ reply_list !! Review.pk r = None → store' !! a = Some o).
Proof.
  intros Hspec Hlink Ha Ho.
  apply link_replies_spec in Hlink as (_ & Hset & Hkeep);
    [|intros ?????; by eapply scan_ids_inj].
  split.
  - intros l Hid Hl. by apply (Hset (Review.pk r) l a r).
  - intros Hno. apply Hkeep; [done|]. intros k l r' Hl Hk.
    destruct (scan_ids_lookup _ _ _ _ _ Hspec Hk) as (Ha' & _ & <-).
    assert (r' = r) as -> by congruence. destruct Hno; congruence.
Qed.

Lemma get_all_review_comments_inv all_reviews through rc :
  get_all_review_comments all_reviews through = Ok rc →
  ∃ scan es emap, reconstruction_of all_reviews through scan es emap rc.
Proof.
  unfold get_all_review_comments.
  destruct (scan_reviews_spec all_reviews) as (scan & Hscan & Hspec).
  rewrite Hscan. cbn [mbind result_bind].
  destruct (build_entries (public_reviews scan)) as [es emap] eqn:Hes.
  destruct (link_replies Review.set_body_top_replies _ _ _) as [store1|]
    eqn:Htop; [|intros [=]]. cbn [mbind result_bind].
  destruct (link_replies Review.set_body_bottom_replies _ _ _) as [store2|]
    eqn:Hbot; [|intros [=]]. cbn [mbind result_bind].
  destruct (for_each _ _ _) as [st|] eqn:Hloop; [|intros [=]].
  cbn [mbind result_bind]. intros [= <-]. exists scan, es, emap.
  apply attach_loop_spec in Hloop as [Hatt Hrows].
  split; [done|]. split; [done|]. split; [done|]. split; [|split; [|split]].
  - intros k [Hk|Hk].
    + eapply link_replies_Ok_keys; [exact Htop|done].
    + eapply link_replies_Ok_keys; [exact Hbot|done].
  - intros a r Ha. simpl.
    assert (fresh_reviews all_reviews !! a = Some (Review.Obj r [] [])) as Ho
      by (unfold fresh_reviews; by rewrite list_lookup_fmap, Ha).
    destruct (link_replies_at _ _ _ _ _ _ a r _ Hspec Htop Ha Ho)
      as [Hset1 Hkeep1].
    assert (∃ o1, store1 !! a = Some o1 ∧ Review.columns o1 = r
              ∧ Review._body_bottom_replies o1 = []
              ∧ (∀ l, reviews_id_map scan !! Review.pk r = Some (a, r) →
                      body_top_replies scan !! Review.pk r = Some l →
                      Review._body_top_replies o1 = l)
              ∧ (reviews_id_map scan !! Review.pk r ≠ Some (a, r)
                 ∨ body_top_replies scan !! Review.pk r = None →
                 Review._body_top_replies o1 = []))
      as (o1 & Ho1 & Hc1 & Hb1 & Ht1 & Ht1').
    { destruct (body_top_replies scan !! Review.pk r) as [l|] eqn:Hl.
      - destruct (decide (reviews_id_map scan !! Review.pk r = Some (a, r)))
          as [Hid|Hid].
        + eexists. split; [by apply Hset1|]. simpl.
          split; [done|]. split; [done|]. split; [by intros ? _ [= ->]|].
          by intros [?|?].
        + eexists. split; [apply Hkeep1; by left|]. simpl.
          split; [done|]. split; [done|]. split; [by intros ? ?|done].
      - eexists. split; [apply Hkeep1; by right|]. simpl.
        split; [done|]. split; [done|]. split; [by intros ? _ ?|done]. }
    destruct (link_replies_at _ _ _ _ _ _ a r _ Hspec Hbot Ha Ho1)
      as [Hset2 Hkeep2].
    destruct (body_bottom_replies scan !! Review.pk r) as [l|] eqn:Hl.
    + destruct (decide (reviews_id_map scan !! Review.pk r = Some (a, r)))
        as [Hid|Hid].
      * eexists. split; [by apply Hset2|]. simpl.
        split; [done|]. split; [done|]. split; [done|].
        split; [by intros ? _ [= ->]|]. by intros [?|?].
      * exists o1. split; [apply Hkeep2; by left|].
        split; [done|]. split; [done|]. split; [done|].
        split; [by intros ? ?|done].
    + exists o1. split; [apply Hkeep2; by right|].
      split; [done|]. split; [done|]. split; [done|].
      split; [by intros ? _ ?|done].
  - simpl. apply link_replies_spec in Htop as (Hlen1 & _);
      [|intros ?????; by eapply scan_ids_inj].
    apply link_replies_spec in Hbot as (Hlen2 & _);
      [|intros ?????; by eapply scan_ids_inj].
    rewrite Hlen2, Hlen1. unfold fresh_reviews. by rewrite length_fmap.
  - by destruct st.
Qed.

(** ** The reconstruction in terms of its input *)

Lemma elem_of_public_pks all_reviews k :
  k ∈ public_pks all_reviews
  ↔ ∃ r, r ∈ all_reviews ∧ Review.public r ∧ Review.pk r = k.
Proof.
  unfold public_pks. rewrite list_elem_of_fmap.
  setoid_rewrite list_elem_of_filter. naive_solver.
Qed.

Lemma elem_of_entry_pks all_reviews k :
  k ∈ entry_pks all_reviews
  ↔ ∃ r, r ∈ all_reviews ∧ Review.public r ∧ ¬ Review.is_reply r
         ∧ Review.pk r = k.
Proof.
  unfold entry_pks. rewrite list_elem_of_fmap.
  setoid_rewrite list_elem_of_filter. naive_solver.
Qed.

Lemma scan_ids_public_pks (all_reviews : list Review.row) scan k :
  scan_spec (enumerate all_reviews) scan →
  is_Some (reviews_id_map scan !! k) ↔ k ∈ public_pks all_reviews.
Proof.
  intros Hspec. rewrite elem_of_public_pks. split.
  - intros [[a r] Hk].
    destruct (scan_ids_lookup _ _ _ _ _ Hspec Hk) as (Ha & Hp & Hpk).
    exists r. split; [by eapply list_elem_of_lookup_2|done].
  - intros (r & [a Ha]%list_elem_of_lookup & Hp & <-).
    by eapply scan_ids_is_Some.
Qed.

Lemma fetch_join_rows_fetched (all_reviews : list Review.row) scan through :
  scan_spec (enumerate all_reviews) scan →
  fetch_join_rows (reviews_id_map scan) through = fetched all_reviews through.
Proof.
  intros Hspec. apply list_filter_iff. intros obj.
  by apply scan_ids_public_pks.
Qed.

Lemma nonempty_is_Some {A} (l : list A) : is_Some (nonempty l) ↔ l ≠ [].
Proof.
  destruct l as [|x l]; simpl.
  - split; [intros [? [=]]|by intros []].
  - split; [done|by eexists].
Qed.

Lemma repliers_is_Some sel (all_reviews : list Review.row) k :
  is_Some (nonempty (repliers sel k (enumerate all_reviews)))
  ↔ ∃ r, r ∈ all_reviews ∧ Review.public r ∧ sel r = Some k.
Proof.
  rewrite nonempty_is_Some. split.
  - intros Hne. destruct (repliers _ _ _) as [|a l] eqn:Hl; [done|].
    assert (a ∈ repliers sel k (enumerate all_reviews)) as Ha
      by (rewrite Hl; by left).
    apply elem_of_repliers in Ha as (r & Ha & ? & ?). exists r.
    split; [by eapply list_elem_of_lookup_2|done].
  - intros (r & [a Ha]%list_elem_of_lookup & Hp & Hsel) Hnil.
    assert (a ∈ repliers sel k (enumerate all_reviews)) as Hin
      by (apply elem_of_repliers; eauto).
    rewrite Hnil in Hin. by apply elem_of_nil in Hin.
Qed.

Lemma elem_of_public_reviews (all_reviews : list Review.row) scan a r :
  scan_spec (enumerate all_reviews) scan →
  (a, r) ∈ public_reviews scan ↔ all_reviews !! a = Some r ∧ Review.public r.
Proof.
  intros Hspec. rewrite (spec_public _ _ Hspec), list_elem_of_filter.
  rewrite elem_of_enumerate. naive_solver.
Qed.

Lemma entries_map_entry_pks (all_reviews : list Review.row) scan k :
  scan_spec (enumerate all_reviews) scan →
  is_Some ((build_entries (public_reviews scan)).2 !! k)
  ↔ k ∈ entry_pks all_reviews.
Proof.
  intros Hspec. rewrite elem_of_entry_pks.
  destruct (build_entries_spec (public_reviews scan)) as (_ & Hsome & Hall).
  split.
  - intros [i Hi]. destruct (Hsome k i Hi) as ([a r] & Hr & Hk).
    apply list_elem_of_lookup_2, list_elem_of_filter in Hr as [Htop Hin].
    apply (elem_of_public_reviews all_reviews) in Hin as [Ha Hp]; [|done].
    exists r. split; [by eapply list_elem_of_lookup_2|done].
  - intros (r & [a Ha]%list_elem_of_lookup & Hp & Htop & <-).
    apply (Hall (a, r)). apply list_elem_of_filter. split; [done|].
    by apply (elem_of_public_reviews all_reviews).
Qed.

Lemma map_comments_spec (objs : list join_row) k :
  (∀ t, map_comments objs !! k = Some t →
        ∃ obj, objs !! t = Some obj ∧ Comment.pk (comment obj) = k)
  ∧ ((∃ obj, obj ∈ objs ∧ Comment.pk (comment obj) = k) →
     is_Some (map_comments objs !! k)).
Proof.
  unfold map_comments. induction objs as [|x objs [IH1 IH2]] using rev_ind.
  - simpl. split; [by intros ? ?%lookup_empty_Some|].
    by intros (? & ?%elem_of_nil & _).
  - rewrite enumerate_snoc, foldl_app. simpl.
    destruct (decide (Comment.pk (comment x) = k)) as [<-|Hne].
    + rewrite lookup_insert_eq. split; [|by eexists].
      intros t [= <-]. exists x. split; [|done]. by apply list_lookup_middle.
    + rewrite lookup_insert_ne by done. split.
      * intros t Ht. destruct (IH1 t Ht) as (obj & Hobj & Hk).
        exists obj. split; [|done]. by apply lookup_app_l_Some.
      * intros (obj & [Hin| ->%list_elem_of_singleton]%elem_of_app & Hk);
          [|done]. apply IH2. by exists obj.
Qed.

Lemma NoDup_pk_eq (all_reviews : list Review.row) r r' :
  NoDup (Review.pk <$> all_reviews) →
  r ∈ all_reviews → r' ∈ all_reviews → Review.pk r = Review.pk r' → r = r'.
Proof.
  intros Hnd [i Hi]%list_elem_of_lookup [j Hj]%list_elem_of_lookup Hpk.
  assert (i = j) as ->; [|congruence].
  apply (NoDup_lookup _ i j (Review.pk r) Hnd); rewrite list_lookup_fmap.
  - by rewrite Hi.
  - rewrite Hj. simpl. by rewrite Hpk.
Qed.

Lemma well_linked_rows_ok all_reviews through scan :
  well_linked all_reviews through →
  scan_spec (enumerate all_reviews) scan →
  ∀ obj, obj ∈ fetched all_reviews through →
    row_ok (reviews_id_map scan) (build_entries (public_reviews scan)).2
      (map_comments (fetched all_reviews through)) obj.
Proof.
  intros (Hnd & _ & Hrows) Hspec obj Hobj.
  assert (is_Some (reviews_id_map scan !! review_id obj)) as [[ra r] Hid].
  { apply (scan_ids_public_pks all_reviews); [done|].
    by apply list_elem_of_filter in Hobj as [? _]. }
  destruct (scan_ids_lookup _ _ _ _ _ Hspec Hid) as (Hra & Hp & Hpk).
  assert (r ∈ all_reviews) as Hr by (by eapply list_elem_of_lookup_2).
  exists ra, r. split; [done|].
  destruct (Review.is_reply r) eqn:Hreply.
  - destruct (Hrows obj r Hobj Hr Hp Hpk) as ((p & Hbase & Hp') & Hc);
      [by rewrite Hreply|].
    split; [|split].
    + apply eq_None_not_Some. intros Hsome.
      apply (entries_map_entry_pks all_reviews) in Hsome; [|done].
      apply elem_of_entry_pks in Hsome as (r' & Hr' & _ & Htop & Hpk').
      assert (r' = r) as -> by (eapply NoDup_pk_eq; [done..|congruence]).
      apply Htop. by rewrite Hreply.
    + rewrite Hbase. simpl. apply bool_decide_pack.
      by apply (entries_map_entry_pks all_reviews).
    + intros Hcr. destruct (Hc Hcr) as (t & obj' & -> & Hobj' & Hpk').
      simpl. apply map_comments_spec. by exists obj'.
  - intros _. apply (entries_map_entry_pks all_reviews); [done|].
    apply elem_of_entry_pks. exists r. rewrite Hreply. naive_solver.
Qed.

Lemma get_all_review_comments_total all_reviews through :
  well_linked all_reviews through →
  ∃ rc, get_all_review_comments all_reviews through = Ok rc.
Proof.
  intros Hwl. pose proof Hwl as (Hnd & Hbody & _).
  unfold get_all_review_comments.
  destruct (scan_reviews_spec all_reviews) as (scan & Hscan & Hspec).
  rewrite Hscan. cbn [mbind result_bind].
  destruct (build_entries (public_reviews scan)) as [es emap] eqn:Hes.
  destruct (link_replies_total Review.set_body_top_replies (reviews_id_map scan)
              (body_top_replies scan) (fresh_reviews all_reviews))
    as [store1 ->].
  { intros k. rewrite (spec_top _ _ Hspec), repliers_is_Some.
    intros (r & Hr & Hp & Hk). apply (scan_ids_public_pks all_reviews); [done|].
    apply (Hbody r k); auto. }
  cbn [mbind result_bind].
  destruct (link_replies_total Review.set_body_bottom_replies
              (reviews_id_map scan) (body_bottom_replies scan) store1)
    as [store2 ->].
  { intros k. rewrite (spec_bottom _ _ Hspec), repliers_is_Some.
    intros (r & Hr & Hp & Hk). apply (scan_ids_public_pks all_reviews); [done|].
    apply (Hbody r k); auto. }
  cbn [mbind result_bind].
  rewrite (fetch_join_rows_fetched all_reviews) by done.
  destruct (attach_loop_total (reviews_id_map scan) emap
              (map_comments (fetched all_reviews through))
              (fetched all_reviews through) es) as [st ->].
  { replace emap with (build_entries (public_reviews scan)).2
      by (by rewrite Hes).
    by apply well_linked_rows_ok. }
  by eexists.
Qed.

Lemma elem_of_attached_to ids emap i (objs : list join_row) a :
  a ∈ attached_to ids emap i (enumerate objs)
  ↔ ∃ obj, objs !! a = Some obj ∧ owner_entry ids emap obj = Some i.
Proof.
  unfold attached_to. rewrite list_elem_of_fmap. split.
  - intros ([a' obj] & -> & [? Hin%elem_of_enumerate]%list_elem_of_filter).
    by exists obj.
  - intros (obj & Ha & Hown). exists (a, obj). split; [done|].
    apply list_elem_of_filter. split; [done|]. by apply elem_of_enumerate.
Qed.

Lemma elem_of_replies_of ids cmap t (objs : list join_row) a :
  a ∈ replies_of ids cmap t (enumerate objs)
  ↔ ∃ obj, objs !! a = Some obj ∧ reply_target ids cmap obj = Some t.
Proof.
  unfold replies_of. rewrite list_elem_of_fmap. split.
  - intros ([a' obj] & -> & [? Hin%elem_of_enumerate]%list_elem_of_filter).
    by exists obj.
  - intros (obj & Ha & Hown). exists (a, obj). split; [done|].
    apply list_elem_of_filter. split; [done|]. by apply elem_of_enumerate.
Qed.


Section reconstructed.
Context (all_reviews : list Review.row) (through : list join_row).
Context (scan : review_scan) (es : list entry) (emap : gmap Z nat).
Context (rc : reconstruction).
Hypothesis Hrec : reconstruction_of all_reviews through scan es emap rc.

Local Abbreviation ids := (reviews_id_map scan).
Local Abbreviation objs := (fetched all_reviews through).
Local Abbreviation cmap := (map_comments (fetched all_reviews through)).

Lemma rec_entries_top_level :
  es = new_entry <$> filter top_level (public_reviews scan)
  ∧ emap = (build_entries (public_reviews scan)).2.
Proof.
  destruct Hrec as (_ & _ & Hes & _).
  destruct (build_entries_spec (public_reviews scan)) as (H1 & _).
  rewrite Hes in *. done.
Qed.

Lemma rec_entry i e :
  entries rc !! i = Some e →
  ∃ a r, filter top_level (public_reviews scan) !! i = Some (a, r)
    ∧ review e = a ∧ timestamp e = Review.timestamp r
    ∧ diff_comments e = attached_to ids emap i (enumerate objs).
Proof.
  intros He. destruct Hrec as (_ & Hspec & _ & _ & _ & _ & Hatt & _).
  rewrite (fetch_join_rows_fetched all_reviews) in Hatt by done.
  destruct Hatt as [Hlen Hes _ _]. simpl in *.
  destruct rec_entries_top_level as [Hes0 _].
  assert (is_Some (es !! i)) as [e0 He0].
  { apply lookup_lt_is_Some. rewrite <-Hlen. by eapply lookup_lt_Some. }
  destruct (Hes i e0 He0) as (e' & He' & Hrev & Hts & Hdc).
  assert (e' = e) as -> by congruence.
  rewrite Hes0, list_lookup_fmap in He0.
  destruct (filter top_level (public_reviews scan) !! i) as [[a r]|]; [|done].
  simpl in He0. injection He0 as <-. exists a, r. by rewrite Hdc.
Qed.

Lemma rec_comment t c :
  comments rc !! t = Some c →
  ∃ obj, objs !! t = Some obj ∧ Comment.columns c = comment obj
    ∧ Comment._replies c = replies_of ids cmap t (enumerate objs).
Proof.
  intros Hc. destruct Hrec as (_ & Hspec & _ & _ & _ & _ & Hatt & _).
  rewrite (fetch_join_rows_fetched all_reviews) in Hatt by done.
  destruct Hatt as [_ _ Hlen Hcs]. simpl in *.
  assert (is_Some (objs !! t)) as [obj Hobj].
  { apply lookup_lt_is_Some. rewrite <-Hlen. by eapply lookup_lt_Some. }
  destruct (Hcs t obj Hobj) as (c' & Hc' & Hcol & Hrep).
  assert (c' = c) as -> by congruence. by exists obj.
Qed.

Lemma rec_review a o :
  reviews rc !! a = Some o →
  ∃ r, all_reviews !! a = Some r ∧ Review.columns o = r
    ∧ (Review._body_top_replies o = []
       ∨ Review._body_top_replies o
         = repliers Review.body_top_reply_to_id (Review.pk r)
             (enumerate all_reviews))
    ∧ (Review._body_bottom_replies o = []
       ∨ Review._body_bottom_replies o
         = repliers Review.body_bottom_reply_to_id (Review.pk r)
             (enumerate all_reviews)).
Proof.
  intros Ho. destruct Hrec as (_ & Hspec & _ & _ & Hrev & Hlen & _).
  assert (is_Some (all_reviews !! a)) as [r Hr].
  { apply lookup_lt_is_Some. rewrite <-Hlen. by eapply lookup_lt_Some. }
  destruct (Hrev a r Hr) as (o' & Ho' & Hcol & Ht & Ht' & Hb & Hb').
  assert (o' = o) as -> by congruence. exists r. split; [done|]. split; [done|].
  split.
  - destruct (decide (ids !! Review.pk r = Some (a, r))) as [Hid|Hid];
      [|left; apply Ht'; by left].
    destruct (body_top_replies scan !! Review.pk r) as [l|] eqn:Hl;
      [|left; apply Ht'; by right].
    right. rewrite (Ht l Hid eq_refl).
    rewrite (spec_top _ _ Hspec) in Hl. by apply nonempty_Some in Hl.
  - destruct (decide (ids !! Review.pk r = Some (a, r))) as [Hid|Hid];
      [|left; apply Hb'; by left].
    destruct (body_bottom_replies scan !! Review.pk r) as [l|] eqn:Hl;
      [|left; apply Hb'; by right].
    right. rewrite (Hb l Hid eq_refl).
    rewrite (spec_bottom _ _ Hspec) in Hl. by apply nonempty_Some in Hl.
Qed.
End reconstructed.

(** * Properties of the reconstruction *)

Lemma attached_fetched all_reviews through scan es emap rc a :
  reconstruction_of all_reviews through scan es emap rc →
  attached rc a →
  ∃ obj, fetched all_reviews through !! a = Some obj
    ∧ (owner_entry (reviews_id_map scan) emap obj ≠ None
       ∨ reply_target (reviews_id_map scan)
           (map_comments (fetched all_reviews through)) obj ≠ None).
Proof.
  intros Hrec [(e & [i He]%list_elem_of_lookup & Ha)
              |(c & [t Hc]%list_elem_of_lookup & Ha)].
  - destruct (rec_entry _ _ _ _ _ _ Hrec i e He) as (? & ? & _ & _ & _ & Hdc).
    rewrite Hdc in Ha. apply elem_of_attached_to in Ha as (obj & Hobj & Hown).
    exists obj. split; [done|]. left. by rewrite Hown.
  - destruct (rec_comment _ _ _ _ _ _ Hrec t c Hc) as (? & _ & _ & Hrep).
    rewrite Hrep in Ha. apply elem_of_replies_of in Ha as (obj & Hobj & Htgt).
    exists obj. split; [done|]. right. by rewrite Htgt.
Qed.

(** C3: a review that is not public is the review of no entry, is in no
    body-top or body-bottom reply list and in no list of the map of replies,
    and the comments attached to an entry or to a comment are those of rows of
    public reviews. *)
Theorem non_public_reviews_are_invisible
    (all_reviews : list Review.row) (through : list join_row)
    (rc : reconstruction) :
  get_all_review_comments all_reviews through = Ok rc →
  (∀ e, e ∈ entries rc → is_public_review all_reviews (review e))
  ∧ (∀ o a, o ∈ reviews rc →
       a ∈ Review._body_top_replies o ∨ a ∈ Review._body_bottom_replies o →
       is_public_review all_reviews a)
  ∧ (∀ scan k l a, scan_reviews all_reviews = Ok scan →
       replies scan !! k = Some l → a ∈ l → is_public_review all_reviews a)
  ∧ (∀ a, attached rc a →
       ∃ obj r, fetched all_reviews through !! a = Some obj
         ∧ r ∈ all_reviews ∧ Review.public r ∧ Review.pk r = review_id obj)
  ∧ (NoDup (Review.pk <$> all_reviews) →
     ∀ a obj r, attached rc a →
       fetched all_reviews through !! a = Some obj →
       r ∈ all_reviews → Review.pk r = review_id obj → Review.public r).
Proof.
  intros Hget.
  destruct (get_all_review_comments_inv _ _ _ Hget) as (scan & es & emap & Hrec).
  pose proof Hrec as (Hscan & Hspec & _).
  assert (∀ sel k a, a ∈ repliers sel k (enumerate all_reviews) →
                     is_public_review all_reviews a) as Hrepliers.
  { intros sel k a (r & ? & ? & _)%elem_of_repliers. by exists r. }
  assert (∀ a, attached rc a →
            ∃ obj r, fetched all_reviews through !! a = Some obj
              ∧ r ∈ all_reviews ∧ Review.public r
              ∧ Review.pk r = review_id obj) as Hatt.
  { intros a Ha.
    destruct (attached_fetched _ _ _ _ _ _ a Hrec Ha) as (obj & Hobj & _).
    pose proof (list_elem_of_lookup_2 _ _ _ Hobj) as Hin.
    apply list_elem_of_filter in Hin as [Hpk _].
    apply elem_of_public_pks in Hpk as (r & ? & ? & ?). by exists obj, r. }
  split; [|split; [|split; [|split]]].
  - intros e [i He]%list_elem_of_lookup.
    destruct (rec_entry _ _ _ _ _ _ Hrec i e He) as (a & r & Hi & -> & _).
    apply list_elem_of_lookup_2, list_elem_of_filter in Hi as [_ Hin].
    apply (elem_of_public_reviews all_reviews) in Hin; [|done]. by exists r.
  - intros o a [i Ho]%list_elem_of_lookup Ha.
    destruct (rec_review _ _ _ _ _ _ Hrec i o Ho)
      as (r & _ & _ & [Ht|Ht] & [Hb|Hb]);
      rewrite Ht, Hb in Ha; destruct Ha as [Ha|Ha];
      try (by apply elem_of_nil in Ha); by eapply Hrepliers.
  - intros scan' k l a Hscan' Hl Ha.
    assert (scan' = scan) as -> by congruence.
    rewrite (spec_replies _ _ Hspec) in Hl. apply nonempty_Some in Hl as ->.
    by eapply Hrepliers.
  - done.
  - intros Hnd a obj r Ha Hobj Hr Hpk.
    destruct (Hatt a Ha) as (obj' & r' & Hobj' & Hr' & Hp & Hpk').
    assert (obj' = obj) as -> by congruence.
    assert (r' = r) as -> by (eapply NoDup_pk_eq; [done..|congruence]).
    done.
Qed.

Lemma non_public_reviews_are_invisible_witness :
  ∃ rc, get_all_review_comments sample_reviews sample_through = Ok rc
    ∧ (∀ e, e ∈ entries rc → is_public_review sample_reviews (review e))
    ∧ (∀ a, attached rc a →
         ∃ obj r, fetched sample_reviews sample_through !! a = Some obj
           ∧ r ∈ sample_reviews ∧ Review.public r
           ∧ Review.pk r = review_id obj).
Proof.
  eexists. split; [vm_compute; reflexivity|].
  split;
    apply (non_public_reviews_are_invisible sample_reviews sample_through _
             eq_refl).
Defined.

(** C2 (as stated, refuted): neither kind of orphaned reply is dropped; the
    run ends with an exception. *)
Lemma orphaned_reply_raises :
  get_all_review_comments missing_target_reviews missing_target_through
    = Raise (KeyError (Some 99%Z))
  ∧ get_all_review_comments stray_base_reviews stray_base_through
    = Raise AssertionError.
Proof. split; vm_compute; reflexivity. Qed.

(** A run that returns has found the target of every reply it was given on a
    reply review. *)
Lemma returned_replies_have_targets all_reviews through rc obj r :
  get_all_review_comments all_reviews through = Ok rc →
  NoDup (Review.pk <$> all_reviews) →
  obj ∈ fetched all_reviews through → r ∈ all_reviews → Review.public r →
  Review.pk r = review_id obj → Review.is_reply r →
  Comment.is_reply (comment obj) →
  ∃ obj', obj' ∈ fetched all_reviews through
    ∧ Comment.reply_to_id (comment obj) = Some (Comment.pk (comment obj')).
Proof.
  intros Hget Hnd Hobj [a Ha]%list_elem_of_lookup Hp Hpk Hr Hc.
  destruct (get_all_review_comments_inv _ _ _ Hget)
    as (scan & es & emap & _ & Hspec & _ & _ & _ & _ & _ & Hrows).
  rewrite (fetch_join_rows_fetched all_reviews) in Hrows by done.
  destruct (Hrows obj Hobj) as (ra & r' & Hid & Hok).
  rewrite <-Hpk, (scan_ids_unique all_reviews scan a r) in Hid by done.
  injection Hid as <- <-. destruct (Review.is_reply r); [|done].
  destruct Hok as (_ & _ & Ht). destruct (Ht Hc) as [t Ht'].
  destruct (Comment.reply_to_id (comment obj)) as [k|]; [|done]. simpl in Ht'.
  apply map_comments_spec in Ht' as (obj' & Hobj' & <-).
  exists obj'. split; [by eapply list_elem_of_lookup_2|done].
Qed.

(** A run that returns has found the base review of every reply review it
    was given a row of among the entries. *)
Lemma returned_reply_reviews_have_entries all_reviews through rc obj r :
  get_all_review_comments all_reviews through = Ok rc →
  NoDup (Review.pk <$> all_reviews) →
  obj ∈ fetched all_reviews through → r ∈ all_reviews → Review.public r →
  Review.pk r = review_id obj → Review.is_reply r →
  ∃ p, Review.base_reply_to_id r = Some p ∧ p ∈ entry_pks all_reviews.
Proof.
  intros Hget Hnd Hobj [a Ha]%list_elem_of_lookup Hp Hpk Hr.
  destruct (get_all_review_comments_inv _ _ _ Hget) as (scan & es & emap & Hrec).
  pose proof Hrec as (_ & Hspec & _ & _ & _ & _ & _ & Hrows).
  destruct (rec_entries_top_level _ _ _ _ _ _ Hrec) as [_ Hemap].
  rewrite (fetch_join_rows_fetched all_reviews) in Hrows by done.
  destruct (Hrows obj Hobj) as (ra & r' & Hid & Hok).
  rewrite <-Hpk, (scan_ids_unique all_reviews scan a r) in Hid by done.
  injection Hid as <- <-. destruct (Review.is_reply r); [|done].
  destruct Hok as (_ & Hbase & _). unfold has_key in Hbase.
  destruct (Review.base_reply_to_id r) as [p|]; [|done].
  exists p. split; [done|]. apply bool_decide_unpack in Hbase.
  apply (entries_map_entry_pks all_reviews scan); [done|]. by rewrite <-Hemap.
Qed.

(** C2 (amended): on linked input the reconstruction returns.  A run that
    returns has, for every fetched row of a reply review, found the base
    review of the review among the entries and, where the comment of the row
    is a reply, the replied comment among the fetched comments; what it
    drops is the comment of such a row that is not itself a reply: that
    comment is in the comment list of no entry and in the reply list of no
    comment. *)
Theorem orphan_comment_is_dropped
    (all_reviews : list Review.row) (through : list join_row) :
  NoDup (Review.pk <$> all_reviews) →
  (well_linked all_reviews through →
   ∃ rc, get_all_review_comments all_reviews through = Ok rc)
  ∧ ∀ rc i obj r,
      get_all_review_comments all_reviews through = Ok rc →
      fetched all_reviews through !! i = Some obj →
      r ∈ all_reviews → Review.public r → Review.pk r = review_id obj →
      Review.is_reply r →
      (∃ p, Review.base_reply_to_id r = Some p ∧ p ∈ entry_pks all_reviews)
      ∧ (Comment.is_reply (comment obj) →
         ∃ obj', obj' ∈ fetched all_reviews through
           ∧ Comment.reply_to_id (comment obj)
             = Some (Comment.pk (comment obj')))
      ∧ (¬ Comment.is_reply (comment obj) →
         (∀ e, e ∈ entries rc → i ∉ diff_comments e)
         ∧ (∀ c, c ∈ comments rc → i ∉ Comment._replies c)).
Proof.
  intros Hnd. split; [apply get_all_review_comments_total|].
  intros rc i obj r Hget Hobj Hr Hp Hpk Hreply.
  pose proof (list_elem_of_lookup_2 _ _ _ Hobj) as Hin.
  split; [by eapply returned_reply_reviews_have_entries|].
  split; [intros Hc; by eapply returned_replies_have_targets|].
  intros Hc. apply list_elem_of_lookup in Hr as [a Ha].
  destruct (get_all_review_comments_inv _ _ _ Hget) as (scan & es & emap & Hrec).
  pose proof Hrec as (_ & Hspec & _).
  assert (¬ attached rc i) as Hnot.
  { intros Hatt.
    destruct (attached_fetched _ _ _ _ _ _ i Hrec Hatt) as (obj' & Hobj' & Hor).
    assert (obj' = obj) as -> by congruence.
    pose proof (scan_ids_unique all_reviews scan a r Hspec Hnd Ha Hp) as Hid.
    rewrite Hpk in Hid.
    unfold owner_entry, reply_target in Hor. rewrite Hid in Hor.
    destruct (Review.is_reply r); [|done].
    destruct (Comment.is_reply (comment obj)); [by apply Hc|].
    by destruct Hor. }
  split.
  - intros e He Hi. apply Hnot. left. by exists e.
  - intros c Hcin Hi. apply Hnot. right. by exists c.
Qed.

Lemma well_linked_sample : well_linked sample_reviews sample_through.
Proof.
  assert (fetched sample_reviews sample_through
          = [ JoinRow 1 (Comment.Row 10 "why?" None);
              JoinRow 2 (Comment.Row 11 "because" (Some 10%Z));
              JoinRow 2 (Comment.Row 12 "stray" None) ]) as Hf
    by (vm_compute; reflexivity).
  split; [|split].
  - compute_done.
  - intros r k Hr Hp Hk. unfold sample_reviews in Hr.
    repeat (apply elem_of_cons in Hr as [->|Hr]);
      [..|by apply elem_of_nil in Hr]; simpl in *;
      destruct Hk as [Hk|Hk]; try discriminate; try done.
    injection Hk as <-. compute_done.
  - intros obj r Hobj Hr Hp Hpk Hreply. rewrite Hf in *.
    unfold sample_reviews in Hr.
    repeat (apply elem_of_cons in Hr as [->|Hr]);
      [..|by apply elem_of_nil in Hr]; simpl in *; try done.
    split.
    + exists 1%Z. split; [done|]. compute_done.
    + repeat (apply elem_of_cons in Hobj as [->|Hobj]);
        [..|by apply elem_of_nil in Hobj]; simpl in *; try done.
      intros _. exists 10%Z, (JoinRow 1 (Comment.Row 10 "why?" None)).
      split; [done|]. split; [by left|done].
Qed.

Lemma orphan_comment_is_dropped_witness :
  ∃ rc, get_all_review_comments sample_reviews sample_through = Ok rc
    ∧ (∀ e, e ∈ entries rc → 2 ∉ diff_comments e)
    ∧ (∀ c, c ∈ comments rc → 2 ∉ Comment._replies c).
Proof.
  destruct (orphan_comment_is_dropped sample_reviews sample_through)
    as [Hreturns Hdrop]; [by destruct well_linked_sample|].
  destruct (Hreturns well_linked_sample) as [rc Hget].
  exists rc. split; [done|].
  apply (Hdrop rc 2 (JoinRow 2 (Comment.Row 12 "stray" None))
           (Review.Row 2 true (Some 1%Z) (Some 1%Z) None 101 "thanks" ""));
    [done|by vm_compute|by right; left|done..|by intros []].
Defined.

(** ** One top-level review and its replies *)

Lemma filter_ext_elem_of {A} (P Q : A → Prop) `{!∀ x, Decision (P x)}
    `{!∀ x, Decision (Q x)} (l : list A) :
  (∀ x, x ∈ l → P x ↔ Q x) → filter P l = filter Q l.
Proof.
  induction l as [|x l IH]; intros Hiff; [done|].
  rewrite !filter_cons, IH by (intros y Hy; apply Hiff; by right).
  destruct (decide (P x)) as [HP|HP], (decide (Q x)) as [HQ|HQ]; try done;
    exfalso; apply (Hiff x) in HP || apply (Hiff x) in HQ; try done; by left.
Qed.

Lemma filter_enumerate_snd {A} (P : A → Prop) `{!∀ x, Decision (P x)}
    (l : list A) :
  (filter (λ x : addr * A, P x.2) (enumerate l)).*2 = filter P l.
Proof.
  induction l as [|x l IH] using rev_ind; [done|].
  rewrite enumerate_snoc, !filter_snoc, fmap_app, IH. simpl.
  by case_decide.
Qed.

(** C4 (as stated, refuted): one public top-level review and one public reply
    to it, and the top reply list of the entry is empty. *)
Lemma top_reply_list_misses_reply :
  ∃ rc e o,
    get_all_review_comments lone_reply_reviews [] = Ok rc
    ∧ entries rc = [e] ∧ reviews rc !! review e = Some o
    ∧ length (filter (λ r, Review.public r ∧ Review.is_reply r)
                lone_reply_reviews) = 1
    ∧ Review._body_top_replies o = [].
Proof. do 3 eexists. split; [vm_compute; reflexivity|]. done. Qed.

(** C4 (amended): with exactly one public top-level review [T] and every
    public reply review a reply to it, on input the reconstruction returns
    on, there is exactly one entry, that of [T].  The [N] replies are kept, in
    fetch order, in the map of replies under the key of [T], which no entry
    refers to; the top reply list of the entry holds the public reviews that
    answer the top text of [T], in fetch order, and it is the list of the
    [N] replies when these are the reviews that answer the top text of
    [T]. *)
Theorem one_top_level_review
    (all_reviews : list Review.row) (through : list join_row)
    (t : addr) (T : Review.row) :
  NoDup (Review.pk <$> all_reviews) →
  filter (λ r : review_ref, Review.public r.2 ∧ ¬ Review.is_reply r.2)
    (enumerate all_reviews) = [(t, T)] →
  (∀ r, r ∈ all_reviews → Review.public r → Review.is_reply r →
        Review.base_reply_to_id r = Some (Review.pk T)) →
  (∀ r k, r ∈ all_reviews → Review.public r →
          Review.body_top_reply_to_id r = Some k
          ∨ Review.body_bottom_reply_to_id r = Some k →
          k ∈ public_pks all_reviews) →
  (∀ obj r, obj ∈ fetched all_reviews through → r ∈ all_reviews →
            Review.public r → Review.pk r = review_id obj →
            Review.is_reply r → Comment.is_reply (comment obj) →
            ∃ k obj', Comment.reply_to_id (comment obj) = Some k
                      ∧ obj' ∈ fetched all_reviews through
                      ∧ Comment.pk (comment obj') = k) →
  ∃ rc e o scan,
    get_all_review_comments all_reviews through = Ok rc
    ∧ entries rc = [e] ∧ review e = t ∧ reviews rc !! t = Some o
    ∧ scan_reviews all_reviews = Ok scan
    ∧ replies scan !! Review.pk T
      = nonempty
          (filter (λ r : review_ref, Review.public r.2 ∧ Review.is_reply r.2)
             (enumerate all_reviews)).*1
    ∧ Review._body_top_replies o
      = repliers Review.body_top_reply_to_id (Review.pk T)
          (enumerate all_reviews)
    ∧ ((∀ r, r ∈ all_reviews → Review.public r →
             Review.body_top_reply_to_id r = Some (Review.pk T)
             ↔ Review.is_reply r) →
       Review._body_top_replies o
       = (filter (λ r : review_ref, Review.public r.2 ∧ Review.is_reply r.2)
            (enumerate all_reviews)).*1
       ∧ length (Review._body_top_replies o)
         = length (filter (λ r, Review.public r ∧ Review.is_reply r)
                     all_reviews)).
Proof.
  intros Hnd Hone Hbase Hbody Hcomments.
  assert ((t, T) ∈ filter
            (λ r : review_ref, Review.public r.2 ∧ ¬ Review.is_reply r.2)
            (enumerate all_reviews)) as HT by (rewrite Hone; by left).
  apply list_elem_of_filter in HT as [[HTp HTtop] HTin%elem_of_enumerate].
  simpl in *.
  assert (T ∈ all_reviews) as HTall by (by eapply list_elem_of_lookup_2).
  assert (well_linked all_reviews through) as Hwl.
  { split; [done|]. split; [done|]. intros obj r Hobj Hr Hp Hpk Hreply. split.
    - exists (Review.pk T). split; [by apply Hbase|].
      apply elem_of_entry_pks. by exists T.
    - intros Hc. by apply (Hcomments obj r). }
  destruct (get_all_review_comments_total _ _ Hwl) as [rc Hget].
  destruct (get_all_review_comments_inv _ _ _ Hget) as (scan & es & emap & Hrec).
  pose proof Hrec as (_ & Hspec & _ & _ & Hrev & _ & [Hlen _ _ _] & _).
  destruct (rec_entries_top_level _ _ _ _ _ _ Hrec) as [Hes _].
  assert (filter top_level (public_reviews scan) = [(t, T)]) as Htops.
  { rewrite (spec_public _ _ Hspec), list_filter_filter, <-Hone.
    apply list_filter_iff. intros [a r]. unfold top_level. naive_solver. }
  rewrite Htops in Hes. simpl in Hlen. rewrite Hes in Hlen. simpl in Hlen.
  destruct (entries rc) as [|e [|e' l]] eqn:Hentries; try done.
  assert (entries rc !! 0 = Some e) as He0 by (by rewrite Hentries).
  destruct (rec_entry _ _ _ _ _ _ Hrec 0 e He0) as (a & r & Hi & Hreview & _).
  rewrite Htops in Hi. injection Hi as <- <-.
  destruct (Hrev t T HTin) as (o & Ho & _ & Htop & Htop' & _).
  pose proof (scan_ids_unique all_reviews scan t T Hspec Hnd HTin HTp) as Hid.
  assert (Review._body_top_replies o
          = repliers Review.body_top_reply_to_id (Review.pk T)
              (enumerate all_reviews)) as Hlist.
  { pose proof (spec_top _ _ Hspec (Review.pk T)) as Hl.
    destruct (body_top_replies scan !! Review.pk T) as [l|] eqn:Hk.
    - rewrite (Htop l Hid eq_refl). symmetry in Hl. by apply nonempty_Some in Hl.
    - rewrite Htop' by (by right).
      by destruct (repliers _ _ _). }
  exists rc, e, o, scan. split; [done|]. split; [done|]. split; [done|].
  split; [done|]. split; [by destruct Hrec|]. split.
  { rewrite (spec_replies _ _ Hspec). f_equal. unfold repliers. f_equal.
    apply filter_ext_elem_of.
    intros [a r] Hin%elem_of_enumerate%list_elem_of_lookup_2. simpl.
    split; intros [Hp Hx]; (split; [done|]).
    - unfold Review.is_reply. rewrite Hx. by apply bool_decide_pack.
    - by apply Hbase. }
  split; [done|].
  intros Hiff.
  assert (Review._body_top_replies o
          = (filter (λ r : review_ref, Review.public r.2 ∧ Review.is_reply r.2)
               (enumerate all_reviews)).*1) as Heq.
  { rewrite Hlist. unfold repliers. f_equal. apply filter_ext_elem_of.
    intros [a r] Hin%elem_of_enumerate%list_elem_of_lookup_2. simpl.
    split; intros [Hp Hx]; (split; [done|]); by apply (Hiff r). }
  split; [done|].
  rewrite Heq, length_fmap, <-(filter_enumerate_snd _ all_reviews).
  by rewrite length_fmap.
Qed.

Lemma one_top_level_review_witness :
  ∃ rc e o scan,
    get_all_review_comments sample_reviews sample_through = Ok rc
    ∧ entries rc = [e] ∧ review e = 0 ∧ reviews rc !! 0 = Some o
    ∧ scan_reviews sample_reviews = Ok scan
    ∧ replies scan !! 1%Z = Some [1]
    ∧ Review._body_top_replies o = [1]
    ∧ length (Review._body_top_replies o)
      = length (filter (λ r, Review.public r ∧ Review.is_reply r)
                  sample_reviews).
Proof.
  destruct well_linked_sample as (Hnd & Hbody & Hrows).
  destruct (one_top_level_review sample_reviews sample_through 0
              (Review.Row 1 true None None None 100 "looks good" "ship it"))
    as (rc & e & o & scan & Hget & He & Hrev & Ho & Hscan & Hreplies & Hlist
        & Hn).
  - exact Hnd.
  - vm_compute. reflexivity.
  - intros r Hr Hp Hreply. unfold sample_reviews in Hr.
    repeat (apply elem_of_cons in Hr as [->|Hr]);
      [..|by apply elem_of_nil in Hr]; done.
  - exact Hbody.
  - intros obj r Hobj Hr Hp Hpk Hreply Hc.
    by apply (Hrows obj r Hobj Hr Hp Hpk Hreply).
  - exists rc, e, o, scan. split; [done|]. split; [done|]. split; [done|].
    split; [done|]. split; [done|]. split; [exact Hreplies|].
    split; [by rewrite Hlist|].
    apply Hn. intros r Hr Hp. unfold sample_reviews in Hr.
    repeat (apply elem_of_cons in Hr as [->|Hr]);
      [..|by apply elem_of_nil in Hr]; done.
Defined.

(** ** The text of an entry *)

Lemma mapM_result_Ok {A B} (f : A → result B) (l : list A) (k : list B) :
  Forall2 (λ x y, f x = Ok y) l k → mapM f l = Ok k.
Proof.
  induction 1 as [|x y l k Hx _ IH]; [done|].
  simpl. rewrite Hx. simpl. by rewrite IH.
Qed.

Lemma lookup_all {A} (store : list A) (l : list addr) :
  (∀ a, a ∈ l → is_Some (store !! a)) →
  ∃ os, Forall2 (λ a o, store !! a = Some o) l os.
Proof.
  induction l as [|a l IH]; intros Hall; [by exists []|].
  destruct (Hall a) as [o Ho]; [by left|].
  destruct IH as [os Hos]; [intros b Hb; apply Hall; by right|].
  exists (o :: os). by constructor.
Qed.

Lemma review_replies_text_Ok (store : list Review.t) l os :
  Forall2 (λ a o, store !! a = Some o) l os →
  review_replies_text store l = Ok (join nl (reply_text <$> os)).
Proof.
  intros Hos. unfold review_replies_text.
  rewrite (mapM_result_Ok _ l (reply_text <$> os)); [done|].
  apply Forall2_fmap_r. eapply Forall2_impl; [exact Hos|].
  intros a o Ho. simpl in *. by rewrite Ho.
Qed.

Lemma reconstruction_refs_public all_reviews through scan es emap rc :
  reconstruction_of all_reviews through scan es emap rc →
  (∀ e, e ∈ entries rc → is_public_review all_reviews (review e))
  ∧ (∀ o a, o ∈ reviews rc →
       a ∈ Review._body_top_replies o ∨ a ∈ Review._body_bottom_replies o →
       is_public_review all_reviews a).
Proof.
  intros Hrec. pose proof Hrec as (_ & Hspec & _). split.
  - intros e [i He]%list_elem_of_lookup.
    destruct (rec_entry _ _ _ _ _ _ Hrec i e He) as (a & r & Hi & -> & _).
    apply list_elem_of_lookup_2, list_elem_of_filter in Hi as [_ Hin].
    apply (elem_of_public_reviews all_reviews) in Hin; [|done]. by exists r.
  - intros o a [i Ho]%list_elem_of_lookup Ha.
    destruct (rec_review _ _ _ _ _ _ Hrec i o Ho)
      as (r & _ & _ & [Ht|Ht] & [Hb|Hb]);
      rewrite Ht, Hb in Ha; destruct Ha as [Ha|Ha];
      try (by apply elem_of_nil in Ha);
      apply elem_of_repliers in Ha as (r' & ? & ? & _); by exists r'.
Qed.



(** The comment text of the sample request: the review, the reply to its top
    text, and the comment with its reply. *)
Example sample_comment_text :
  (rc ← get_all_review_comments sample_reviews sample_through;
   for_each (flatten_entry 100 rc) (entries rc) "")
  = Ok (nl +:+ "looks good" +:+ nl +:+ "ship it" +:+ nl +:+ "thanks" +:+ nl
        +:+ nl +:+ "why?" +:+ nl +:+ "because").
Proof. vm_compute. reflexivity. Qed.

(** The comment store of a reconstruction is closed: the reply lists hold
    addresses of fetched comments only. *)
Lemma reconstruction_closed all_reviews through rc :
  get_all_review_comments all_reviews through = Ok rc → closed (comments rc).
Proof.
  intros Hget t c a Hc Ha.
  destruct (get_all_review_comments_inv _ _ _ Hget) as (scan & es & emap & Hrec).
  pose proof Hrec as (_ & Hspec & _ & _ & _ & _ & Hatt & _).
  rewrite (fetch_join_rows_fetched all_reviews) in Hatt by done.
  destruct Hatt as [_ _ Hlen _]. simpl in Hlen.
  destruct (rec_comment _ _ _ _ _ _ Hrec t c Hc) as (_ & _ & _ & Hrep).
  rewrite Hrep in Ha. apply elem_of_replies_of in Ha as (obj & Hobj & _).
  apply lookup_lt_is_Some. rewrite Hlen. by eapply lookup_lt_Some.
Qed.

(** * More on flatten_comment *)

Lemma for_each_all_Ok {A S} (body : S → A → result S) l s :
  (∀ x s1, x ∈ l → ∃ s2, body s1 x = Ok s2) →
  ∃ s', for_each body l s = Ok s'.
Proof.
  revert s. induction l as [|x l IH]; intros s Hall; simpl; [by eexists|].
  destruct (Hall x s) as [s2 ->]; [by left|]. simpl.
  apply IH. intros y s1 Hy. apply Hall. by right.
Qed.

Lemma for_each_ext_Ok {A S} (body1 body2 : S → A → result S) l s s' :
  (∀ x s1 s2, x ∈ l → body1 s1 x = Ok s2 → body2 s1 x = Ok s2) →
  for_each body1 l s = Ok s' → for_each body2 l s = Ok s'.
Proof.
  revert s. induction l as [|x l IH]; intros s Hext; simpl; [done|].
  destruct (body1 s x) as [s1|] eqn:Hb; [|done]. simpl.
  rewrite (Hext x s s1) by (by left || done). simpl.
  apply IH. intros y ? ? Hy. apply Hext. by right.
Qed.

Lemma flatten_comment_mono h d d' a s :
  flatten_comment d h a = Ok s → d ≤ d' → flatten_comment d' h a = Ok s.
Proof.
  revert d' a s. induction d as [|d IH]; intros d' a s; [done|].
  destruct d' as [|d']; [lia|]. intros Hf Hle. simpl in *.
  destruct (h !! a) as [c|]; [|done].
  eapply for_each_ext_Ok; [|exact Hf]. simpl.
  intros b text text' _ Hb.
  destruct (flatten_comment d h b) as [r|] eqn:Hr; [|done].
  rewrite (IH d' b r) by (done || lia). done.
Qed.

Lemma for_each_stable {A S} (bad : exn) (body1 body2 : S → A → result S) l s :
  (∀ x s1, x ∈ l → body1 s1 x ≠ Raise bad → body2 s1 x = body1 s1 x) →
  for_each body1 l s ≠ Raise bad →
  for_each body2 l s = for_each body1 l s.
Proof.
  revert s. induction l as [|x l IH]; intros s Hext Hne; simpl in *; [done|].
  destruct (body1 s x) as [s1|e] eqn:Hb; simpl in *.
  - rewrite (Hext x s), Hb by (by left || by rewrite Hb). simpl.
    apply IH; [|done]. intros y ? Hy. apply Hext. by right.
  - rewrite (Hext x s), Hb by (by left || by rewrite Hb). done.
Qed.

(** X1: an outcome of [flatten_comment] other than the depth error does not
    depend on the recursion depth: at every greater depth the call gives the
    same text, or the same error. *)
Theorem flatten_comment_depth_independent
    (h : comment_store) (a : addr) (depth depth' : nat) :
  flatten_comment depth h a ≠ Raise RecursionDepthExceeded →
  depth ≤ depth' →
  flatten_comment depth' h a = flatten_comment depth h a.
Proof.
  revert depth' a. induction depth as [|d IH]; intros d' a Hne Hle; [done|].
  destruct d' as [|d']; [lia|]. simpl in *.
  destruct (h !! a) as [c|]; [|done].
  apply (for_each_stable RecursionDepthExceeded); [|done].
  intros b text _ Hb.
  assert (flatten_comment d h b ≠ Raise RecursionDepthExceeded) as Hd
    by (intros Heq; by rewrite Heq in Hb).
  rewrite (IH d' b Hd) by lia. done.
Qed.

Lemma flatten_comment_depth_independent_witness :
  flatten_comment 2 thread 0 ≠ Raise RecursionDepthExceeded ∧ 2 ≤ 1000
  ∧ flatten_comment 1000 thread 0 = flatten_comment 2 thread 0.
Proof.
  assert (flatten_comment 2 thread 0 ≠ Raise RecursionDepthExceeded) as H
    by (vm_compute; discriminate).
  split; [exact H|]. split; [lia|].
  apply (flatten_comment_depth_independent thread 0 2 1000 H). lia.
Defined.

Lemma join_app sep (l1 l2 : list string) :
  l1 ≠ [] → l2 ≠ [] →
  join sep (l1 ++ l2) = join sep l1 +:+ sep +:+ join sep l2.
Proof.
  intros H1 H2. induction l1 as [|x l1 IH]; [done|].
  destruct l1 as [|y l1].
  - simpl. by destruct l2.
  - change (x +:+ sep +:+ join sep ((y :: l1) ++ l2)
            = (x +:+ sep +:+ join sep (y :: l1)) +:+ sep +:+ join sep l2).
    rewrite IH by done. by rewrite !string_app_assoc.
Qed.

(** X2: the text [flatten_comment] returns is the texts of the comments it
    goes through, depth first and each comment before its replies, joined by
    newlines; every one of these comments exists. *)
Theorem flatten_comment_joins_preorder
    (depth : nat) (h : comment_store) (a : addr) (s : string) :
  flatten_comment depth h a = Ok s →
  s = join nl (text_at h <$> preorder depth h a)
  ∧ Forall (λ b, is_Some (h !! b)) (preorder depth h a).
Proof.
  revert a s. induction depth as [|d IH]; intros a s; [done|].
  simpl. destruct (h !! a) as [c|] eqn:Hc; [|done]. intros Hloop.
  assert (text_at h a = Comment.text (Comment.columns c)) as Ha
    by (unfold text_at; by rewrite Hc).
  apply (for_each_ind
           (λ l t, t = join nl (text_at h <$> a :: (l ≫= preorder d h))
                   ∧ Forall (λ b, is_Some (h !! b)) (a :: (l ≫= preorder d h))))
    in Hloop; [done| |].
  - simpl. split; [done|]. by constructor.
  - intros l1 b l2 t1 t2 _ [-> Hall] Hb.
    destruct (flatten_comment d h b) as [r|] eqn:Hr; [|done].
    injection Hb as <-. destruct (IH b r Hr) as [-> Hall'].
    rewrite bind_app.
    change ([b] ≫= preorder d h) with (preorder d h b ++ []).
    rewrite app_nil_r, app_comm_cons, fmap_app.
    split; [|by apply Forall_app].
    rewrite join_app; [done|done|]. by destruct d.
Qed.

Lemma flatten_comment_joins_preorder_witness :
  "why?" +:+ nl +:+ "because" +:+ nl +:+ "thanks"
  = join nl (text_at thread <$> preorder 2 thread 0).
Proof.
  apply (flatten_comment_joins_preorder 2 thread 0 _ eq_refl).
Defined.

(** * More on the reconstruction *)

(** ** The time stamps of the replies *)

Lemma latest_reply_skip l (r : review_ref) ts :
  latest_reply l ts →
  (Review.public r.2 → Review.base_reply_to_id r.2 = None) →
  latest_reply (l ++ [r]) ts.
Proof.
  intros Hts Hr k t Hk. destruct (Hts k t Hk) as [Hle (r' & Hr' & Hex)]. split.
  - intros r0 [Hin| ->%list_elem_of_singleton]%elem_of_app Hp Hb; [by apply Hle|].
    rewrite Hr in Hb by done. done.
  - exists r'. split; [apply elem_of_app; by left|done].
Qed.

Lemma scan_review_latest l (scan scan' : review_scan) (r : review_ref) :
  scan_spec l scan → latest_reply l (reply_timestamps scan) →
  scan_review scan r = Ok scan' →
  latest_reply (l ++ [r]) (reply_timestamps scan').
Proof.
  intros Hspec Hts. destruct r as [a review]. unfold scan_review.
  destruct (Review.public review) eqn:Hp.
  2:{ intros [= <-]. apply latest_reply_skip; [done|]. simpl. by rewrite Hp. }
  destruct (Review.base_reply_to_id review) as [p|] eqn:Hbase.
  2:{ simpl. intros [= <-]. simpl. by apply latest_reply_skip. }
  unfold note_reply. simpl.
  destruct (replies scan !! p) as [l0|] eqn:Hl0.
  - unfold getitem. simpl.
    destruct (reply_timestamps scan !! p) as [old|] eqn:Hold; [|done].
    simpl. intros [= <-]. simpl. intros k t.
    destruct (decide (k = p)) as [->|Hne].
    + rewrite lookup_insert_eq. intros [= <-].
      destruct (Hts p old Hold) as [Hle (r' & Hr' & Hp' & Hb' & Ht')]. split.
      * intros r0 [Hin| ->%list_elem_of_singleton]%elem_of_app Hp0 Hb0.
        -- specialize (Hle r0 Hin Hp0 Hb0). lia.
        -- simpl. lia.
      * destruct (decide (Review.timestamp review ≤ old)%Z).
        -- exists r'. split; [apply elem_of_app; by left|].
           split; [done|]. split; [done|]. lia.
        -- exists (a, review). split; [apply elem_of_app; right; by left|].
           simpl. rewrite Hp. split; [done|]. split; [done|]. lia.
    + rewrite lookup_insert_ne by done. intros Hk.
      destruct (Hts k t Hk) as [Hle (r' & Hr' & Hex)]. split.
      * intros r0 [Hin| ->%list_elem_of_singleton]%elem_of_app Hp0 Hb0;
          [by apply Hle|]. simpl in Hb0. congruence.
      * exists r'. split; [apply elem_of_app; by left|done].
  - simpl. intros [= <-]. simpl. intros k t.
    destruct (decide (k = p)) as [->|Hne].
    + rewrite lookup_insert_eq. intros [= <-]. split.
      * intros r0 [Hin| ->%list_elem_of_singleton]%elem_of_app Hp0 Hb0;
          [|simpl; lia]. exfalso.
        rewrite (spec_replies _ _ Hspec) in Hl0.
        assert (r0.1 ∈ repliers Review.base_reply_to_id p l) as Hin'.
        { unfold repliers. apply list_elem_of_fmap. exists r0. split; [done|].
          by apply list_elem_of_filter. }
        destruct (repliers _ _ _); [by apply elem_of_nil in Hin'|done].
      * exists (a, review). split; [apply elem_of_app; right; by left|].
        simpl. by rewrite Hp.
    + rewrite lookup_insert_ne by done. intros Hk.
      destruct (Hts k t Hk) as [Hle (r' & Hr' & Hex)]. split.
      * intros r0 [Hin| ->%list_elem_of_singleton]%elem_of_app Hp0 Hb0;
          [by apply Hle|]. simpl in Hb0. congruence.
      * exists r'. split; [apply elem_of_app; by left|done].
Qed.

(** X3: the first loop of [get_all_review_comments] never raises: the
    lookup [reply_timestamps[parent_id]] of line 86 finds its key.  After it,
    [reply_timestamps] has a key exactly for the reviews that a public review
    replies to, and holds under it the latest time stamp of these replies. *)
Theorem reply_timestamps_hold_latest (all_reviews : list Review.row) :
  ∃ scan, scan_reviews all_reviews = Ok scan
    ∧ ∀ k,
        (is_Some (reply_timestamps scan !! k)
         ↔ ∃ r, r ∈ all_reviews ∧ Review.public r
                ∧ Review.base_reply_to_id r = Some k)
        ∧ ∀ t, reply_timestamps scan !! k = Some t →
            (∀ r, r ∈ all_reviews → Review.public r →
                  Review.base_reply_to_id r = Some k →
                  (Review.timestamp r ≤ t)%Z)
            ∧ ∃ r, r ∈ all_reviews ∧ Review.public r
                   ∧ Review.base_reply_to_id r = Some k
                   ∧ Review.timestamp r = t.
Proof.
  destruct (for_each_total
              (λ l scan, scan_spec l scan
                         ∧ latest_reply l (reply_timestamps scan))
              scan_review (enumerate all_reviews) empty_scan)
    as (scan & Hscan & Hspec & Hts).
  - split; [|intros k t Hk; simpl in Hk; by rewrite lookup_empty in Hk].
    split; simpl; try done; intros k; by rewrite ?lookup_empty.
  - intros l1 r l2 scan1 _ [Hspec1 Hts1].
    destruct (scan_review_spec l1 scan1 r Hspec1) as (scan2 & Hstep & Hspec2).
    exists scan2. split; [done|]. split; [done|]. by eapply scan_review_latest.
  - exists scan. split; [done|]. intros k. split.
    + rewrite (spec_timestamps _ _ Hspec), (spec_replies _ _ Hspec).
      apply repliers_is_Some.
    + intros t Hk. destruct (Hts k t Hk) as [Hle ([a r] & Hr & Hex)]. split.
      * intros r0 [a0 Ha0]%list_elem_of_lookup Hp Hb.
        apply (Hle (a0, r0)); [|done..]. by apply elem_of_enumerate.
      * exists r. split; [|done].
        apply elem_of_enumerate in Hr. by eapply list_elem_of_lookup_2.
Qed.

(** ** What the entries and the comments hold *)

Lemma NoDup_enumerate {A} (l : list A) : NoDup (enumerate l).
Proof.
  apply NoDup_alt. intros i j [a x] Hi Hj.
  apply enumerate_lookup in Hi as [-> _]. by apply enumerate_lookup in Hj as [-> _].
Qed.

Lemma top_level_public_reviews (all_reviews : list Review.row) scan :
  scan_spec (enumerate all_reviews) scan →
  filter top_level (public_reviews scan)
  = filter (λ r : review_ref, Review.public r.2 ∧ ¬ Review.is_reply r.2)
      (enumerate all_reviews).
Proof.
  intros Hspec. rewrite (spec_public _ _ Hspec), list_filter_filter.
  apply list_filter_iff. intros [a r]. unfold top_level. simpl. tauto.
Qed.

(** X4: on every run that returns, the entries are the public reviews that
    are not replies, one entry each, in the order the reviews were fetched,
    each with the time stamp of its review. *)
Theorem entries_are_top_level_reviews
    (all_reviews : list Review.row) (through : list join_row)
    (rc : reconstruction) :
  get_all_review_comments all_reviews through = Ok rc →
  (λ e, (review e, timestamp e)) <$> entries rc
  = (λ r : review_ref, (r.1, Review.timestamp r.2))
      <$> filter (λ r : review_ref, Review.public r.2 ∧ ¬ Review.is_reply r.2)
            (enumerate all_reviews).
Proof.
  intros Hget.
  destruct (get_all_review_comments_inv _ _ _ Hget) as (scan & es & emap & Hrec).
  pose proof Hrec as (_ & Hspec & _ & _ & _ & _ & Hatt & _).
  destruct Hatt as [Hlen _ _ _]. simpl in Hlen.
  destruct (rec_entries_top_level _ _ _ _ _ _ Hrec) as [Hes _].
  rewrite <-(top_level_public_reviews all_reviews scan Hspec).
  apply list_eq. intros i. rewrite !list_lookup_fmap.
  destruct (entries rc !! i) as [e|] eqn:He; simpl.
  - destruct (rec_entry _ _ _ _ _ _ Hrec i e He) as (a & r & -> & <- & -> & _).
    done.
  - apply lookup_ge_None in He. rewrite Hlen, Hes, length_fmap in He.
    apply lookup_ge_None in He. by rewrite He.
Qed.

Lemma entries_are_top_level_reviews_witness :
  ∃ rc, get_all_review_comments sample_reviews sample_through = Ok rc
    ∧ (λ e, (review e, timestamp e)) <$> entries rc = [(0, 100%Z)].
Proof.
  eexists. split; [vm_compute; reflexivity|].
  etrans; [apply (entries_are_top_level_reviews sample_reviews sample_through
                    _ eq_refl)|].
  vm_compute. reflexivity.
Defined.

Lemma entry_index_of_review (all_reviews : list Review.row) scan i a r :
  scan_spec (enumerate all_reviews) scan →
  NoDup (Review.pk <$> all_reviews) →
  filter top_level (public_reviews scan) !! i = Some (a, r) →
  (build_entries (public_reviews scan)).2 !! Review.pk r = Some i.
Proof.
  intros Hspec Hnd Hi.
  destruct (build_entries_spec (public_reviews scan)) as (_ & Hsome & Hall).
  destruct (Hall (a, r)) as [j Hj]; [by eapply list_elem_of_lookup_2|].
  simpl in Hj. rewrite Hj. f_equal.
  destruct (Hsome _ j Hj) as ([a' r'] & Hj' & Hpk). simpl in Hpk.
  assert (∀ i a r, filter top_level (public_reviews scan) !! i = Some (a, r) →
                   all_reviews !! a = Some r) as Hin.
  { intros i0 a0 r0 H0. apply list_elem_of_lookup_2, list_elem_of_filter in H0 as [_ H0].
    by apply (elem_of_public_reviews all_reviews) in H0 as [? _]. }
  pose proof (Hin _ _ _ Hi) as Ha. pose proof (Hin _ _ _ Hj') as Ha'.
  assert (a' = a) as ->.
  { apply (NoDup_lookup _ a' a (Review.pk r) Hnd); rewrite list_lookup_fmap.
    - rewrite Ha'. simpl. by rewrite Hpk.
    - by rewrite Ha. }
  assert (r' = r) as -> by congruence.
  apply (NoDup_lookup (filter top_level (public_reviews scan)) j i (a, r));
    [|done..].
  apply NoDup_filter. rewrite (spec_public _ _ Hspec).
  apply NoDup_filter, NoDup_enumerate.
Qed.

(** X5: when the keys of the reviews are distinct, the comment list of an
    entry holds the fetched rows of the review of the entry, all of them,
    each once and in the order they were fetched. *)
Theorem entry_lists_comments_of_its_review
    (all_reviews : list Review.row) (through : list join_row)
    (rc : reconstruction) (e : entry) (r : Review.row) :
  NoDup (Review.pk <$> all_reviews) →
  get_all_review_comments all_reviews through = Ok rc →
  e ∈ entries rc → all_reviews !! review e = Some r →
  diff_comments e
  = (filter (λ o : addr * join_row, review_id o.2 = Review.pk r)
       (enumerate (fetched all_reviews through))).*1.
Proof.
  intros Hnd Hget [i He]%list_elem_of_lookup Hr.
  destruct (get_all_review_comments_inv _ _ _ Hget) as (scan & es & emap & Hrec).
  pose proof Hrec as (_ & Hspec & _).
  destruct (rec_entries_top_level _ _ _ _ _ _ Hrec) as [_ Hemap].
  destruct (rec_entry _ _ _ _ _ _ Hrec i e He) as (a & r' & Hi & Ha & _ & ->).
  assert (all_reviews !! a = Some r' ∧ Review.public r') as [Ha' Hp].
  { apply list_elem_of_lookup_2, list_elem_of_filter in Hi as [_ Hin].
    by apply (elem_of_public_reviews all_reviews) in Hin. }
  assert (r' = r) as -> by congruence.
  assert (¬ Review.is_reply r) as Htop
    by (by apply list_elem_of_lookup_2, list_elem_of_filter in Hi as [? _]).
  unfold attached_to. f_equal. apply filter_ext_elem_of.
  intros [t obj] Ht. simpl. unfold owner_entry. split.
  - destruct (reviews_id_map scan !! review_id obj) as [[ra r0]|]; [|done].
    destruct (Review.is_reply r0); [done|].
    destruct (Review.public r0); [|done]. rewrite Hemap. intros Hown.
    destruct (build_entries_spec (public_reviews scan)) as (_ & Hsome & _).
    destruct (Hsome _ _ Hown) as (r1 & Hr1 & Hpk).
    rewrite Hi in Hr1. injection Hr1 as <-. by simpl in Hpk.
  - intros ->.
    rewrite (scan_ids_unique all_reviews scan a r) by (done || by rewrite <-Ha).
    destruct (Review.is_reply r); [by destruct Htop|].
    destruct (Review.public r); [|done]. rewrite Hemap.
    by eapply entry_index_of_review.
Qed.

Lemma entry_lists_comments_of_its_review_witness :
  ∃ rc e, get_all_review_comments sample_reviews sample_through = Ok rc
    ∧ e ∈ entries rc ∧ diff_comments e = [0].
Proof.
  eexists _, (Entry 0 [0] 100). split; [vm_compute; reflexivity|].
  split; [by left|].
  etrans; [eapply (entry_lists_comments_of_its_review sample_reviews
                     sample_through _ (Entry 0 [0] 100)
                     (Review.Row 1 true None None None 100 "looks good"
                        "ship it"));
           [compute_done|vm_compute; reflexivity|by left|reflexivity]|].
  vm_compute. reflexivity.
Defined.

Lemma map_comments_unique (objs : list join_row) t obj :
  NoDup ((λ o, Comment.pk (comment o)) <$> objs) →
  objs !! t = Some obj →
  map_comments objs !! Comment.pk (comment obj) = Some t.
Proof.
  intros Hnd Ht.
  destruct (map_comments_spec objs (Comment.pk (comment obj))) as [Hto Hsome].
  destruct Hsome as [t' Ht']; [exists obj; split; [by eapply list_elem_of_lookup_2|done]|].
  rewrite Ht'. f_equal. destruct (Hto t' Ht') as (obj' & Hobj' & Hpk).
  apply (NoDup_lookup _ t' t (Comment.pk (comment obj)) Hnd);
    rewrite list_lookup_fmap.
  - rewrite Hobj'. simpl. by rewrite Hpk.
  - by rewrite Ht.
Qed.

(** X6: when the keys of the reviews are distinct and so are the keys of
    the fetched comments, the reply list of a comment holds the fetched rows
    of public reply reviews whose comment replies to the key of that comment,
    all of them, in the order they were fetched. *)
Theorem comment_lists_its_replies
    (all_reviews : list Review.row) (through : list join_row)
    (rc : reconstruction) (t : addr) (c : Comment.t) :
  NoDup (Review.pk <$> all_reviews) →
  NoDup ((λ o, Comment.pk (comment o)) <$> fetched all_reviews through) →
  get_all_review_comments all_reviews through = Ok rc →
  comments rc !! t = Some c →
  Comment._replies c
  = (filter (λ o : addr * join_row,
               review_id o.2 ∈ reply_pks all_reviews
               ∧ Comment.reply_to_id (comment o.2)
                 = Some (Comment.pk (Comment.columns c)))
       (enumerate (fetched all_reviews through))).*1.
Proof.
  intros Hnd Hndc Hget Hc.
  destruct (get_all_review_comments_inv _ _ _ Hget) as (scan & es & emap & Hrec).
  pose proof Hrec as (_ & Hspec & _).
  destruct (rec_comment _ _ _ _ _ _ Hrec t c Hc) as (objt & Ht & -> & ->).
  unfold replies_of. f_equal. apply filter_ext_elem_of.
  intros [b obj] Hb. simpl. unfold reply_target, reply_pks. split.
  - destruct (reviews_id_map scan !! review_id obj) as [[ra r0]|] eqn:Hid;
      [|done].
    destruct (scan_ids_lookup _ _ _ _ _ Hspec Hid) as (Hra & Hp & Hpk).
    destruct (Review.is_reply r0) eqn:Hreply; [|done].
    destruct (Comment.is_reply (comment obj)); [|done].
    destruct (Comment.reply_to_id (comment obj)) as [k|]; [|done].
    simpl. intros Hk. split.
    + apply list_elem_of_fmap. exists r0. split; [done|].
      apply list_elem_of_filter. rewrite Hreply.
      split; [done|]. by eapply list_elem_of_lookup_2.
    + destruct (map_comments_spec (fetched all_reviews through) k) as [Hto _].
      destruct (Hto t Hk) as (obj' & Hobj' & <-). congruence.
  - intros [Hin Hk]. apply list_elem_of_fmap in Hin as (r0 & Hpk & Hin).
    apply list_elem_of_filter in Hin as [[Hp Hreply] Hin].
    apply list_elem_of_lookup in Hin as [a0 Ha0].
    rewrite Hpk, (scan_ids_unique all_reviews scan a0 r0) by done.
    destruct (Review.is_reply r0); [|done].
    unfold Comment.is_reply. rewrite Hk. simpl.
    by apply map_comments_unique.
Qed.

Lemma comment_lists_its_replies_witness :
  ∃ rc c, get_all_review_comments sample_reviews sample_through = Ok rc
    ∧ comments rc !! 0 = Some c ∧ Comment._replies c = [1].
Proof.
  eexists _, (Comment.Obj (Comment.Row 10 "why?" None) [1] (Some 0)).
  split; [vm_compute; reflexivity|]. split; [reflexivity|].
  etrans; [eapply (comment_lists_its_replies sample_reviews sample_through
                     _ 0 (Comment.Obj (Comment.Row 10 "why?" None) [1] (Some 0)));
           [compute_done|compute_done|vm_compute; reflexivity|reflexivity]|].
  vm_compute. reflexivity.
Defined.

(** ** When the reconstruction returns, and how it fails *)

(** X7: when the keys of the reviews are distinct,
    [get_all_review_comments] returns exactly on well-linked input: the body
    links of public reviews point to public reviews, and a fetched row of a
    public reply review has the base review among the entries and, if its
    comment is a reply, the replied comment among the fetched rows. *)
Theorem reconstruction_returns_iff_well_linked
    (all_reviews : list Review.row) (through : list join_row) :
  NoDup (Review.pk <$> all_reviews) →
  (∃ rc, get_all_review_comments all_reviews through = Ok rc)
  ↔ well_linked all_reviews through.
Proof.
  intros Hnd. split; [|apply get_all_review_comments_total].
  intros [rc Hget]. split; [done|]. split.
  - intros r k Hr Hp Hk.
    destruct (get_all_review_comments_inv _ _ _ Hget)
      as (scan & es & emap & Hrec).
    pose proof Hrec as (_ & Hspec & _ & Hkeys & _).
    apply (scan_ids_public_pks all_reviews scan); [done|]. apply Hkeys.
    destruct Hk as [Hk|Hk]; [left|right].
    + rewrite (spec_top _ _ Hspec). apply repliers_is_Some. by exists r.
    + rewrite (spec_bottom _ _ Hspec). apply repliers_is_Some. by exists r.
  - intros obj r Hobj Hr Hp Hpk Hreply. split.
    + by eapply returned_reply_reviews_have_entries.
    + intros Hcr.
      destruct (returned_replies_have_targets _ _ _ obj r Hget Hnd Hobj Hr Hp
                  Hpk Hreply Hcr) as (obj' & Hobj' & Ht).
      by exists (Comment.pk (comment obj')), obj'.
Qed.

Lemma reconstruction_returns_iff_well_linked_witness :
  (∃ rc, get_all_review_comments sample_reviews sample_through = Ok rc)
  ↔ well_linked sample_reviews sample_through.
Proof.
  apply (reconstruction_returns_iff_well_linked sample_reviews sample_through).
  compute_done.
Defined.

Lemma for_each_Raise_inv {A S} (body : S → A → result S) l s e :
  for_each body l s = Raise e →
  ∃ l1 x l2 s1, l = l1 ++ x :: l2 ∧ for_each body l1 s = Ok s1
                ∧ body s1 x = Raise e.
Proof.
  revert s. induction l as [|x l IH]; intros s; simpl; [done|].
  destruct (body s x) as [s1|e'] eqn:Hb; simpl.
  - intros Hl. apply IH in Hl as (l1 & y & l2 & s2 & -> & Hl1 & Hy).
    exists (x :: l1), y, l2, s2. simpl. rewrite Hb. simpl. done.
  - intros [= ->]. by exists [], x, l, s.
Qed.

Lemma link_replies_Raise setter ids (reply_list : gmap Z (list addr)) store e :
  link_replies setter ids reply_list store = Raise e →
  ∃ k, e = KeyError (Some k) ∧ is_Some (reply_list !! k) ∧ ids !! k = None.
Proof.
  unfold link_replies.
  intros Hloop.
  apply for_each_Raise_inv in Hloop as (l1 & [k l] & l2 & s1 & Hl & _ & Hb).
  exists k. simpl in Hb. unfold getitem in Hb. simpl in Hb.
  destruct (ids !! k) as [v|] eqn:Hk; [done|]. injection Hb as <-.
  split; [done|]. split; [|done]. exists l.
  apply elem_of_map_to_list. rewrite Hl. apply elem_of_app. right. by left.
Qed.

Lemma attach_comment_Raise ids emap cmap st a obj e ra r :
  attach_comment ids emap cmap st (a, obj) = Raise e →
  ids !! review_id obj = Some (ra, r) →
  (Review.is_reply r ∧
   ((e = AssertionError ∧ is_Some (emap !! review_id obj))
    ∨ (e = AssertionError ∧ has_key emap (Review.base_reply_to_id r) = false)
    ∨ (∃ k, e = KeyError (Some k)
            ∧ Comment.reply_to_id (comment obj) = Some k ∧ cmap !! k = None)))
  ∨ (¬ Review.is_reply r ∧ Review.public r ∧ emap !! review_id obj = None).
Proof.
  intros Hatt Hid. unfold attach_comment in Hatt. simpl in Hatt.
  rewrite Hid in Hatt. unfold getitem in Hatt. simpl in Hatt.
  rewrite Hid in Hatt. simpl in Hatt.
  destruct (Review.is_reply r) eqn:Hreply.
  - left. split; [done|].
    destruct (emap !! review_id obj) as [i|] eqn:Hown; simpl in Hatt.
    { injection Hatt as <-. left. split; [done|]. by eexists. }
    destruct (has_key emap (Review.base_reply_to_id r)) eqn:Hbase;
      simpl in Hatt; [|injection Hatt as <-; right; left; done].
    right. right.
    destruct (Comment.is_reply (comment obj)) eqn:Hcr; [|done].
    unfold Comment.is_reply in Hcr.
    destruct (Comment.reply_to_id (comment obj)) as [k|] eqn:Hk;
      [|by apply bool_decide_eq_true in Hcr as [? [=]]].
    simpl in Hatt. destruct (cmap !! k) eqn:Hc; [done|].
    injection Hatt as <-. by exists k.
  - right. split; [by intros []|].
    destruct (Review.public r) eqn:Hp; [|done]. split; [done|].
    destruct (emap !! review_id obj) as [i|] eqn:Hown; [done|done].
Qed.

(** X8: when the keys of the reviews are distinct, a failure of
    [get_all_review_comments] is one of three: [KeyError] for a body link of
    a public review that is not the key of a public review (line 125); for a
    fetched row of a public reply review, [AssertionError] when the base
    review is not among the entries (line 171), or [KeyError] for the key the
    comment replies to when no fetched comment has it (line 176). *)
Theorem reconstruction_failure_has_cause
    (all_reviews : list Review.row) (through : list join_row) (e : exn) :
  NoDup (Review.pk <$> all_reviews) →
  get_all_review_comments all_reviews through = Raise e →
  (∃ k r, e = KeyError (Some k) ∧ (k ∉ public_pks all_reviews)
          ∧ r ∈ all_reviews ∧ Review.public r
          ∧ (Review.body_top_reply_to_id r = Some k
             ∨ Review.body_bottom_reply_to_id r = Some k))
  ∨ (∃ obj r, obj ∈ fetched all_reviews through ∧ r ∈ all_reviews
       ∧ Review.public r ∧ Review.pk r = review_id obj ∧ Review.is_reply r
       ∧ ((e = AssertionError
           ∧ ∀ p, Review.base_reply_to_id r = Some p →
                  p ∉ entry_pks all_reviews)
          ∨ (∃ k, e = KeyError (Some k)
                  ∧ Comment.reply_to_id (comment obj) = Some k
                  ∧ ∀ obj', obj' ∈ fetched all_reviews through →
                            Comment.pk (comment obj') ≠ k))).
Proof.
  intros Hnd. unfold get_all_review_comments.
  destruct (scan_reviews_spec all_reviews) as (scan & Hscan & Hspec).
  rewrite Hscan. cbn [mbind result_bind].
  destruct (build_entries (public_reviews scan)) as [es emap] eqn:Hes.
  assert (∀ k sel, is_Some (nonempty (repliers sel k (enumerate all_reviews))) →
            reviews_id_map scan !! k = None →
            (k ∉ public_pks all_reviews)
            ∧ ∃ r, r ∈ all_reviews ∧ Review.public r ∧ sel r = Some k) as Hbody.
  { intros k sel Hk Hnone. split; [|by apply repliers_is_Some].
    intros Hin. apply (scan_ids_public_pks all_reviews scan) in Hin; [|done].
    rewrite Hnone in Hin. by destruct Hin. }
  destruct (link_replies Review.set_body_top_replies _ _ _) as [store1|e1]
    eqn:Htop; cbn [mbind result_bind].
  2:{ intros [= ->]. left.
      apply link_replies_Raise in Htop as (k & -> & Hk & Hnone).
      rewrite (spec_top _ _ Hspec) in Hk.
      destruct (Hbody k _ Hk Hnone) as (? & r & ? & ? & ?).
      exists k, r. auto 10. }
  destruct (link_replies Review.set_body_bottom_replies _ _ _) as [store2|e2]
    eqn:Hbot; cbn [mbind result_bind].
  2:{ intros [= ->]. left.
      apply link_replies_Raise in Hbot as (k & -> & Hk & Hnone).
      rewrite (spec_bottom _ _ Hspec) in Hk.
      destruct (Hbody k _ Hk Hnone) as (? & r & ? & ? & ?).
      exists k, r. auto 10. }
  rewrite (fetch_join_rows_fetched all_reviews) by done.
  destruct (for_each _ _ _) as [st|e3] eqn:Hloop; [done|].
  cbn [mbind result_bind]. intros [= ->]. right.
  apply for_each_Raise_inv in Hloop as (l1 & [a obj] & l2 & st1 & Hl & _ & Hatt).
  assert (fetched all_reviews through !! a = Some obj) as Ha.
  { apply elem_of_enumerate. rewrite Hl. apply elem_of_app. right. by left. }
  assert (obj ∈ fetched all_reviews through) as Hobj
    by (by eapply list_elem_of_lookup_2).
  assert (is_Some (reviews_id_map scan !! review_id obj)) as [[ra r] Hid].
  { apply (scan_ids_public_pks all_reviews); [done|].
    by apply list_elem_of_filter in Hobj as [? _]. }
  destruct (scan_ids_lookup _ _ _ _ _ Hspec Hid) as (Hra & Hp & Hpk).
  assert (r ∈ all_reviews) as Hr by (by eapply list_elem_of_lookup_2).
  assert (emap = (build_entries (public_reviews scan)).2) as Hemap
    by (by rewrite Hes).
  destruct (attach_comment_Raise _ _ _ _ _ _ _ _ _ Hatt Hid)
    as [[Hreply [[-> Hown]|[[-> Hbase]|(k & -> & Hk & Hnone)]]]
       |(Htop' & _ & Hnone)].
  - exfalso. rewrite Hemap in Hown.
    apply (entries_map_entry_pks all_reviews) in Hown; [|done].
    apply elem_of_entry_pks in Hown as (r' & Hr' & _ & Htop' & Hpk').
    assert (r' = r) as -> by (eapply NoDup_pk_eq; [done..|congruence]).
    done.
  - exists obj, r. do 5 (split; [done|]). left. split; [done|].
    intros p Hp' Hin. rewrite Hp' in Hbase. simpl in Hbase.
    apply bool_decide_eq_false in Hbase. apply Hbase. rewrite Hemap.
    by apply (entries_map_entry_pks all_reviews).
  - exists obj, r. do 5 (split; [done|]). right. exists k.
    split; [done|]. split; [done|]. intros obj' Hobj' Hpk'.
    destruct (map_comments_spec (fetched all_reviews through) k) as [_ Hsome].
    destruct Hsome as [t Ht]; [by exists obj'|]. congruence.
  - exfalso. apply eq_None_not_Some in Hnone. apply Hnone. rewrite Hemap.
    apply (entries_map_entry_pks all_reviews); [done|].
    apply elem_of_entry_pks. by exists r.
Qed.

Lemma reconstruction_failure_has_cause_witness :
  ∃ obj r, obj ∈ fetched stray_base_reviews stray_base_through
    ∧ r ∈ stray_base_reviews ∧ Review.pk r = review_id obj
    ∧ Review.base_reply_to_id r = Some 5%Z
    ∧ (5%Z ∉ entry_pks stray_base_reviews).
Proof.
  destruct (reconstruction_failure_has_cause stray_base_reviews
              stray_base_through AssertionError)
    as [(k & r & [=] & _)|(obj & r & Hobj & Hr & Hp & Hpk & Hreply & Hcause)].
  - compute_done.
  - vm_compute. reflexivity.
  - destruct Hcause as [[_ Hbase]|(k & [=] & _)].
    exists obj, r. split; [done|]. split; [done|]. split; [done|].
    unfold stray_base_reviews in Hr.
    repeat (apply elem_of_cons in Hr as [->|Hr]);
      [..|by apply elem_of_nil in Hr]; [done|].
    split; [done|]. by apply Hbase.
Defined.

(** ** The threads of a reconstruction *)

Lemma NoDup_bounded_length (l : list nat) n :
  NoDup l → Forall (λ x, x < n) l → length l ≤ n.
Proof.
  intros Hnd Hall. trans (length (seq 0 n)); [|by rewrite length_seq].
  apply submseteq_length, NoDup_submseteq; [done|].
  intros x Hx. apply elem_of_seq. eapply Forall_forall in Hall; [|done]. lia.
Qed.

Lemma flatten_comment_forest h (par : addr → option addr) root :
  closed h →
  (∀ a c b, h !! a = Some c → b ∈ Comment._replies c → par b = Some a) →
  par root = None →
  ∀ m l a,
    head l = Some a → last l = Some root → NoDup l →
    Forall (λ x, x < length h) l →
    (∀ i x y, l !! i = Some x → l !! S i = Some y → par x = Some y) →
    length h < length l + m →
    ∃ s, flatten_comment m h a = Ok s.
Proof.
  intros Hcl Hpar Hroot. induction m as [|m IH]; intros l a Hhd Hlast Hnd Hall Hchain Hlen.
  - pose proof (NoDup_bounded_length _ _ Hnd Hall). lia.
  - simpl. destruct l as [|a' l]; [done|]. injection Hhd as ->.
    assert (is_Some (h !! a)) as [c Hc].
    { apply lookup_lt_is_Some. by apply Forall_cons in Hall as [? _]. }
    rewrite Hc. apply for_each_all_Ok. intros b text Hb.
    destruct (IH (b :: a :: l) b) as [s Hs]; try done.
    + apply NoDup_cons. split; [|done]. intros Hin.
      apply list_elem_of_lookup in Hin as [i Hi].
      destruct ((a :: l) !! S i) as [y|] eqn:Hy.
      * assert (par b = Some y) as Hby by (by eapply Hchain).
        rewrite (Hpar a c b Hc Hb) in Hby. injection Hby as <-.
        assert (S i = 0); [|done].
        by eapply (NoDup_lookup (a :: l) (S i) 0 a).
      * assert (b = root) as ->.
        { rewrite last_lookup in Hlast.
          apply lookup_ge_None in Hy. apply lookup_lt_Some in Hi as Hlt.
          replace (pred (length (a :: l))) with i in Hlast by lia. congruence. }
        rewrite (Hpar a c root Hc Hb) in Hroot. done.
    + apply Forall_cons. split; [|done]. apply lookup_lt_is_Some. by eapply Hcl.
    + intros [|i] x y; simpl.
      * intros [= <-] [= <-]. by eapply Hpar.
      * apply Hchain.
    + simpl in *. lia.
    + rewrite Hs. by eexists.
Qed.

Lemma owner_entry_no_target ids emap cmap obj i :
  owner_entry ids emap obj = Some i → reply_target ids cmap obj = None.
Proof.
  unfold owner_entry, reply_target.
  destruct (ids !! review_id obj) as [[ra r]|]; [|done].
  by destruct (Review.is_reply r).
Qed.

Lemma entry_comment_flattens all_reviews through rc e a depth :
  get_all_review_comments all_reviews through = Ok rc →
  e ∈ entries rc → a ∈ diff_comments e →
  length (fetched all_reviews through) ≤ depth →
  ∃ s, flatten_comment depth (comments rc) a = Ok s.
Proof.
  intros Hget [i He]%list_elem_of_lookup Ha Hdepth.
  destruct (get_all_review_comments_inv _ _ _ Hget) as (scan & es & emap & Hrec).
  pose proof Hrec as (_ & Hspec & _ & _ & _ & _ & Hatt & _).
  rewrite (fetch_join_rows_fetched all_reviews) in Hatt by done.
  destruct Hatt as [_ _ Hlen _]. simpl in Hlen.
  destruct (rec_entry _ _ _ _ _ _ Hrec i e He) as (? & ? & _ & _ & _ & Hdc).
  rewrite Hdc in Ha. apply elem_of_attached_to in Ha as (obj & Hobj & Hown).
  set (par := λ b : addr,
         obj ← fetched all_reviews through !! b;
         reply_target (reviews_id_map scan)
           (map_comments (fetched all_reviews through)) obj).
  apply (flatten_comment_forest (comments rc) par a) with (l := [a]).
  - by eapply reconstruction_closed.
  - intros t c b Hc Hb.
    destruct (rec_comment _ _ _ _ _ _ Hrec t c Hc) as (_ & _ & _ & Hrep).
    rewrite Hrep in Hb. apply elem_of_replies_of in Hb as (obj' & Hobj' & Ht).
    unfold par. by rewrite Hobj'.
  - unfold par. rewrite Hobj. simpl. by eapply owner_entry_no_target.
  - done.
  - done.
  - apply NoDup_singleton.
  - repeat constructor. rewrite Hlen. by eapply lookup_lt_Some.
  - by intros [|?] ? ? ? ?.
  - rewrite Hlen. simpl. lia.
Qed.

(** X9: on every reconstruction that [get_all_review_comments] returns,
    [flatten_comment] returns a text for each comment of each entry at every
    recursion depth from the number of fetched rows on: the reply lists
    reached from the comment of an entry never form a cycle. *)
Theorem entry_threads_flatten
    (all_reviews : list Review.row) (through : list join_row)
    (rc : reconstruction) (e : entry) (depth : nat) :
  get_all_review_comments all_reviews through = Ok rc →
  e ∈ entries rc →
  length (fetched all_reviews through) ≤ depth →
  ∃ flats,
    Forall2 (λ a s, ∀ depth', depth ≤ depth' →
                      flatten_comment depth' (comments rc) a = Ok s)
      (diff_comments e) flats.
Proof.
  intros Hget He Hdepth.
  assert (∀ a, a ∈ diff_comments e →
               ∃ s, flatten_comment depth (comments rc) a = Ok s) as Hall
    by (intros a Ha; by eapply entry_comment_flattens).
  induction (diff_comments e) as [|a l IH]; [by exists []|].
  destruct (Hall a) as [s Hs]; [by left|].
  destruct IH as [flats Hflats]; [intros b Hb; apply Hall; by right|].
  exists (s :: flats). constructor; [|done].
  intros depth' Hle. by eapply flatten_comment_mono.
Qed.

Lemma entry_threads_flatten_witness :
  ∃ rc e flats,
    get_all_review_comments sample_reviews sample_through = Ok rc
    ∧ e ∈ entries rc
    ∧ Forall2 (λ a s, ∀ depth', 3 ≤ depth' →
                        flatten_comment depth' (comments rc) a = Ok s)
        (diff_comments e) flats.
Proof.
  destruct (entry_threads_flatten sample_reviews sample_through
              _ (Entry 0 [0] 100) 3 eq_refl) as [flats Hflats].
  - by left.
  - vm_compute. lia.
  - eexists _, (Entry 0 [0] 100), flats. split; [reflexivity|].
    split; [by left|exact Hflats].
Defined.

Lemma entry_comments_flatten all_reviews through rc e depth :
  get_all_review_comments all_reviews through = Ok rc →
  e ∈ entries rc →
  length (fetched all_reviews through) ≤ depth →
  ∃ flats, Forall2 (λ a s, flatten_comment depth (comments rc) a = Ok s)
             (diff_comments e) flats.
Proof.
  intros Hget He Hdepth.
  assert (∀ a, a ∈ diff_comments e →
               ∃ s, flatten_comment depth (comments rc) a = Ok s) as Hall
    by (intros a Ha; by eapply entry_comment_flattens).
  induction (diff_comments e) as [|a l IH]; [by exists []|].
  destruct (Hall a) as [s Hs]; [by left|].
  destruct IH as [flats Hflats]; [intros b Hb; apply Hall; by right|].
  exists (s :: flats). by constructor.
Qed.

Lemma flatten_entry_returns all_reviews through rc e depth comment_text :
  get_all_review_comments all_reviews through = Ok rc →
  e ∈ entries rc →
  length (fetched all_reviews through) ≤ depth →
  ∃ s, flatten_entry depth rc comment_text e = Ok s.
Proof.
  intros Hget He Hdepth.
  destruct (entry_comments_flatten _ _ _ _ _ Hget He Hdepth) as [flats Hflats].
  destruct (get_all_review_comments_inv _ _ _ Hget) as (scan & es & emap & Hrec).
  pose proof Hrec as (_ & Hspec & _ & _ & Hrev & _).
  assert (∀ a, is_public_review all_reviews a → is_Some (reviews rc !! a))
    as Hstore.
  { intros a (r & Ha & _). destruct (Hrev a r Ha) as (o & Ho & _). by exists o. }
  destruct (reconstruction_refs_public _ _ _ _ _ _ Hrec) as (Hentries & Hlists).
  destruct (Hstore (review e)) as [r Hr]; [by apply Hentries|].
  assert (r ∈ reviews rc) as Hrin by (by eapply list_elem_of_lookup_2).
  destruct (lookup_all (reviews rc) (Review._body_top_replies r)) as [tops Htops].
  { intros a Ha. apply Hstore, (Hlists r); auto. }
  destruct (lookup_all (reviews rc) (Review._body_bottom_replies r))
    as [bots Hbots].
  { intros a Ha. apply Hstore, (Hlists r); auto. }
  unfold flatten_entry. rewrite Hr.
  rewrite (review_replies_text_Ok _ _ tops Htops).
  rewrite (review_replies_text_Ok _ _ bots Hbots).
  cbn [mbind result_bind].
  rewrite (mapM_result_Ok _ _ flats Hflats). cbn [mbind result_bind].
  by eexists.
Qed.

Lemma comment_text_returns all_reviews through rc depth :
  get_all_review_comments all_reviews through = Ok rc →
  length (fetched all_reviews through) ≤ depth →
  ∃ s, for_each (flatten_entry depth rc) (entries rc) "" = Ok s.
Proof.
  intros Hget Hdepth. apply for_each_all_Ok. intros e ct He.
  by eapply flatten_entry_returns.
Qed.

(** X10: for a request whose reviews and comments are well linked, and a
    recursion depth from the number of fetched rows on, the reconstruction
    returns, the text of the comments is built, and the document of
    [index_review_request] is built from it. *)
Theorem well_linked_request_builds (depth : nat) (request : ReviewRequest.t) :
  well_linked (ReviewRequest.reviews request)
    (ReviewRequest.review_comments request) →
  length (fetched (ReviewRequest.reviews request)
            (ReviewRequest.review_comments request)) ≤ depth →
  ∃ rc comment_text,
    get_all_review_comments (ReviewRequest.reviews request)
      (ReviewRequest.review_comments request) = Ok rc
    ∧ for_each (flatten_entry depth rc) (entries rc) "" = Ok comment_text
    ∧ build_document depth request = Ok (document_of request comment_text).
Proof.
  intros Hwl Hdepth.
  destruct (get_all_review_comments_total _ _ Hwl) as [rc Hrc].
  destruct (comment_text_returns _ _ _ _ Hrc Hdepth) as [ct Hct].
  exists rc, ct. split; [done|]. split; [done|].
  unfold build_document, document_of. rewrite Hrc. cbn [mbind result_bind].
  rewrite Hct. cbn [mbind result_bind].
  destruct (truthy _); by rewrite <-?app_assoc.
Qed.

Lemma well_linked_request_builds_witness :
  ∃ comment_text,
    build_document 3 sample_request
    = Ok (document_of sample_request comment_text).
Proof.
  destruct (well_linked_request_builds 3 sample_request well_linked_sample)
    as (rc & ct & _ & _ & Hdoc).
  - vm_compute. lia.
  - by exists ct.
Defined.

Lemma string_app_nil_r (s : string) : s +:+ "" = s.
Proof.
  induction s as [|c s IH]; [done|].
  change (String c (s +:+ "") = String c s). by rewrite IH.
Qed.

(** X11: a document has one text field, and the value of every other field
    but the id occurs in it. *)
Theorem text_field_covers_fields
    (depth : nat) (request : ReviewRequest.t) (doc : document) :
  build_document depth request = Ok doc →
  ∃ text, field_values "text" doc = [text]
    ∧ ∀ f, f ∈ doc → name f ≠ "id" → occurs_in (value f) text.
Proof.
  intros Hdoc. destruct (build_document_inv _ _ _ Hdoc) as [ct ->].
  destruct (field_values_document_of request ct) as (_ & _ & _ & Htext).
  eexists. split; [exact Htext|]. intros f Hf Hid.
  unfold document_of in Hf. cbn [join]. unfold occurs_in.
  set (s1 := ReviewRequest.summary request) in *.
  set (s2 := ReviewRequest.description request) in *.
  set (s3 := unicode (ReviewRequest.changenum request)) in *.
  set (s4 := ReviewRequest.testing_done request) in *.
  set (s5 := bugs_field (ReviewRequest.bugs_closed request)) in *.
  set (u := username (ReviewRequest.submitter request)) in *.
  set (fn := full_name (ReviewRequest.submitter request)) in *.
  set (s8 := aggregate_files _) in *.
  apply elem_of_app in Hf as [Hf|Hf];
    [|apply elem_of_app in Hf as [Hf|Hf]].
  - apply elem_of_cons in Hf as [->|Hf]; [done|].
    apply list_elem_of_singleton in Hf as ->. simpl.
    exists "". eexists. reflexivity.
  - destruct (truthy _); [|by apply elem_of_nil in Hf].
    apply list_elem_of_singleton in Hf as ->. simpl.
    exists (s1 +:+ nl +:+ s2 +:+ nl). eexists. by rewrite !string_app_assoc.
  - repeat (apply elem_of_cons in Hf as [->|Hf]); simpl.
    + exists (s1 +:+ nl +:+ s2 +:+ nl +:+ s3 +:+ nl +:+ s4 +:+ nl). eexists.
      by rewrite !string_app_assoc.
    + exists (s1 +:+ nl +:+ s2 +:+ nl +:+ s3 +:+ nl +:+ s4 +:+ nl +:+ s5 +:+ nl).
      eexists. by rewrite !string_app_assoc.
    + exists (s1 +:+ nl +:+ s2 +:+ nl +:+ s3 +:+ nl +:+ s4 +:+ nl +:+ s5 +:+ nl).
      eexists. by rewrite !string_app_assoc.
    + exists (s1 +:+ nl +:+ s2 +:+ nl +:+ s3 +:+ nl +:+ s4 +:+ nl +:+ s5 +:+ nl
              +:+ (u +:+ " " +:+ fn) +:+ nl). eexists.
      by rewrite !string_app_assoc.
    + exists (s1 +:+ nl +:+ s2 +:+ nl +:+ s3 +:+ nl +:+ s4 +:+ nl +:+ s5 +:+ nl
              +:+ (u +:+ " " +:+ fn) +:+ nl +:+ ct +:+ nl), "".
      by rewrite !string_app_assoc, string_app_nil_r.
    + exists "", "". by rewrite string_app_nil_r.
    + by apply elem_of_nil in Hf.
Qed.

Lemma text_field_covers_fields_witness :
  ∃ doc text, build_document 100 sample_request = Ok doc
    ∧ field_values "text" doc = [text]
    ∧ occurs_in "alice Alice A" text ∧ occurs_in "123 456" text.
Proof.
  destruct (text_field_covers_fields 100 sample_request _ eq_refl)
    as (text & Htext & Hall).
  eexists _, text. split; [reflexivity|]. split; [exact Htext|]. split.
  - apply (Hall (Field "author" "alice Alice A" false TOKENIZED)); [|done].
    apply (list_elem_of_lookup_2 _ 3). vm_compute. reflexivity.
  - apply (Hall (Field "bug" "123 456" false TOKENIZED)); [|done].
    apply (list_elem_of_lookup_2 _ 2). vm_compute. reflexivity.
Defined.

(** * The loop over the requests *)

Section Loop.
Context `{Host}.
Hypothesis delete_returns : ∀ w f v, (deleteDocuments w f v).2 = None.
Hypothesis add_returns : ∀ w doc, (addDocument w doc).2 = None.

Lemma index_request_outcome (incremental : bool) totalobjs (st : run writer)
    request :
  let w1 := if incremental
            then (deleteDocuments (index_writer writer st) "id"
                    (pretty (ReviewRequest.id request))).1
            else index_writer writer st in
  index_request incremental totalobjs st request
  = match build_document depth request with
    | Ok doc =>
        match write_progress totalobjs
                (with_writer writer (addDocument w1 doc).1 st) with
        | (st', None) => st'
        | (st', Some e) => log_error writer request e st'
        end
    | Raise e => log_error writer request e (with_writer writer w1 st)
    end.
Proof.
  unfold index_request, index_review_request. simpl.
  destruct incremental.
  - pose proof (delete_returns (index_writer writer st) "id"
                  (pretty (ReviewRequest.id request))) as Hd.
    destruct (deleteDocuments _ _ _) as [w1 e1]. simpl in *. subst e1.
    destruct (build_document depth request) as [doc|e]; [|done].
    pose proof (add_returns w1 doc) as Ha.
    destruct (addDocument w1 doc) as [w2 e2]. simpl in *. by subst e2.
  - destruct (build_document depth request) as [doc|e]; [|done].
    pose proof (add_returns (index_writer writer st) doc) as Ha.
    destruct (addDocument _ doc) as [w2 e2]. simpl in *. by subst e2.
Qed.

Lemma write_progress_returns totalobjs (st : run writer) :
  isatty = false ∨ totalobjs ≠ 0%Z →
  (write_progress totalobjs st).2 = None.
Proof.
  unfold write_progress. intros [->|Hne]; [done|].
  destruct isatty; [|done]. rewrite decide_False by done. by case_decide.
Qed.

Lemma write_progress_keeps totalobjs (st : run writer) :
  index_writer writer (write_progress totalobjs st).1 = index_writer writer st
  ∧ stderr writer (write_progress totalobjs st).1 = stderr writer st.
Proof.
  unfold write_progress. destruct isatty; [|done].
  repeat case_decide; done.
Qed.

(** X12: when the index writer never raises, the loop writes to the error
    stream one line for each request whose document cannot be built, in the
    order of the requests, and nothing else. *)
Theorem error_log_lists_failed_builds
    (incremental : bool) (totalobjs : Z) (requests : list ReviewRequest.t)
    (st : run writer) :
  isatty = false ∨ totalobjs ≠ 0%Z →
  stderr writer (index_requests incremental totalobjs requests st)
  = stderr writer st
    ++ omap (λ request,
               match build_document depth request with
               | Ok _ => None
               | Raise e => Some (error_line request e)
               end) requests.
Proof.
  intros Htotal. revert st.
  induction requests as [|request requests IH]; intros st; simpl.
  { by rewrite app_nil_r. }
  rewrite IH, index_request_outcome.
  destruct (build_document depth request) as [doc|e]; simpl.
  - set (st1 := with_writer writer _ st).
    pose proof (write_progress_returns totalobjs st1 Htotal) as Hp.
    destruct (write_progress_keeps totalobjs st1) as [_ Hs].
    destruct (write_progress _ _) as [st' e']. simpl in *. subst e'.
    by rewrite Hs.
  - by rewrite <-app_assoc.
Qed.

(** X13: when the index writer never raises, the index the loop leaves is
    what comes of deleting, for each request in turn, its documents (in an
    incremental run) and adding its document if it can be built: the progress
    shown and the errors logged leave the index alone, and the deletion for
    a request whose document cannot be built is kept. *)
Theorem index_after_the_loop
    (incremental : bool) (totalobjs : Z) (requests : list ReviewRequest.t)
    (st : run writer) :
  isatty = false ∨ totalobjs ≠ 0%Z →
  index_writer writer (index_requests incremental totalobjs requests st)
  = foldl (λ w request,
             let w1 := if incremental
                       then (deleteDocuments w "id"
                               (pretty (ReviewRequest.id request))).1
                       else w in
             match build_document depth request with
             | Ok doc => (addDocument w1 doc).1
             | Raise _ => w1
             end) (index_writer writer st) requests.
Proof.
  intros Htotal. revert st.
  induction requests as [|request requests IH]; intros st; simpl; [done|].
  rewrite IH, index_request_outcome. f_equal.
  destruct (build_document depth request) as [doc|e]; simpl; [|done].
  set (st1 := with_writer writer _ st).
  pose proof (write_progress_returns totalobjs st1 Htotal) as Hp.
  destruct (write_progress_keeps totalobjs st1) as [Hw _].
  destruct (write_progress _ _) as [st' e']. simpl in *. subst e'.
  by rewrite Hw.
Qed.

Lemma progress_step incremental totalobjs (st : run writer) request doc :
  isatty = true → totalobjs ≠ 0%Z →
  build_document depth request = Ok doc →
  let st' := index_request incremental totalobjs st request in
  let pct := (((i writer st + 1) * 100) `div` totalobjs)%Z in
  i writer st' = (i writer st + 1)%Z
  ∧ prev_pct writer st' = pct
  ∧ stderr writer st' = stderr writer st
  ∧ (pct ≠ prev_pct writer st →
     stdout writer st'
     = stdout writer st
       ++ ["  [" +:+ pretty pct +:+ "%]" +:+ String "013"%char ""]).
Proof.
  intros Htty Hne Hdoc. rewrite index_request_outcome, Hdoc.
  unfold write_progress. rewrite Htty. simpl.
  rewrite decide_False by done. case_decide as Hpct; simpl.
  - done.
  - split; [done|]. split; [by rewrite Hpct|]. split; [done|].
    intros Hne'. by destruct Hne'.
Qed.

(** X14: on a terminal, when every request of a batch that is not empty is
    indexed without error, the counter ends at the number of requests, the
    last progress written is 100%, and nothing is logged. *)
Theorem progress_ends_at_100
    (incremental : bool) (requests : list ReviewRequest.t) (st : run writer) :
  isatty = true → requests ≠ [] →
  (∀ request, request ∈ requests →
     ∃ doc, build_document depth request = Ok doc) →
  i writer st = 0%Z → prev_pct writer st = (-1)%Z →
  let st' := index_requests incremental (Z.of_nat (length requests))
               requests st in
  i writer st' = Z.of_nat (length requests)
  ∧ prev_pct writer st' = 100%Z
  ∧ last (stdout writer st') = Some ("  [100%]" +:+ String "013"%char "")
  ∧ stderr writer st' = stderr writer st.
Proof.
  intros Htty Hne Hbuild Hi Hprev.
  set (total := Z.of_nat (length requests)).
  assert (∀ l, l `prefix_of` requests →
            let st1 := index_requests incremental total l st in
            i writer st1 = Z.of_nat (length l)
            ∧ stderr writer st1 = stderr writer st
            ∧ (prev_pct writer st1 = (-1)%Z
               ∨ prev_pct writer st1
                 = ((Z.of_nat (length l) * 100) `div` total)%Z)) as Hinv.
  { induction l as [|request l IH] using rev_ind; intros Hpre.
    { simpl. rewrite Hi, Hprev. auto. }
    destruct IH as (IHi & IHe & IHp); [by etrans; [apply prefix_app_r|]|].
    destruct Hpre as [l' Hl'].
    destruct (Hbuild request) as [doc Hdoc].
    { rewrite Hl'. apply elem_of_app. left. apply elem_of_app. right. by left. }
    assert (total ≠ 0%Z) as Htotal.
    { unfold total. rewrite Hl', !length_app. simpl. lia. }
    unfold index_requests. rewrite foldl_app. simpl.
    destruct (progress_step incremental total
                (index_requests incremental total l st) request doc Htty Htotal
                Hdoc) as (Hi' & Hp' & He' & _).
    unfold index_requests in *. rewrite Hi', Hp', He', IHi, length_app.
    simpl. split; [lia|]. split; [done|]. right. f_equal. lia. }
  destruct requests as [|r0 requests0] using rev_ind; [done|].
  clear IHrequests0.
  destruct (Hinv requests0) as (Hi0 & He0 & Hp0); [by apply prefix_app_r|].
  destruct (Hbuild r0) as [doc Hdoc]; [apply elem_of_app; right; by left|].
  assert (total = (Z.of_nat (length requests0) + 1)%Z) as Htot
    by (unfold total; rewrite length_app; simpl; lia).
  assert (total ≠ 0%Z) as Htotal by lia.
  destruct (progress_step incremental total
              (index_requests incremental total requests0 st) r0 doc Htty
              Htotal Hdoc) as (Hi' & Hp' & He' & Hout).
  assert ((((i writer (index_requests incremental total requests0 st) + 1)
            * 100) `div` total)%Z = 100%Z) as Hpct.
  { rewrite Hi0. symmetry. apply (Z.div_unique _ _ _ 0); lia. }
  rewrite Hpct in *.
  simpl. unfold index_requests in *. rewrite foldl_app. simpl.
  fold total. rewrite Hi', Hp', He', Hi0, He0.
  split; [lia|]. split; [done|]. split; [|done].
  rewrite Hout; [by rewrite last_snoc|].
  destruct Hp0 as [->| ->]; [done|]. intros Heq.
  assert (Z.of_nat (length requests0) * 100 < total * 100)%Z as Hlt by lia.
  apply Z.div_lt_upper_bound in Hlt; lia.
Qed.

End Loop.

Lemma error_log_lists_failed_builds_witness :
  stderr (list document)
    (@index_requests list_host true 2 [bad_request; sample_request] start)
  = ["Error indexing ReviewRequest #7: 9" +:+ nl].
Proof.
  etrans.
  - apply (@error_log_lists_failed_builds list_host
             (λ _ _ _, eq_refl) (λ _ _, eq_refl) true 2
             [bad_request; sample_request] start). by right.
  - vm_compute. reflexivity.
Defined.

Lemma index_after_the_loop_witness :
  ∃ doc, build_document 100 sample_request = Ok doc
    ∧ index_writer (list document)
        (@index_requests list_host false 2 [bad_request; sample_request]
           start) = [doc].
Proof.
  eexists. split; [vm_compute; reflexivity|]. etrans.
  - apply (@index_after_the_loop list_host
             (λ _ _ _, eq_refl) (λ _ _, eq_refl) false 2
             [bad_request; sample_request] start). by right.
  - vm_compute. reflexivity.
Defined.

Lemma progress_ends_at_100_witness :
  last (stdout (list document)
          (@index_requests list_host true 3
             [sample_request; sample_request; sample_request] start))
  = Some ("  [100%]" +:+ String "013"%char "").
Proof.
  apply (@progress_ends_at_100 list_host (λ _ _ _, eq_refl) (λ _ _, eq_refl)
           true [sample_request; sample_request; sample_request] start);
    try done.
  intros request Hin.
  repeat (apply elem_of_cons in Hin as [->|Hin]);
    [..|by apply elem_of_nil in Hin]; apply sample_request_builds.
Defined.

(** * The command *)

(** X15: [lucene_is_2x] and [lucene_is_3x] are never both true; they raise
    IndexError exactly on a version list that is empty or is [[2]]; and both
    are false exactly for a major version other than 2 and 3, and for 2.m
    with m above 9. *)
Theorem lucene_versions_are_exclusive (lv : list Z) :
  (is_2x lv = inr true → is_3x lv = inr false)
  ∧ (is_3x lv = inr true → is_2x lv = inr false)
  ∧ (is_2x lv = inl IndexError ↔ lv = [] ∨ lv = [2%Z])
  ∧ (is_3x lv = inl IndexError ↔ lv = [] ∨ lv = [2%Z])
  ∧ (is_2x lv = inr false ∧ is_3x lv = inr false
     ↔ ∃ major rest, lv = major :: rest ∧ major ≠ 3%Z
         ∧ (major = 2%Z → ∃ minor rest', rest = minor :: rest' ∧ (9 < minor)%Z)).
Proof.
  unfold is_2x, is_3x, version_item.
  destruct lv as [|major [|minor rest]]; simpl.
  - naive_solver.
  - destruct (decide (major = 2%Z)) as [->|H2];
      destruct (decide (_ = 3%Z)) as [H3|H3]; try done; naive_solver.
  - destruct (decide (major = 2%Z)) as [->|H2].
    + rewrite decide_False by done.
      assert (minor < 9 ∨ minor = 9 ∨ 9 < minor)%Z as [Hm|[Hm|Hm]] by lia.
      * rewrite bool_decide_eq_true_2, bool_decide_eq_false_2 by lia.
        do 2 (split; [done|]). do 2 (split; [naive_solver|]).
        split; [by intros [[=] _]|].
        intros (? & ? & [= <- <-] & _ & Hex).
        destruct Hex as (? & ? & [= <- <-] & ?); [done|]. lia.
      * rewrite bool_decide_eq_false_2, bool_decide_eq_true_2 by lia.
        do 2 (split; [done|]). do 2 (split; [naive_solver|]).
        split; [by intros [_ [=]]|].
        intros (? & ? & [= <- <-] & _ & Hex).
        destruct Hex as (? & ? & [= <- <-] & ?); [done|]. lia.
      * rewrite !bool_decide_eq_false_2 by lia.
        do 2 (split; [done|]). do 2 (split; [naive_solver|]).
        split; [intros _|done]. exists 2%Z, (minor :: rest).
        split; [done|]. split; [done|]. intros _. by exists minor, rest.
    + destruct (decide (major = 3%Z)) as [->|H3];
        split_and!; try done; naive_solver.
Qed.

Section Command.
Context `{Host}.

Lemma build_index_store env dir timestamp :
  store (build_index env dir timestamp) = dir.
Proof.
  unfold build_index.
  destruct (if lucene_is_2x env then _ else _) as [w|e]; [|done].
  destruct (optimize _) as [w1 [e1|]]; [done|].
  by destruct (close _) as [w2 [e2|]].
Qed.

Lemma build_index_raised env dir timestamp :
  raised (build_index env dir timestamp) = None
  ∨ ∃ e, raised (build_index env dir timestamp) = Some (Propagated e).
Proof.
  unfold build_index.
  destruct (if lucene_is_2x env then _ else _) as [w|e]; [|right; by eexists].
  destruct (optimize _) as [w1 [e1|]]; [right; by eexists|].
  destruct (close _) as [w2 [e2|]]; [right; by eexists|by left].
Qed.

Lemma read_timestamp_failure incremental dir e :
  read_timestamp incremental dir = inl e →
  e = ValueError ∧ incremental = true
  ∧ ∃ content, dir = Present (Some content)
               ∧ int content ≫= utcfromtimestamp = None.
Proof.
  unfold read_timestamp. destruct incremental; [|done].
  destruct dir as [|[content|]]; [done| |done].
  destruct (int content ≫= utcfromtimestamp) eqn:Hint; [done|].
  intros [= <-]. split; [done|]. split; [done|]. by exists content.
Qed.

(** X16: [handle_noargs] ends with SystemExit exactly when search is
    disabled or lucene is missing, and then with status 1; it has then
    written one line to the error stream and has touched neither the store
    directory nor the index. *)
Theorem exit_status_1_iff_guard
    (options : option bool) (env : environment) (dir : store_dir) (code : Z) :
  (raised (handle_noargs options env dir) = Some (SystemExit code)
   ↔ code = 1%Z ∧ (search_enable env = false ∨ have_lucene env = false))
  ∧ (search_enable env = false ∨ have_lucene env = false →
     store (handle_noargs options env dir) = dir
     ∧ printed (handle_noargs options env dir) = []
     ∧ length (logged (handle_noargs options env dir)) = 1
     ∧ index_left (handle_noargs options env dir) = None).
Proof.
  unfold handle_noargs.
  destruct (search_enable env); simpl; [|naive_solver].
  destruct (have_lucene env); simpl; [|naive_solver].
  split; [|naive_solver]. split; [|naive_solver].
  destruct (read_timestamp _ _) as [e|timestamp] eqn:Hread; simpl.
  - apply read_timestamp_failure in Hread as [-> _]. done.
  - destruct (build_index_raised env (Present (Some (pretty (time env))))
                timestamp) as [->|[e ->]]; done.
Qed.

(** X17: a run that is past the two guards and the reading of the old
    timestamp leaves the current time in the timestamp file, whatever comes
    after: the file is written before the index is opened. *)
Theorem timestamp_is_written_before_indexing
    (options : option bool) (env : environment) (dir : store_dir) :
  search_enable env = true → have_lucene env = true →
  raised (handle_noargs options env dir) ≠ Some ValueError →
  store (handle_noargs options env dir) = Present (Some (pretty (time env))).
Proof.
  unfold handle_noargs. intros -> ->. simpl.
  destruct (read_timestamp _ _) as [e|timestamp] eqn:Hread; simpl.
  - apply read_timestamp_failure in Hread as [-> _]. done.
  - intros _. apply build_index_store.
Qed.

(** X18: when the store directory or the timestamp file is missing, the
    run is the run of the option --full, whatever the option says. *)
Theorem missing_timestamp_means_full_run
    (options : option bool) (env : environment) (dir : store_dir) :
  dir = Missing ∨ dir = Present None →
  handle_noargs options env dir = handle_noargs (Some false) env dir.
Proof.
  unfold handle_noargs. intros [-> | ->]; simpl;
    destruct (search_enable env), (have_lucene env); simpl; try done;
    unfold read_timestamp; by destruct (default true options).
Qed.

(** X19: [handle_noargs] ends with ValueError exactly when it is past the
    guards, the run is incremental, and the timestamp file holds what [int]
    or the conversion to a datetime rejects; the file is then left as it
    was, and nothing was printed, logged or opened. *)
Theorem value_error_iff_unreadable_timestamp
    (options : option bool) (env : environment) (dir : store_dir) :
  (raised (handle_noargs options env dir) = Some ValueError
   ↔ search_enable env = true ∧ have_lucene env = true
     ∧ options ≠ Some false
     ∧ ∃ content, dir = Present (Some content)
                  ∧ int content ≫= utcfromtimestamp = None)
  ∧ (raised (handle_noargs options env dir) = Some ValueError →
     store (handle_noargs options env dir) = dir
     ∧ index_left (handle_noargs options env dir) = None
     ∧ printed (handle_noargs options env dir) = []
     ∧ logged (handle_noargs options env dir) = []).
Proof.
  unfold handle_noargs.
  destruct (search_enable env); simpl; [|naive_solver].
  destruct (have_lucene env); simpl; [|naive_solver].
  destruct (read_timestamp _ _) as [e|timestamp] eqn:Hread; simpl.
  - apply read_timestamp_failure in Hread
      as (-> & Hinc & content & Hdir & Hint).
    assert (options ≠ Some false) as Hopt.
    { intros ->. done. }
    destruct dir as [|f]; [done|]. simpl in *. naive_solver.
  - destruct (build_index_raised env (Present (Some (pretty (time env))))
                timestamp) as [Hr|[e Hr]]; rewrite Hr.
    + split; [|done]. split; [done|].
      intros (_ & _ & Hopt & content & -> & Hint). exfalso.
      unfold read_timestamp in Hread. simpl in Hread. rewrite Hint in Hread.
      destruct options as [[]|]; simpl in *; done.
    + split; [|done]. split; [done|].
      intros (_ & _ & Hopt & content & -> & Hint). exfalso.
      unfold read_timestamp in Hread. simpl in Hread. rewrite Hint in Hread.
      destruct options as [[]|]; simpl in *; done.
Qed.

(** X20: after a run that got past the reading of the old timestamp at
    time t, the next incremental run, if [int] reads back what ['%d'] wrote,
    is the index build from the datetime of t: it takes the pending and
    submitted requests updated after it. *)
Theorem next_run_starts_from_written_timestamp
    (options options' : option bool) (env env' : environment)
    (dir : store_dir) (timestamp : datetime) :
  search_enable env = true → have_lucene env = true →
  raised (handle_noargs options env dir) ≠ Some ValueError →
  search_enable env' = true → have_lucene env' = true →
  options' ≠ Some false →
  int (pretty (time env)) = Some (time env) →
  utcfromtimestamp (time env) = Some timestamp →
  handle_noargs options' env' (store (handle_noargs options env dir))
  = build_index env' (Present (Some (pretty (time env')))) (Some timestamp).
Proof.
  intros Hs Hl Hr Hs' Hl' Hopt Hint Hutc.
  assert (store (handle_noargs options env dir)
          = Present (Some (pretty (time env)))) as ->.
  { unfold handle_noargs in *. rewrite Hs, Hl in *. simpl in *.
    destruct (read_timestamp _ _) as [e|t] eqn:Hread; simpl in *.
    - apply read_timestamp_failure in Hread as [-> _]. done.
    - apply build_index_store. }
  unfold handle_noargs. rewrite Hs', Hl'. simpl.
  assert (default true options' = true) as ->
    by (destruct options' as [[]|]; done).
  simpl. rewrite Hint. simpl. by rewrite Hutc.
Qed.

(** X21: with a lucene that is neither 2.x nor 3.x, a run past the guards
    and the reading of the timestamp fails with AssertionError; no index is
    opened and nothing is printed, but the timestamp file has been
    rewritten. *)
Theorem unsupported_lucene_fails_after_timestamp
    (options : option bool) (env : environment) (dir : store_dir) :
  search_enable env = true → have_lucene env = true →
  lucene_is_2x env = false → lucene_is_3x env = false →
  raised (handle_noargs options env dir) ≠ Some ValueError →
  raised (handle_noargs options env dir) = Some (Propagated AssertionError)
  ∧ store (handle_noargs options env dir) = Present (Some (pretty (time env)))
  ∧ index_left (handle_noargs options env dir) = None
  ∧ printed (handle_noargs options env dir) = []
  ∧ logged (handle_noargs options env dir) = [].
Proof.
  unfold handle_noargs. intros -> -> H2 H3. simpl.
  destruct (read_timestamp _ _) as [e|timestamp] eqn:Hread; simpl.
  - apply read_timestamp_failure in Hread as [-> _]. done.
  - intros _. unfold build_index. by rewrite H2, H3.
Qed.

End Command.

Lemma timestamp_is_written_before_indexing_witness :
  store (@handle_noargs list_host (Some false) sample_environment
           (Present (Some "garbage")))
  = Present (Some "1000").
Proof.
  apply (@timestamp_is_written_before_indexing list_host (Some false)
           sample_environment (Present (Some "garbage")) eq_refl eq_refl).
  vm_compute. discriminate.
Defined.

Lemma missing_timestamp_means_full_run_witness :
  @handle_noargs list_host None sample_environment Missing
  = @handle_noargs list_host (Some false) sample_environment Missing.
Proof.
  apply (@missing_timestamp_means_full_run list_host None sample_environment
           Missing).
  by left.
Defined.

Lemma next_run_starts_from_written_timestamp_witness :
  @handle_noargs list_host None sample_environment
    (store (@handle_noargs list_host (Some false) sample_environment Missing))
  = @build_index list_host sample_environment (Present (Some "1000"))
      (Some 1000%Z).
Proof.
  apply (@next_run_starts_from_written_timestamp list_host (Some false) None
           sample_environment sample_environment Missing 1000%Z);
    try reflexivity; try done.
Defined.

Lemma unsupported_lucene_fails_after_timestamp_witness :
  let env := @Environment list_host true "/var/index" true false false 1000 []
  in
  raised (@handle_noargs list_host None env Missing)
  = Some (Propagated AssertionError)
  ∧ store (@handle_noargs list_host None env Missing)
    = Present (Some "1000").
Proof.
  intros env.
  destruct (@unsupported_lucene_fails_after_timestamp list_host None env
              Missing eq_refl eq_refl eq_refl eq_refl) as (Hr & Hs & _).
  - vm_compute. discriminate.
  - split; [exact Hr|exact Hs].
Defined.

(** * The diff parser *)

Lemma item_nat {A} (l : list A) (n : nat) :
  item l (Z.of_nat n) = match l !! n with
                        | Some x => inr x
                        | None => inl IndexError
                        end.
Proof.
  unfold item. cbv zeta. rewrite (decide_False (P := (Z.of_nat n < 0)%Z)) by lia.
  rewrite decide_False by lia. by rewrite Nat2Z.id.
Qed.

(** X22: for a line number that is not negative, [_is_moved_file] returns
    True exactly when the three lines from it on exist and start with the
    three marks of a moved file; it raises IndexError exactly when the line
    is missing, or when a following line is missing and the lines before it
    matched. *)
Theorem is_moved_file_reads_within_bounds (lines : list string) (n : nat) :
  (_is_moved_file lines (Z.of_nat n) = inr true
   ↔ ∃ l0 l1 l2, lines !! n = Some l0 ∧ lines !! (n + 1) = Some l1
       ∧ lines !! (n + 2) = Some l2
       ∧ startswith l0 "similarity index" ∧ startswith l1 "rename from"
       ∧ startswith l2 "rename to")
  ∧ (∀ e, _is_moved_file lines (Z.of_nat n) = inl e
     ↔ e = IndexError
       ∧ (length lines ≤ n
          ∨ ∃ l0, lines !! n = Some l0 ∧ startswith l0 "similarity index"
              ∧ (length lines ≤ n + 1
                 ∨ ∃ l1, lines !! (n + 1) = Some l1
                     ∧ startswith l1 "rename from"
                     ∧ length lines ≤ n + 2))).
Proof.
  unfold _is_moved_file.
  replace (Z.of_nat n + 1)%Z with (Z.of_nat (n + 1)) by lia.
  replace (Z.of_nat n + 2)%Z with (Z.of_nat (n + 2)) by lia.
  rewrite !item_nat.
  destruct (lines !! n) as [l0|] eqn:H0.
  2:{ apply lookup_ge_None in H0. split; [naive_solver|].
      intros e. split; [intros [= <-]; auto|naive_solver]. }
  apply lookup_lt_Some in H0 as Hlt0.
  destruct (startswith l0 "similarity index") eqn:Hs0; simpl.
  2:{ split; [split; [done|]|].
      - intros (? & ? & ? & [= <-] & _ & _ & Hs & _). by rewrite Hs0 in Hs.
      - intros e. split; [done|]. intros (_ & [?|(? & [= <-] & Hs & _)]); [lia|].
        by rewrite Hs0 in Hs. }
  destruct (lines !! (n + 1)) as [l1|] eqn:H1.
  2:{ apply lookup_ge_None in H1. split; [naive_solver|].
      intros e. split; [intros [= <-]|naive_solver].
      split; [done|]. right. exists l0. rewrite Hs0. auto. }
  apply lookup_lt_Some in H1 as Hlt1.
  destruct (startswith l1 "rename from") eqn:Hs1; simpl.
  2:{ split; [split; [done|]|].
      - intros (? & ? & ? & _ & [= <-] & _ & _ & Hs & _). by rewrite Hs1 in Hs.
      - intros e. split; [done|].
        intros (_ & [?|(? & _ & _ & [?|(? & [= <-] & Hs & _)])]); [lia..|].
        by rewrite Hs1 in Hs. }
  destruct (lines !! (n + 2)) as [l2|] eqn:H2.
  - apply lookup_lt_Some in H2 as Hlt2. split.
    + split.
      * intros [= Hs2]. exists l0, l1, l2. by rewrite Hs0, Hs1, Hs2.
      * intros (? & ? & ? & _ & _ & [= <-] & _ & _ & Hs). f_equal.
        by destruct (startswith l2 "rename to").
    + intros e. split; [done|].
      intros (_ & [?|(? & _ & _ & [?|(? & _ & _ & ?)])]); lia.
  - apply lookup_ge_None in H2. split; [naive_solver|].
    intros e. split; [intros [= <-]|naive_solver].
    split; [done|]. right. exists l0. split; [done|].
    split; [by rewrite Hs0|]. right. exists l1. by rewrite Hs1.
Qed.

(** X23: whenever [_is_moved_file] returns True, the branch taken on it
    raises nothing: the three lines are added to the data, each with a
    newline, the line number moves on by 3 and the file is marked as
    moved. *)
Theorem moved_file_branch_is_safe
    (lines : list string) (info : file_info) (linenum : Z) :
  _is_moved_file lines linenum = inr true →
  ∃ l0 l1 l2,
    item lines linenum = inr l0 ∧ item lines (linenum + 1) = inr l1
    ∧ item lines (linenum + 2) = inr l2
    ∧ take_moved_file lines info linenum
      = (FileInfo (data info +:+ l0 +:+ nl +:+ l1 +:+ nl +:+ l2 +:+ nl) true,
         (linenum + 3)%Z, None).
Proof.
  unfold _is_moved_file, take_moved_file, add_line.
  destruct (item lines linenum) as [e|l0]; [done|].
  destruct (startswith l0 _); simpl; [|done].
  destruct (item lines (linenum + 1)) as [e|l1]; [done|].
  destruct (startswith l1 _); simpl; [|done].
  destruct (item lines (linenum + 2)) as [e|l2]; [done|].
  intros _. exists l0, l1, l2. do 3 (split; [done|]).
  by rewrite !string_app_assoc.
Qed.

Lemma moved_file_branch_is_safe_witness :
  take_moved_file
    ["diff --git a/x b/y"; "similarity index 100%"; "rename from x";
     "rename to y"] (FileInfo "" false) 1
  = (FileInfo ("similarity index 100%" +:+ nl +:+ "rename from x" +:+ nl
               +:+ "rename to y" +:+ nl) true, 4%Z, None).
Proof.
  destruct (moved_file_branch_is_safe
              ["diff --git a/x b/y"; "similarity index 100%"; "rename from x";
               "rename to y"] (FileInfo "" false) 1 eq_refl)
    as (l0 & l1 & l2 & [= <-] & [= <-] & [= <-] & ->).
  reflexivity.
Defined.
